(** * Semantic tag increment: the version grammar and the increment engine

    A shallow embedding of [semantic_tag_increment/parser.py] and
    [semantic_tag_increment/incrementer.py].

    Conventions of the embedding.
    - A Python [str] is a Rocq [string] that holds its UTF-8 encoding: an
      ASCII character is the byte of its code, any other character is a lead
      byte followed by continuation bytes.  The methods that count or
      classify characters ([len], slicing by a count, [strip], [lower], and
      [isdigit] and [int] on an existing tag) read the encoded characters
      against the tables of the Unicode database, version 14.0 (the one of
      CPython 3.11).  Searching, splitting and comparing texts are the same
      on the encoding as on the characters.
    - The fields of a [SemanticVersion] are ASCII text: [parse] builds them
      from the groups of a pattern that admits ASCII letters, digits, hyphens
      and dots only.  The methods applied to an identifier of a version
      ([isdigit], [int], the search for its trailing digits) are modelled on
      ASCII text.
    - A Python [int] is a [Z] (arbitrary precision, no wrap-around).  The
      cap some interpreters put on the number of digits [int] and [str]
      convert (4300 by default, and configurable) is not modelled: a text
      that [parse] accepts has no number near it.
    - [None] is [None] of an option type; a raised exception is [Raise e].
    - A Python [set] is a stdpp [gset]. *)

From Stdlib Require Import ZArith NArith Ascii String List Sorted Lia Bool.
From stdpp Require Import base option list gmap sets strings.

Open Scope Z_scope.

(** ** Python string primitives *)

Module Py.

Definition code (c : ascii) : N := N_of_ascii c.

(** *** ASCII classes *)

(** An ASCII digit: the class [[0-9]] of a pattern, and [c.isdigit()] on an
    ASCII character. *)
Definition isdigit_char (c : ascii) : bool :=
  ((48 <=? code c) && (code c <=? 57))%N.

(** An ASCII capital or small letter: the classes [[A-Z]] and [[a-z]]. *)
Definition isupper_char (c : ascii) : bool :=
  ((65 <=? code c) && (code c <=? 90))%N.
Definition islower_char (c : ascii) : bool :=
  ((97 <=? code c) && (code c <=? 122))%N.

Fixpoint all_chars (p : ascii -> bool) (s : string) : bool :=
  match s with
  | EmptyString => true
  | String c s' => p c && all_chars p s'
  end.

(** [s.isdigit()] on an identifier of a version, which is ASCII text: at
    least one character, all of them digits. *)
Definition isdigit (s : string) : bool :=
  match s with
  | EmptyString => false
  | _ => all_chars isdigit_char s
  end.

(** *** The Unicode database

    The tables of Unicode 14.0 that the methods modelled here read: the
    white space [str.isspace] knows, the zero of every set of decimal
    digits, the other characters [str.isdigit] accepts (which [int]
    refuses), the lower-case mapping (runs [(first, last, step, image of
    first)] and the one character with a longer image), and the two classes
    that decide how [str.lower] writes a capital sigma. *)

Definition whitespace : list N :=
  [0x0009; 0x000A; 0x000B; 0x000C; 0x000D; 0x001C; 0x001D; 0x001E;
   0x001F; 0x0020; 0x0085; 0x00A0; 0x1680; 0x2000; 0x2001; 0x2002;
   0x2003; 0x2004; 0x2005; 0x2006; 0x2007; 0x2008; 0x2009; 0x200A;
   0x2028; 0x2029; 0x202F; 0x205F; 0x3000]%N.

Definition decimal_zeros : list N :=
  [0x0030; 0x0660; 0x06F0; 0x07C0; 0x0966; 0x09E6; 0x0A66; 0x0AE6;
   0x0B66; 0x0BE6; 0x0C66; 0x0CE6; 0x0D66; 0x0DE6; 0x0E50; 0x0ED0;
   0x0F20; 0x1040; 0x1090; 0x17E0; 0x1810; 0x1946; 0x19D0; 0x1A80;
   0x1A90; 0x1B50; 0x1BB0; 0x1C40; 0x1C50; 0xA620; 0xA8D0; 0xA900;
   0xA9D0; 0xA9F0; 0xAA50; 0xABF0; 0xFF10; 0x104A0; 0x10D30; 0x11066;
   0x110F0; 0x11136; 0x111D0; 0x112F0; 0x11450; 0x114D0; 0x11650; 0x116C0;
   0x11730; 0x118E0; 0x11950; 0x11C50; 0x11D50; 0x11DA0; 0x16A60; 0x16AC0;
   0x16B50; 0x1D7CE; 0x1D7D8; 0x1D7E2; 0x1D7EC; 0x1D7F6; 0x1E140; 0x1E2F0;
   0x1E950; 0x1FBF0]%N.

Definition other_digits : list (N * N) :=
  [(0x00B2, 0x00B3); (0x00B9, 0x00B9); (0x1369, 0x1371); (0x19DA, 0x19DA);
   (0x2070, 0x2070); (0x2074, 0x2079); (0x2080, 0x2089); (0x2460, 0x2468);
   (0x2474, 0x247C); (0x2488, 0x2490); (0x24EA, 0x24EA); (0x24F5, 0x24FD);
   (0x24FF, 0x24FF); (0x2776, 0x277E); (0x2780, 0x2788); (0x278A, 0x2792);
   (0x10A40, 0x10A43); (0x10E60, 0x10E68); (0x11052, 0x1105A); (0x1F100, 0x1F10A)]%N.

Definition lower_runs : list (N * N * N * N) :=
  [(0x0041, 0x005A, 1, 0x0061); (0x00C0, 0x00D6, 1, 0x00E0); (0x00D8, 0x00DE, 1, 0x00F8);
   (0x0100, 0x012E, 2, 0x0101); (0x0132, 0x0136, 2, 0x0133); (0x0139, 0x0147, 2, 0x013A);
   (0x014A, 0x0176, 2, 0x014B); (0x0178, 0x0178, 1, 0x00FF); (0x0179, 0x017D, 2, 0x017A);
   (0x0181, 0x0181, 1, 0x0253); (0x0182, 0x0184, 2, 0x0183); (0x0186, 0x0186, 1, 0x0254);
   (0x0187, 0x0187, 1, 0x0188); (0x0189, 0x018A, 1, 0x0256); (0x018B, 0x018B, 1, 0x018C);
   (0x018E, 0x018E, 1, 0x01DD); (0x018F, 0x018F, 1, 0x0259); (0x0190, 0x0190, 1, 0x025B);
   (0x0191, 0x0191, 1, 0x0192); (0x0193, 0x0193, 1, 0x0260); (0x0194, 0x0194, 1, 0x0263);
   (0x0196, 0x0196, 1, 0x0269); (0x0197, 0x0197, 1, 0x0268); (0x0198, 0x0198, 1, 0x0199);
   (0x019C, 0x019C, 1, 0x026F); (0x019D, 0x019D, 1, 0x0272); (0x019F, 0x019F, 1, 0x0275);
   (0x01A0, 0x01A4, 2, 0x01A1); (0x01A6, 0x01A6, 1, 0x0280); (0x01A7, 0x01A7, 1, 0x01A8);
   (0x01A9, 0x01A9, 1, 0x0283); (0x01AC, 0x01AC, 1, 0x01AD); (0x01AE, 0x01AE, 1, 0x0288);
   (0x01AF, 0x01AF, 1, 0x01B0); (0x01B1, 0x01B2, 1, 0x028A); (0x01B3, 0x01B5, 2, 0x01B4);
   (0x01B7, 0x01B7, 1, 0x0292); (0x01B8, 0x01B8, 1, 0x01B9); (0x01BC, 0x01BC, 1, 0x01BD);
   (0x01C4, 0x01C4, 1, 0x01C6); (0x01C5, 0x01C5, 1, 0x01C6); (0x01C7, 0x01C7, 1, 0x01C9);
   (0x01C8, 0x01C8, 1, 0x01C9); (0x01CA, 0x01CA, 1, 0x01CC); (0x01CB, 0x01DB, 2, 0x01CC);
   (0x01DE, 0x01EE, 2, 0x01DF); (0x01F1, 0x01F1, 1, 0x01F3); (0x01F2, 0x01F4, 2, 0x01F3);
   (0x01F6, 0x01F6, 1, 0x0195); (0x01F7, 0x01F7, 1, 0x01BF); (0x01F8, 0x021E, 2, 0x01F9);
   (0x0220, 0x0220, 1, 0x019E); (0x0222, 0x0232, 2, 0x0223); (0x023A, 0x023A, 1, 0x2C65);
   (0x023B, 0x023B, 1, 0x023C); (0x023D, 0x023D, 1, 0x019A); (0x023E, 0x023E, 1, 0x2C66);
   (0x0241, 0x0241, 1, 0x0242); (0x0243, 0x0243, 1, 0x0180); (0x0244, 0x0244, 1, 0x0289);
   (0x0245, 0x0245, 1, 0x028C); (0x0246, 0x024E, 2, 0x0247); (0x0370, 0x0372, 2, 0x0371);
   (0x0376, 0x0376, 1, 0x0377); (0x037F, 0x037F, 1, 0x03F3); (0x0386, 0x0386, 1, 0x03AC);
   (0x0388, 0x038A, 1, 0x03AD); (0x038C, 0x038C, 1, 0x03CC); (0x038E, 0x038F, 1, 0x03CD);
   (0x0391, 0x03A1, 1, 0x03B1); (0x03A3, 0x03AB, 1, 0x03C3); (0x03CF, 0x03CF, 1, 0x03D7);
   (0x03D8, 0x03EE, 2, 0x03D9); (0x03F4, 0x03F4, 1, 0x03B8); (0x03F7, 0x03F7, 1, 0x03F8);
   (0x03F9, 0x03F9, 1, 0x03F2); (0x03FA, 0x03FA, 1, 0x03FB); (0x03FD, 0x03FF, 1, 0x037B);
   (0x0400, 0x040F, 1, 0x0450); (0x0410, 0x042F, 1, 0x0430); (0x0460, 0x0480, 2, 0x0461);
   (0x048A, 0x04BE, 2, 0x048B); (0x04C0, 0x04C0, 1, 0x04CF); (0x04C1, 0x04CD, 2, 0x04C2);
   (0x04D0, 0x052E, 2, 0x04D1); (0x0531, 0x0556, 1, 0x0561); (0x10A0, 0x10C5, 1, 0x2D00);
   (0x10C7, 0x10C7, 1, 0x2D27); (0x10CD, 0x10CD, 1, 0x2D2D); (0x13A0, 0x13EF, 1, 0xAB70);
   (0x13F0, 0x13F5, 1, 0x13F8); (0x1C90, 0x1CBA, 1, 0x10D0); (0x1CBD, 0x1CBF, 1, 0x10FD);
   (0x1E00, 0x1E94, 2, 0x1E01); (0x1E9E, 0x1E9E, 1, 0x00DF); (0x1EA0, 0x1EFE, 2, 0x1EA1);
   (0x1F08, 0x1F0F, 1, 0x1F00); (0x1F18, 0x1F1D, 1, 0x1F10); (0x1F28, 0x1F2F, 1, 0x1F20);
   (0x1F38, 0x1F3F, 1, 0x1F30); (0x1F48, 0x1F4D, 1, 0x1F40); (0x1F59, 0x1F5F, 2, 0x1F51);
   (0x1F68, 0x1F6F, 1, 0x1F60); (0x1F88, 0x1F8F, 1, 0x1F80); (0x1F98, 0x1F9F, 1, 0x1F90);
   (0x1FA8, 0x1FAF, 1, 0x1FA0); (0x1FB8, 0x1FB9, 1, 0x1FB0); (0x1FBA, 0x1FBB, 1, 0x1F70);
   (0x1FBC, 0x1FBC, 1, 0x1FB3); (0x1FC8, 0x1FCB, 1, 0x1F72); (0x1FCC, 0x1FCC, 1, 0x1FC3);
   (0x1FD8, 0x1FD9, 1, 0x1FD0); (0x1FDA, 0x1FDB, 1, 0x1F76); (0x1FE8, 0x1FE9, 1, 0x1FE0);
   (0x1FEA, 0x1FEB, 1, 0x1F7A); (0x1FEC, 0x1FEC, 1, 0x1FE5); (0x1FF8, 0x1FF9, 1, 0x1F78);
   (0x1FFA, 0x1FFB, 1, 0x1F7C); (0x1FFC, 0x1FFC, 1, 0x1FF3); (0x2126, 0x2126, 1, 0x03C9);
   (0x212A, 0x212A, 1, 0x006B); (0x212B, 0x212B, 1, 0x00E5); (0x2132, 0x2132, 1, 0x214E);
   (0x2160, 0x216F, 1, 0x2170); (0x2183, 0x2183, 1, 0x2184); (0x24B6, 0x24CF, 1, 0x24D0);
   (0x2C00, 0x2C2F, 1, 0x2C30); (0x2C60, 0x2C60, 1, 0x2C61); (0x2C62, 0x2C62, 1, 0x026B);
   (0x2C63, 0x2C63, 1, 0x1D7D); (0x2C64, 0x2C64, 1, 0x027D); (0x2C67, 0x2C6B, 2, 0x2C68);
   (0x2C6D, 0x2C6D, 1, 0x0251); (0x2C6E, 0x2C6E, 1, 0x0271); (0x2C6F, 0x2C6F, 1, 0x0250);
   (0x2C70, 0x2C70, 1, 0x0252); (0x2C72, 0x2C72, 1, 0x2C73); (0x2C75, 0x2C75, 1, 0x2C76);
   (0x2C7E, 0x2C7F, 1, 0x023F); (0x2C80, 0x2CE2, 2, 0x2C81); (0x2CEB, 0x2CED, 2, 0x2CEC);
   (0x2CF2, 0x2CF2, 1, 0x2CF3); (0xA640, 0xA66C, 2, 0xA641); (0xA680, 0xA69A, 2, 0xA681);
   (0xA722, 0xA72E, 2, 0xA723); (0xA732, 0xA76E, 2, 0xA733); (0xA779, 0xA77B, 2, 0xA77A);
   (0xA77D, 0xA77D, 1, 0x1D79); (0xA77E, 0xA786, 2, 0xA77F); (0xA78B, 0xA78B, 1, 0xA78C);
   (0xA78D, 0xA78D, 1, 0x0265); (0xA790, 0xA792, 2, 0xA791); (0xA796, 0xA7A8, 2, 0xA797);
   (0xA7AA, 0xA7AA, 1, 0x0266); (0xA7AB, 0xA7AB, 1, 0x025C); (0xA7AC, 0xA7AC, 1, 0x0261);
   (0xA7AD, 0xA7AD, 1, 0x026C); (0xA7AE, 0xA7AE, 1, 0x026A); (0xA7B0, 0xA7B0, 1, 0x029E);
   (0xA7B1, 0xA7B1, 1, 0x0287); (0xA7B2, 0xA7B2, 1, 0x029D); (0xA7B3, 0xA7B3, 1, 0xAB53);
   (0xA7B4, 0xA7C2, 2, 0xA7B5); (0xA7C4, 0xA7C4, 1, 0xA794); (0xA7C5, 0xA7C5, 1, 0x0282);
   (0xA7C6, 0xA7C6, 1, 0x1D8E); (0xA7C7, 0xA7C9, 2, 0xA7C8); (0xA7D0, 0xA7D0, 1, 0xA7D1);
   (0xA7D6, 0xA7D8, 2, 0xA7D7); (0xA7F5, 0xA7F5, 1, 0xA7F6); (0xFF21, 0xFF3A, 1, 0xFF41);
   (0x10400, 0x10427, 1, 0x10428); (0x104B0, 0x104D3, 1, 0x104D8); (0x10570, 0x1057A, 1, 0x10597);
   (0x1057C, 0x1058A, 1, 0x105A3); (0x1058C, 0x10592, 1, 0x105B3); (0x10594, 0x10595, 1, 0x105BB);
   (0x10C80, 0x10CB2, 1, 0x10CC0); (0x118A0, 0x118BF, 1, 0x118C0); (0x16E40, 0x16E5F, 1, 0x16E60);
   (0x1E900, 0x1E921, 1, 0x1E922)]%N.

Definition lower_special : list (N * list N) :=
  [(0x0130, [0x0069; 0x0307])]%N.

Definition case_ignorable : list (N * N) :=
  [(0x0027, 0x0027); (0x002E, 0x002E); (0x003A, 0x003A); (0x005E, 0x005E);
   (0x0060, 0x0060); (0x00A8, 0x00A8); (0x00AD, 0x00AD); (0x00AF, 0x00AF);
   (0x00B4, 0x00B4); (0x00B7, 0x00B8); (0x02B0, 0x036F); (0x0374, 0x0375);
   (0x037A, 0x037A); (0x0384, 0x0385); (0x0387, 0x0387); (0x0483, 0x0489);
   (0x0559, 0x0559); (0x055F, 0x055F); (0x0591, 0x05BD); (0x05BF, 0x05BF);
   (0x05C1, 0x05C2); (0x05C4, 0x05C5); (0x05C7, 0x05C7); (0x05F4, 0x05F4);
   (0x0600, 0x0605); (0x0610, 0x061A); (0x061C, 0x061C); (0x0640, 0x0640);
   (0x064B, 0x065F); (0x0670, 0x0670); (0x06D6, 0x06DD); (0x06DF, 0x06E8);
   (0x06EA, 0x06ED); (0x070F, 0x070F); (0x0711, 0x0711); (0x0730, 0x074A);
   (0x07A6, 0x07B0); (0x07EB, 0x07F5); (0x07FA, 0x07FA); (0x07FD, 0x07FD);
   (0x0816, 0x082D); (0x0859, 0x085B); (0x0888, 0x0888); (0x0890, 0x0891);
   (0x0898, 0x089F); (0x08C9, 0x0902); (0x093A, 0x093A); (0x093C, 0x093C);
   (0x0941, 0x0948); (0x094D, 0x094D); (0x0951, 0x0957); (0x0962, 0x0963);
   (0x0971, 0x0971); (0x0981, 0x0981); (0x09BC, 0x09BC); (0x09C1, 0x09C4);
   (0x09CD, 0x09CD); (0x09E2, 0x09E3); (0x09FE, 0x09FE); (0x0A01, 0x0A02);
   (0x0A3C, 0x0A3C); (0x0A41, 0x0A42); (0x0A47, 0x0A48); (0x0A4B, 0x0A4D);
   (0x0A51, 0x0A51); (0x0A70, 0x0A71); (0x0A75, 0x0A75); (0x0A81, 0x0A82);
   (0x0ABC, 0x0ABC); (0x0AC1, 0x0AC5); (0x0AC7, 0x0AC8); (0x0ACD, 0x0ACD);
   (0x0AE2, 0x0AE3); (0x0AFA, 0x0AFF); (0x0B01, 0x0B01); (0x0B3C, 0x0B3C);
   (0x0B3F, 0x0B3F); (0x0B41, 0x0B44); (0x0B4D, 0x0B4D); (0x0B55, 0x0B56);
   (0x0B62, 0x0B63); (0x0B82, 0x0B82); (0x0BC0, 0x0BC0); (0x0BCD, 0x0BCD);
   (0x0C00, 0x0C00); (0x0C04, 0x0C04); (0x0C3C, 0x0C3C); (0x0C3E, 0x0C40);
   (0x0C46, 0x0C48); (0x0C4A, 0x0C4D); (0x0C55, 0x0C56); (0x0C62, 0x0C63);
   (0x0C81, 0x0C81); (0x0CBC, 0x0CBC); (0x0CBF, 0x0CBF); (0x0CC6, 0x0CC6);
   (0x0CCC, 0x0CCD); (0x0CE2, 0x0CE3); (0x0D00, 0x0D01); (0x0D3B, 0x0D3C);
   (0x0D41, 0x0D44); (0x0D4D, 0x0D4D); (0x0D62, 0x0D63); (0x0D81, 0x0D81);
   (0x0DCA, 0x0DCA); (0x0DD2, 0x0DD4); (0x0DD6, 0x0DD6); (0x0E31, 0x0E31);
   (0x0E34, 0x0E3A); (0x0E46, 0x0E4E); (0x0EB1, 0x0EB1); (0x0EB4, 0x0EBC);
   (0x0EC6, 0x0EC6); (0x0EC8, 0x0ECD); (0x0F18, 0x0F19); (0x0F35, 0x0F35);
   (0x0F37, 0x0F37); (0x0F39, 0x0F39); (0x0F71, 0x0F7E); (0x0F80, 0x0F84);
   (0x0F86, 0x0F87); (0x0F8D, 0x0F97); (0x0F99, 0x0FBC); (0x0FC6, 0x0FC6);
   (0x102D, 0x1030); (0x1032, 0x1037); (0x1039, 0x103A); (0x103D, 0x103E);
   (0x1058, 0x1059); (0x105E, 0x1060); (0x1071, 0x1074); (0x1082, 0x1082);
   (0x1085, 0x1086); (0x108D, 0x108D); (0x109D, 0x109D); (0x10FC, 0x10FC);
   (0x135D, 0x135F); (0x1712, 0x1714); (0x1732, 0x1733); (0x1752, 0x1753);
   (0x1772, 0x1773); (0x17B4, 0x17B5); (0x17B7, 0x17BD); (0x17C6, 0x17C6);
   (0x17C9, 0x17D3); (0x17D7, 0x17D7); (0x17DD, 0x17DD); (0x180B, 0x180F);
   (0x1843, 0x1843); (0x1885, 0x1886); (0x18A9, 0x18A9); (0x1920, 0x1922);
   (0x1927, 0x1928); (0x1932, 0x1932); (0x1939, 0x193B); (0x1A17, 0x1A18);
   (0x1A1B, 0x1A1B); (0x1A56, 0x1A56); (0x1A58, 0x1A5E); (0x1A60, 0x1A60);
   (0x1A62, 0x1A62); (0x1A65, 0x1A6C); (0x1A73, 0x1A7C); (0x1A7F, 0x1A7F);
   (0x1AA7, 0x1AA7); (0x1AB0, 0x1ACE); (0x1B00, 0x1B03); (0x1B34, 0x1B34);
   (0x1B36, 0x1B3A); (0x1B3C, 0x1B3C); (0x1B42, 0x1B42); (0x1B6B, 0x1B73);
   (0x1B80, 0x1B81); (0x1BA2, 0x1BA5); (0x1BA8, 0x1BA9); (0x1BAB, 0x1BAD);
   (0x1BE6, 0x1BE6); (0x1BE8, 0x1BE9); (0x1BED, 0x1BED); (0x1BEF, 0x1BF1);
   (0x1C2C, 0x1C33); (0x1C36, 0x1C37); (0x1C78, 0x1C7D); (0x1CD0, 0x1CD2);
   (0x1CD4, 0x1CE0); (0x1CE2, 0x1CE8); (0x1CED, 0x1CED); (0x1CF4, 0x1CF4);
   (0x1CF8, 0x1CF9); (0x1D2C, 0x1D6A); (0x1D78, 0x1D78); (0x1D9B, 0x1DFF);
   (0x1FBD, 0x1FBD); (0x1FBF, 0x1FC1); (0x1FCD, 0x1FCF); (0x1FDD, 0x1FDF);
   (0x1FED, 0x1FEF); (0x1FFD, 0x1FFE); (0x200B, 0x200F); (0x2018, 0x2019);
   (0x2024, 0x2024); (0x2027, 0x2027); (0x202A, 0x202E); (0x2060, 0x2064);
   (0x2066, 0x206F); (0x2071, 0x2071); (0x207F, 0x207F); (0x2090, 0x209C);
   (0x20D0, 0x20F0); (0x2C7C, 0x2C7D); (0x2CEF, 0x2CF1); (0x2D6F, 0x2D6F);
   (0x2D7F, 0x2D7F); (0x2DE0, 0x2DFF); (0x2E2F, 0x2E2F); (0x3005, 0x3005);
   (0x302A, 0x302D); (0x3031, 0x3035); (0x303B, 0x303B); (0x3099, 0x309E);
   (0x30FC, 0x30FE); (0xA015, 0xA015); (0xA4F8, 0xA4FD); (0xA60C, 0xA60C);
   (0xA66F, 0xA672); (0xA674, 0xA67D); (0xA67F, 0xA67F); (0xA69C, 0xA69F);
   (0xA6F0, 0xA6F1); (0xA700, 0xA721); (0xA770, 0xA770); (0xA788, 0xA78A);
   (0xA7F2, 0xA7F4); (0xA7F8, 0xA7F9); (0xA802, 0xA802); (0xA806, 0xA806);
   (0xA80B, 0xA80B); (0xA825, 0xA826); (0xA82C, 0xA82C); (0xA8C4, 0xA8C5);
   (0xA8E0, 0xA8F1); (0xA8FF, 0xA8FF); (0xA926, 0xA92D); (0xA947, 0xA951);
   (0xA980, 0xA982); (0xA9B3, 0xA9B3); (0xA9B6, 0xA9B9); (0xA9BC, 0xA9BD);
   (0xA9CF, 0xA9CF); (0xA9E5, 0xA9E6); (0xAA29, 0xAA2E); (0xAA31, 0xAA32);
   (0xAA35, 0xAA36); (0xAA43, 0xAA43); (0xAA4C, 0xAA4C); (0xAA70, 0xAA70);
   (0xAA7C, 0xAA7C); (0xAAB0, 0xAAB0); (0xAAB2, 0xAAB4); (0xAAB7, 0xAAB8);
   (0xAABE, 0xAABF); (0xAAC1, 0xAAC1); (0xAADD, 0xAADD); (0xAAEC, 0xAAED);
   (0xAAF3, 0xAAF4); (0xAAF6, 0xAAF6); (0xAB5B, 0xAB5F); (0xAB69, 0xAB6B);
   (0xABE5, 0xABE5); (0xABE8, 0xABE8); (0xABED, 0xABED); (0xFB1E, 0xFB1E);
   (0xFBB2, 0xFBC2); (0xFE00, 0xFE0F); (0xFE13, 0xFE13); (0xFE20, 0xFE2F);
   (0xFE52, 0xFE52); (0xFE55, 0xFE55); (0xFEFF, 0xFEFF); (0xFF07, 0xFF07);
   (0xFF0E, 0xFF0E); (0xFF1A, 0xFF1A); (0xFF3E, 0xFF3E); (0xFF40, 0xFF40);
   (0xFF70, 0xFF70); (0xFF9E, 0xFF9F); (0xFFE3, 0xFFE3); (0xFFF9, 0xFFFB);
   (0x101FD, 0x101FD); (0x102E0, 0x102E0); (0x10376, 0x1037A); (0x10780, 0x10785);
   (0x10787, 0x107B0); (0x107B2, 0x107BA); (0x10A01, 0x10A03); (0x10A05, 0x10A06);
   (0x10A0C, 0x10A0F); (0x10A38, 0x10A3A); (0x10A3F, 0x10A3F); (0x10AE5, 0x10AE6);
   (0x10D24, 0x10D27); (0x10EAB, 0x10EAC); (0x10F46, 0x10F50); (0x10F82, 0x10F85);
   (0x11001, 0x11001); (0x11038, 0x11046); (0x11070, 0x11070); (0x11073, 0x11074);
   (0x1107F, 0x11081); (0x110B3, 0x110B6); (0x110B9, 0x110BA); (0x110BD, 0x110BD);
   (0x110C2, 0x110C2); (0x110CD, 0x110CD); (0x11100, 0x11102); (0x11127, 0x1112B);
   (0x1112D, 0x11134); (0x11173, 0x11173); (0x11180, 0x11181); (0x111B6, 0x111BE);
   (0x111C9, 0x111CC); (0x111CF, 0x111CF); (0x1122F, 0x11231); (0x11234, 0x11234);
   (0x11236, 0x11237); (0x1123E, 0x1123E); (0x112DF, 0x112DF); (0x112E3, 0x112EA);
   (0x11300, 0x11301); (0x1133B, 0x1133C); (0x11340, 0x11340); (0x11366, 0x1136C);
   (0x11370, 0x11374); (0x11438, 0x1143F); (0x11442, 0x11444); (0x11446, 0x11446);
   (0x1145E, 0x1145E); (0x114B3, 0x114B8); (0x114BA, 0x114BA); (0x114BF, 0x114C0);
   (0x114C2, 0x114C3); (0x115B2, 0x115B5); (0x115BC, 0x115BD); (0x115BF, 0x115C0);
   (0x115DC, 0x115DD); (0x11633, 0x1163A); (0x1163D, 0x1163D); (0x1163F, 0x11640);
   (0x116AB, 0x116AB); (0x116AD, 0x116AD); (0x116B0, 0x116B5); (0x116B7, 0x116B7);
   (0x1171D, 0x1171F); (0x11722, 0x11725); (0x11727, 0x1172B); (0x1182F, 0x11837);
   (0x11839, 0x1183A); (0x1193B, 0x1193C); (0x1193E, 0x1193E); (0x11943, 0x11943);
   (0x119D4, 0x119D7); (0x119DA, 0x119DB); (0x119E0, 0x119E0); (0x11A01, 0x11A0A);
   (0x11A33, 0x11A38); (0x11A3B, 0x11A3E); (0x11A47, 0x11A47); (0x11A51, 0x11A56);
   (0x11A59, 0x11A5B); (0x11A8A, 0x11A96); (0x11A98, 0x11A99); (0x11C30, 0x11C36);
   (0x11C38, 0x11C3D); (0x11C3F, 0x11C3F); (0x11C92, 0x11CA7); (0x11CAA, 0x11CB0);
   (0x11CB2, 0x11CB3); (0x11CB5, 0x11CB6); (0x11D31, 0x11D36); (0x11D3A, 0x11D3A);
   (0x11D3C, 0x11D3D); (0x11D3F, 0x11D45); (0x11D47, 0x11D47); (0x11D90, 0x11D91);
   (0x11D95, 0x11D95); (0x11D97, 0x11D97); (0x11EF3, 0x11EF4); (0x13430, 0x13438);
   (0x16AF0, 0x16AF4); (0x16B30, 0x16B36); (0x16B40, 0x16B43); (0x16F4F, 0x16F4F);
   (0x16F8F, 0x16F9F); (0x16FE0, 0x16FE1); (0x16FE3, 0x16FE4); (0x1AFF0, 0x1AFF3);
   (0x1AFF5, 0x1AFFB); (0x1AFFD, 0x1AFFE); (0x1BC9D, 0x1BC9E); (0x1BCA0, 0x1BCA3);
   (0x1CF00, 0x1CF2D); (0x1CF30, 0x1CF46); (0x1D167, 0x1D169); (0x1D173, 0x1D182);
   (0x1D185, 0x1D18B); (0x1D1AA, 0x1D1AD); (0x1D242, 0x1D244); (0x1DA00, 0x1DA36);
   (0x1DA3B, 0x1DA6C); (0x1DA75, 0x1DA75); (0x1DA84, 0x1DA84); (0x1DA9B, 0x1DA9F);
   (0x1DAA1, 0x1DAAF); (0x1E000, 0x1E006); (0x1E008, 0x1E018); (0x1E01B, 0x1E021);
   (0x1E023, 0x1E024); (0x1E026, 0x1E02A); (0x1E130, 0x1E13D); (0x1E2AE, 0x1E2AE);
   (0x1E2EC, 0x1E2EF); (0x1E8D0, 0x1E8D6); (0x1E944, 0x1E94B); (0x1F3FB, 0x1F3FF);
   (0xE0001, 0xE0001); (0xE0020, 0xE007F); (0xE0100, 0xE01EF)]%N.

Definition cased : list (N * N) :=
  [(0x0041, 0x005A); (0x0061, 0x007A); (0x00AA, 0x00AA); (0x00B5, 0x00B5);
   (0x00BA, 0x00BA); (0x00C0, 0x00D6); (0x00D8, 0x00F6); (0x00F8, 0x01BA);
   (0x01BC, 0x01BF); (0x01C4, 0x0293); (0x0295, 0x02AF); (0x0370, 0x0373);
   (0x0376, 0x0377); (0x037B, 0x037D); (0x037F, 0x037F); (0x0386, 0x0386);
   (0x0388, 0x038A); (0x038C, 0x038C); (0x038E, 0x03A1); (0x03A3, 0x03F5);
   (0x03F7, 0x0481); (0x048A, 0x052F); (0x0531, 0x0556); (0x0560, 0x0588);
   (0x10A0, 0x10C5); (0x10C7, 0x10C7); (0x10CD, 0x10CD); (0x10D0, 0x10FA);
   (0x10FD, 0x10FF); (0x13A0, 0x13F5); (0x13F8, 0x13FD); (0x1C80, 0x1C88);
   (0x1C90, 0x1CBA); (0x1CBD, 0x1CBF); (0x1D00, 0x1D2B); (0x1D6B, 0x1D77);
   (0x1D79, 0x1D9A); (0x1E00, 0x1F15); (0x1F18, 0x1F1D); (0x1F20, 0x1F45);
   (0x1F48, 0x1F4D); (0x1F50, 0x1F57); (0x1F59, 0x1F59); (0x1F5B, 0x1F5B);
   (0x1F5D, 0x1F5D); (0x1F5F, 0x1F7D); (0x1F80, 0x1FB4); (0x1FB6, 0x1FBC);
   (0x1FBE, 0x1FBE); (0x1FC2, 0x1FC4); (0x1FC6, 0x1FCC); (0x1FD0, 0x1FD3);
   (0x1FD6, 0x1FDB); (0x1FE0, 0x1FEC); (0x1FF2, 0x1FF4); (0x1FF6, 0x1FFC);
   (0x2102, 0x2102); (0x2107, 0x2107); (0x210A, 0x2113); (0x2115, 0x2115);
   (0x2119, 0x211D); (0x2124, 0x2124); (0x2126, 0x2126); (0x2128, 0x2128);
   (0x212A, 0x212D); (0x212F, 0x2134); (0x2139, 0x2139); (0x213C, 0x213F);
   (0x2145, 0x2149); (0x214E, 0x214E); (0x2160, 0x217F); (0x2183, 0x2184);
   (0x24B6, 0x24E9); (0x2C00, 0x2C7B); (0x2C7E, 0x2CE4); (0x2CEB, 0x2CEE);
   (0x2CF2, 0x2CF3); (0x2D00, 0x2D25); (0x2D27, 0x2D27); (0x2D2D, 0x2D2D);
   (0xA640, 0xA66D); (0xA680, 0xA69B); (0xA722, 0xA76F); (0xA771, 0xA787);
   (0xA78B, 0xA78E); (0xA790, 0xA7CA); (0xA7D0, 0xA7D1); (0xA7D3, 0xA7D3);
   (0xA7D5, 0xA7D9); (0xA7F5, 0xA7F6); (0xA7FA, 0xA7FA); (0xAB30, 0xAB5A);
   (0xAB60, 0xAB68); (0xAB70, 0xABBF); (0xFB00, 0xFB06); (0xFB13, 0xFB17);
   (0xFF21, 0xFF3A); (0xFF41, 0xFF5A); (0x10400, 0x1044F); (0x104B0, 0x104D3);
   (0x104D8, 0x104FB); (0x10570, 0x1057A); (0x1057C, 0x1058A); (0x1058C, 0x10592);
   (0x10594, 0x10595); (0x10597, 0x105A1); (0x105A3, 0x105B1); (0x105B3, 0x105B9);
   (0x105BB, 0x105BC); (0x10C80, 0x10CB2); (0x10CC0, 0x10CF2); (0x118A0, 0x118DF);
   (0x16E40, 0x16E7F); (0x1D400, 0x1D454); (0x1D456, 0x1D49C); (0x1D49E, 0x1D49F);
   (0x1D4A2, 0x1D4A2); (0x1D4A5, 0x1D4A6); (0x1D4A9, 0x1D4AC); (0x1D4AE, 0x1D4B9);
   (0x1D4BB, 0x1D4BB); (0x1D4BD, 0x1D4C3); (0x1D4C5, 0x1D505); (0x1D507, 0x1D50A);
   (0x1D50D, 0x1D514); (0x1D516, 0x1D51C); (0x1D51E, 0x1D539); (0x1D53B, 0x1D53E);
   (0x1D540, 0x1D544); (0x1D546, 0x1D546); (0x1D54A, 0x1D550); (0x1D552, 0x1D6A5);
   (0x1D6A8, 0x1D6C0); (0x1D6C2, 0x1D6DA); (0x1D6DC, 0x1D6FA); (0x1D6FC, 0x1D714);
   (0x1D716, 0x1D734); (0x1D736, 0x1D74E); (0x1D750, 0x1D76E); (0x1D770, 0x1D788);
   (0x1D78A, 0x1D7A8); (0x1D7AA, 0x1D7C2); (0x1D7C4, 0x1D7CB); (0x1DF00, 0x1DF09);
   (0x1DF0B, 0x1DF1E); (0x1E900, 0x1E943); (0x1F130, 0x1F149); (0x1F150, 0x1F169);
   (0x1F170, 0x1F189)]%N.

(** *** Text beyond ASCII

    A [str] is kept as its UTF-8 encoding: a character (a code point) below
    128 is the byte of that code, any other is a lead byte followed by one to
    three continuation bytes (128 to 191).  The methods that look at
    characters, not bytes, go through [chars]. *)

Definition is_continuation (c : ascii) : bool :=
  ((128 <=? code c) && (code c <=? 191))%N.

(** Does the text go on with a byte of the character before it? *)
Definition continues (s : string) : bool :=
  match s with
  | String d _ => is_continuation d
  | EmptyString => false
  end.

(** The characters of a text, each as the bytes that encode it: an ASCII
    byte alone, or a byte from 128 up with the continuation bytes after
    it. *)
Fixpoint chars (s : string) : list string :=
  match s with
  | EmptyString => []
  | String c s' =>
      match chars s' with
      | w :: ws =>
          if (128 <=? code c)%N && continues s' then String c w :: ws
          else String c EmptyString :: w :: ws
      | [] => [String c EmptyString]
      end
  end.

(** The text made of the given pieces. *)
Fixpoint text (l : list string) : string :=
  match l with
  | [] => EmptyString
  | w :: ws => w +:+ text ws
  end.

Fixpoint ord_acc (acc : N) (r : string) : N :=
  match r with
  | EmptyString => acc
  | String c r' => ord_acc (64 * acc + (code c - 128))%N r'
  end.

(** [ord(c)]: the code point of a character. *)
Definition ord (w : string) : N :=
  match w with
  | EmptyString => 0
  | String c r =>
      ord_acc (if code c <? 128 then code c
               else if code c <? 224 then code c - 192
               else if code c <? 240 then code c - 224
               else code c - 240)%N r
  end.

(** [chr(n)]: the character of a code point. *)
Definition chr (n : N) : string :=
  let byte (k : N) := ascii_of_N k in
  let cont (k : N) := byte (128 + k mod 64)%N in
  if (n <? 0x80)%N then String (byte n) EmptyString
  else if (n <? 0x800)%N then
    String (byte (192 + n / 64)%N) (String (cont n) EmptyString)
  else if (n <? 0x10000)%N then
    String (byte (224 + n / 4096)%N)
      (String (cont (n / 64)%N) (String (cont n) EmptyString))
  else
    String (byte (240 + n / 262144)%N)
      (String (cont (n / 4096)%N)
         (String (cont (n / 64)%N) (String (cont n) EmptyString))).

Definition in_ranges (n : N) (l : list (N * N)) : bool :=
  existsb (fun r => (fst r <=? n) && (n <=? snd r))%N l.

(** [len(s)]: the number of characters. *)
Definition len (s : string) : Z := Z.of_nat (length (chars s)).

(** [s[:n]] *)
Definition take_text (n : nat) (s : string) : string := text (take n (chars s)).

(** [c.isspace()] *)
Definition isspace (w : string) : bool := existsb (N.eqb (ord w)) whitespace.

Fixpoint drop_while {A} (p : A -> bool) (l : list A) : list A :=
  match l with
  | [] => []
  | x :: l' => if p x then drop_while p l' else l
  end.

(** [s.lstrip()], [s.rstrip()], [s.strip()]: the text without the white space
    that leads or trails it. *)
Definition lstrip (s : string) : string := text (drop_while isspace (chars s)).
Definition rstrip (s : string) : string :=
  text (rev (drop_while isspace (rev (chars s)))).
Definition strip (s : string) : string := rstrip (lstrip s).

(** The value of a decimal digit, of any script. *)
Definition decimal (n : N) : option N :=
  (fun z => n - z)%N <$>
  List.find (fun z => (z <=? n) && (n <=? z + 9))%N decimal_zeros.

(** [c.isdigit()]: a decimal digit, or a digit of another kind. *)
Definition isdigit_point (n : N) : bool :=
  match decimal n with Some _ => true | None => in_ranges n other_digits end.

(** [s.isdigit()] on any text. *)
Definition text_isdigit (s : string) : bool :=
  match s with
  | EmptyString => false
  | _ => forallb (fun w => isdigit_point (ord w)) (chars s)
  end.

(** [int(s)] on a text that passed [isdigit]: its value when every digit is
    decimal; [None] stands for the [ValueError] raised on any other digit. *)
Definition text_int (s : string) : option Z :=
  Z.of_N <$>
  fold_left (fun acc w =>
               a ← acc; d ← decimal (ord w); Some (10 * a + d)%N)
            (chars s) (Some 0%N).

(** [c.lower()] for one character, out of context, when it changes it. *)
Definition lower_point (n : N) : option (list N) :=
  match List.find (fun r => N.eqb (fst r) n) lower_special with
  | Some r => Some (snd r)
  | None =>
      match List.find (fun r =>
                         let '(a, b, step, _) := r in
                         (a <=? n) && (n <=? b) && ((n - a) mod step =? 0))%N
                      lower_runs with
      | Some (a, _, _, t) => Some [(t + (n - a))%N]
      | None => None
      end
  end.

(** Is the first character that counts for case, if any, a cased one? *)
Fixpoint cased_next (l : list string) : bool :=
  match l with
  | [] => false
  | w :: l' =>
      if in_ranges (ord w) case_ignorable then cased_next l'
      else in_ranges (ord w) cased
  end.

(** [s.lower()], character by character; [after_cased] says that the last
    character that counts for case was a cased one, which with what follows
    decides how a capital sigma is written. *)
Fixpoint lower_chars (after_cased : bool) (l : list string) : string :=
  match l with
  | [] => EmptyString
  | w :: l' =>
      let n := ord w in
      (if (n =? 0x03A3)%N
       then chr (if after_cased && negb (cased_next l') then 0x03C2 else 0x03C3)
       else match lower_point n with
            | Some points => text (chr <$> points)
            | None => w
            end) +:+
      lower_chars (if in_ranges n case_ignorable then after_cased
                   else in_ranges n cased) l'
  end.

Definition lower (s : string) : string := lower_chars false (chars s).

(** [s.split(sep)] for a one-character separator: never the empty list. *)
Fixpoint split (sep : ascii) (s : string) : list string :=
  match s with
  | EmptyString => [EmptyString]
  | String c s' =>
      if Ascii.eqb c sep then EmptyString :: split sep s'
      else match split sep s' with
           | [] => [String c EmptyString]
           | w :: ws => String c w :: ws
           end
  end.

(** [sep.join(l)]. *)
Fixpoint join (sep : string) (l : list string) : string :=
  match l with
  | [] => EmptyString
  | [w] => w
  | w :: ws => w +:+ sep +:+ join sep ws
  end.

(** [s.startswith(p)]. *)
Definition startswith (p s : string) : bool := String.prefix p s.

(** [s[i:]] and [s[:i]] where the index is a position in the encoded text:
    one that [find] gave on the same text, or the length of a prefix the
    text starts with. *)
Fixpoint drop_chars (n : nat) (s : string) : string :=
  match n, s with
  | O, _ => s
  | S n', String _ s' => drop_chars n' s'
  | S _, EmptyString => EmptyString
  end.

Fixpoint take_chars (n : nat) (s : string) : string :=
  match n, s with
  | O, _ => EmptyString
  | S n', String c s' => String c (take_chars n' s')
  | S _, EmptyString => EmptyString
  end.

(** [s.find(c)] for an ASCII character: the position of its first
    occurrence in the encoded text. *)
Fixpoint find_char (c : ascii) (s : string) : option nat :=
  match s with
  | EmptyString => None
  | String d s' => if Ascii.eqb d c then Some O else S <$> find_char c s'
  end.

(** [c in s] for a character. *)
Definition contains_char (c : ascii) (s : string) : bool :=
  match find_char c s with Some _ => true | None => false end.

(** [sub in s] for a substring. *)
Fixpoint contains (sub s : string) : bool :=
  String.prefix sub s ||
  match s with
  | EmptyString => false
  | String _ s' => contains sub s'
  end.

(** [s1 < s2] and [s1 > s2] on [str]: lexicographic on code points, which is
    the order of the encoded texts. *)
Definition str_lt (s1 s2 : string) : bool :=
  match String.compare s1 s2 with Lt => true | _ => false end.
Definition str_gt (s1 s2 : string) : bool :=
  match String.compare s1 s2 with Gt => true | _ => false end.

(** *** Decimal numerals: [int(s)] on a string of digits and [str(n)] *)

Definition digit_val (c : ascii) : N := (code c - 48)%N.
Definition digit_char (d : N) : ascii := ascii_of_N (48 + d).

Fixpoint int_acc (acc : N) (s : string) : N :=
  match s with
  | EmptyString => acc
  | String c s' => int_acc (10 * acc + digit_val c)%N s'
  end.

(** [int(s)] on ASCII digits: a group of the version pattern, or an
    identifier of a version that passed [isdigit]. *)
Definition int (s : string) : Z := Z.of_N (int_acc 0 s).

Fixpoint str_of_N_aux (fuel : nat) (n : N) (acc : string) : string :=
  match fuel with
  | O => acc
  | S fuel' =>
      let acc' := String (digit_char (n mod 10)) acc in
      if (n / 10 =? 0)%N then acc' else str_of_N_aux fuel' (n / 10)%N acc'
  end.

Definition str_of_N (n : N) : string :=
  str_of_N_aux (S (N.size_nat n)) n EmptyString.

(** [str(n)] on an [int]. *)
Definition str (n : Z) : string :=
  if n <? 0 then String "-" (str_of_N (Z.to_N (- n))) else str_of_N (Z.to_N n).

End Py.

(** ** Exceptions and results *)

(** The exceptions the two modules raise.  [ParseError] is a subclass of
    [ValueError]; [SecurityError] is not. *)
Inductive exn : Type :=
  | ValueError (msg : string)
  | ParseError (msg : string) (version_string : string)
  | SecurityError (msg : string) (security_check : string) (value : string)
  | RuntimeError (msg : string).

(** What an [except (ValueError, TypeError)] clause catches. *)
Definition is_ValueError (e : exn) : bool :=
  match e with
  | ValueError _ | ParseError _ _ => true
  | SecurityError _ _ _ | RuntimeError _ => false
  end.

Inductive result (A : Type) : Type :=
  | Return (a : A)
  | Raise (e : exn).
Arguments Return {A} a.
Arguments Raise {A} e.

Definition is_Return {A} (r : result A) : bool :=
  match r with Return _ => true | Raise _ => false end.

(** ** parser.py *)

Definition MAX_VERSION_LENGTH : Z := 1000.

Record SemanticVersion : Type := mkSemanticVersion {
  major : Z;
  minor : Z;
  patch : Z;
  prerelease : option string;
  metadata : option string;
  prefix : string
}.

(** *** The version pattern

    [SEMVER_PATTERN] is anchored at both ends and its alternatives are told
    apart by the next character, so matching is a left-to-right scan.  The
    final [$] of a Python pattern also matches just before a line feed that
    ends the text. *)

Definition is_ident_char (c : ascii) : bool :=
  Py.isdigit_char c || Py.islower_char c || Py.isupper_char c ||
  Ascii.eqb c "-".

Definition is_chain_char (c : ascii) : bool :=
  is_ident_char c || Ascii.eqb c ".".

(** The longest prefix of [s] whose characters satisfy [p], and what follows. *)
Fixpoint span (p : ascii -> bool) (s : string) : string * string :=
  match s with
  | EmptyString => (EmptyString, EmptyString)
  | String c s' =>
      if p c then let '(a, b) := span p s' in (String c a, b)
      else (EmptyString, s)
  end.

Definition nonempty (s : string) : bool :=
  match s with EmptyString => false | _ => true end.

(** [0|[1-9]\d*]: a run of digits with no leading zero, and what follows. *)
Definition match_number (s : string) : option (string * string) :=
  let '(d, rest) := span Py.isdigit_char s in
  match d with
  | EmptyString => None
  | String "0" (String _ _) => None
  | _ => Some (d, rest)
  end.

(** [[0-9a-zA-Z-]+(?:\.[0-9a-zA-Z-]+)*]: a chain of non-empty identifiers
    separated by dots, and what follows. *)
Definition match_chain (s : string) : option (string * string) :=
  let '(c, rest) := span is_chain_char s in
  if forallb nonempty (Py.split "." c) then Some (c, rest) else None.

(** A literal character. *)
Definition match_char (c : ascii) (s : string) : option string :=
  match s with
  | String d s' => if Ascii.eqb d c then Some s' else None
  | EmptyString => None
  end.

(** [$]: the end of the text, or a line feed that ends it. *)
Definition at_end (s : string) : bool :=
  match s with
  | EmptyString => true
  | String c EmptyString => Ascii.eqb c "010"
  | _ => false
  end.

(** The named groups of a match. *)
Record groups : Type := mkGroups {
  g_prefix : option string;
  g_major : string;
  g_minor : string;
  g_patch : string;
  g_prerelease : option string;
  g_metadata : option string
}.

(** [(?:\+(?P<metadata>...))?$] *)
Definition match_metadata (s : string) : option (option string) :=
  match s with
  | String "+" s' =>
      match match_chain s' with
      | Some (m, rest) => if at_end rest then Some (Some m) else None
      | None => None
      end
  | _ => if at_end s then Some None else None
  end.

(** [(?:-(?P<prerelease>...))?] and what follows it. *)
Definition match_prerelease (s : string) : option (option string * option string) :=
  match s with
  | String "-" s' =>
      match match_chain s' with
      | Some (p, rest) =>
          match match_metadata rest with
          | Some m => Some (Some p, m)
          | None => None
          end
      | None => None
      end
  | _ =>
      match match_metadata s with
      | Some m => Some (None, m)
      | None => None
      end
  end.

(** [(?P<prefix>[vV])?] *)
Definition match_prefix (s : string) : option string * string :=
  match s with
  | String c s' =>
      if Ascii.eqb c "v" || Ascii.eqb c "V"
      then (Some (String c EmptyString), s') else (None, s)
  | EmptyString => (None, s)
  end.

(** [SEMVER_PATTERN.match(s)] with its [groupdict()]. *)
Definition SEMVER_PATTERN_match (s : string) : option groups :=
  let '(pre, s0) := match_prefix s in
  '(ma, s1) ← match_number s0;
  s2 ← match_char "." s1;
  '(mi, s3) ← match_number s2;
  s4 ← match_char "." s3;
  '(pa, s5) ← match_number s4;
  '(p, m) ← match_prerelease s5;
  Some (mkGroups pre ma mi pa p m).

(** *** [SemanticVersion.parse] *)

Definition security_value (s : string) : string :=
  if Py.len s >? 100 then Py.take_text 100 s +:+ "..." else s.

Definition parse (version_string : string) : result SemanticVersion :=
  if negb (nonempty version_string) then
    Raise (ValueError "Version string cannot be empty or None")
  else if Py.len version_string >? MAX_VERSION_LENGTH then
    Raise (SecurityError
      ("Version string too long (max " +:+ Py.str MAX_VERSION_LENGTH +:+
       " characters): got " +:+ Py.str (Py.len version_string) +:+ " characters")
      "input_length_validation" (security_value version_string))
  else
    let stripped_version := Py.strip version_string in
    if Py.len stripped_version >? MAX_VERSION_LENGTH then
      Raise (SecurityError
        ("Version string too long after stripping (max " +:+
         Py.str MAX_VERSION_LENGTH +:+ " characters): got " +:+
         Py.str (Py.len stripped_version) +:+ " characters")
        "stripped_length_validation" (security_value stripped_version))
    else
      match SEMVER_PATTERN_match stripped_version with
      | None =>
          Raise (ParseError
            ("Invalid semantic version format: " +:+ version_string)
            version_string)
      | Some g =>
          (* [int] cannot fail on the digits the pattern captured *)
          Return {| major := Py.int (g_major g);
                    minor := Py.int (g_minor g);
                    patch := Py.int (g_patch g);
                    prerelease := g_prerelease g;
                    metadata := g_metadata g;
                    prefix := default EmptyString (g_prefix g) |}
      end.

(** [SemanticVersion.is_valid]: [parse] under [except (ValueError, TypeError)]. *)
Definition is_valid (version_string : string) : result bool :=
  if negb (nonempty version_string) then Return false
  else if Py.len version_string >? MAX_VERSION_LENGTH then Return false
  else
    match parse version_string with
    | Return _ => Return true
    | Raise e => if is_ValueError e then Return false else Raise e
    end.

(** *** Formatting *)

(** Truth value of an optional string: neither [None] nor empty. *)
Definition truthy (o : option string) : bool :=
  match o with Some s => nonempty s | None => false end.

Definition to_string (self : SemanticVersion) (include_prefix : bool) : string :=
  let version :=
    Py.str (major self) +:+ "." +:+ Py.str (minor self) +:+ "." +:+
    Py.str (patch self) in
  let version :=
    if truthy (prerelease self)
    then version +:+ "-" +:+ default EmptyString (prerelease self) else version in
  let version :=
    if truthy (metadata self)
    then version +:+ "+" +:+ default EmptyString (metadata self) else version in
  if include_prefix && nonempty (prefix self)
  then prefix self +:+ version else version.

(** [__str__] *)
Definition to_str (self : SemanticVersion) : string := to_string self true.

Definition numeric_version (self : SemanticVersion) : string :=
  to_string self false.

Definition is_prerelease (self : SemanticVersion) : bool :=
  match prerelease self with Some _ => true | None => false end.

Definition has_metadata (self : SemanticVersion) : bool :=
  match metadata self with Some _ => true | None => false end.

Definition core_version (self : SemanticVersion) : Z * Z * Z :=
  (major self, minor self, patch self).

(** [<] on tuples of three integers. *)
Definition tuple_lt (a b : Z * Z * Z) : bool :=
  let '(a1, a2, a3) := a in
  let '(b1, b2, b3) := b in
  (a1 <? b1) || ((a1 =? b1) && ((a2 <? b2) || ((a2 =? b2) && (a3 <? b3)))).

(** *** Precedence *)

(** The body of the loop of [_compare_prerelease_identifiers] from index [i],
    with [n] indices left. *)
Fixpoint compare_identifiers_from (n i : nat) (ids1 ids2 : list string) : Z :=
  match n with
  | O => 0
  | S n' =>
      match ids1 !! i, ids2 !! i with
      | None, _ => -1
      | Some _, None => 1
      | Some id1, Some id2 =>
          let id1_numeric := Py.isdigit id1 in
          let id2_numeric := Py.isdigit id2 in
          if id1_numeric && id2_numeric then
            let result := Py.int id1 - Py.int id2 in
            if negb (result =? 0) then (if result <? 0 then -1 else 1)
            else compare_identifiers_from n' (S i) ids1 ids2
          else if id1_numeric && negb id2_numeric then -1
          else if negb id1_numeric && id2_numeric then 1
          else if Py.str_lt id1 id2 then -1
          else if Py.str_gt id1 id2 then 1
          else compare_identifiers_from n' (S i) ids1 ids2
      end
  end.

Definition _compare_prerelease_identifiers (pre1 pre2 : option string) : Z :=
  match pre1, pre2 with
  | None, None => 0
  | None, Some _ => -1
  | Some _, None => 1
  | Some pre1, Some pre2 =>
      let ids1 := Py.split "." pre1 in
      let ids2 := Py.split "." pre2 in
      compare_identifiers_from (Nat.max (length ids1) (length ids2)) 0 ids1 ids2
  end.

Definition compare_precedence (self other : SemanticVersion) : Z :=
  let self_core := core_version self in
  let other_core := core_version other in
  if tuple_lt self_core other_core then -1
  else if tuple_lt other_core self_core then 1
  else if negb (is_prerelease self) && negb (is_prerelease other) then 0
  else if negb (is_prerelease self) && is_prerelease other then 1
  else if is_prerelease self && negb (is_prerelease other) then -1
  else _compare_prerelease_identifiers (prerelease self) (prerelease other).

(** [__eq__], [__lt__], [__le__], [__gt__], [__ge__] *)
Definition version_eq (a b : SemanticVersion) : bool := compare_precedence a b =? 0.
Definition version_lt (a b : SemanticVersion) : bool := compare_precedence a b <? 0.
Definition version_le (a b : SemanticVersion) : bool := compare_precedence a b <=? 0.
Definition version_gt (a b : SemanticVersion) : bool := compare_precedence a b >? 0.
Definition version_ge (a b : SemanticVersion) : bool := compare_precedence a b >=? 0.

(** *** Numeric components of the pre-release chain *)

Definition get_prerelease_identifiers (self : SemanticVersion) : list string :=
  match prerelease self with
  | Some p => if nonempty p then Py.split "." p else []
  | None => []
  end.

(** [re.search(r"(\d+)$", s)] on an identifier of a version, which is ASCII
    text: the text before the match, the digits matched and the text after
    them (empty, or the line feed that ends [s]). *)
Definition rev_span_digits (s : string) : string * string :=
  let '(d, h) := span Py.isdigit_char (String.rev s) in
  (String.rev h, String.rev d).

Definition search_trailing_digits (s : string) : option (string * string * string) :=
  let '(h, d) := rev_span_digits s in
  if nonempty d then Some (h, d, EmptyString)
  else
    match String.rev s with
    | String "010" r =>
        let '(h', d') := rev_span_digits (String.rev r) in
        if nonempty d' then Some (h', d', String "010" EmptyString) else None
    | _ => None
    end.

(** [re.sub(r"\d+$", repl, s)] *)
Definition sub_trailing_digits (repl s : string) : string :=
  match search_trailing_digits s with
  | Some (h, _, t) => h +:+ repl +:+ t
  | None => s
  end.

Fixpoint numeric_components_from (i : nat) (identifiers : list string)
    : list (nat * string * Z) :=
  match identifiers with
  | [] => []
  | identifier :: rest =>
      let tl := numeric_components_from (S i) rest in
      if Py.isdigit identifier then (i, identifier, Py.int identifier) :: tl
      else
        match search_trailing_digits identifier with
        | Some (_, d, _) => (i, identifier, Py.int d) :: tl
        | None => tl
        end
  end.

Definition find_numeric_prerelease_components (self : SemanticVersion)
    : list (nat * string * Z) :=
  numeric_components_from 0 (get_prerelease_identifiers self).

(** ** incrementer.py *)

Inductive IncrementType : Type :=
  | MAJOR
  | MINOR
  | PATCH
  | PRERELEASE
  | DEV.

(** The members in definition order, and the [value] of each. *)
Definition IncrementType_members : list IncrementType :=
  [MAJOR; MINOR; PATCH; PRERELEASE; DEV].

Definition IncrementType_value (t : IncrementType) : string :=
  match t with
  | MAJOR => "major"
  | MINOR => "minor"
  | PATCH => "patch"
  | PRERELEASE => "prerelease"
  | DEV => "dev"
  end.

Definition MAX_PATCH_ATTEMPTS : Z := 100.
Definition MAX_PRERELEASE_ATTEMPTS : Z := 1000.

(** The instance state of [VersionIncrementer]. *)
Record VersionIncrementer : Type := mkVersionIncrementer {
  existing_tags : gset string;
  preserve_metadata : bool;
  _normalized_tags_cache : option (gset string)
}.

(** [__init__]: [existing_tags or set()], and an empty cache. *)
Definition __init__ (tags : option (gset string)) (preserve : bool)
    : VersionIncrementer :=
  {| existing_tags := default ∅ tags;
     preserve_metadata := preserve;
     _normalized_tags_cache := None |}.

(** A method of the instance: it reads and updates the instance state, and
    returns or raises. *)
Definition Eng (A : Type) : Type :=
  VersionIncrementer -> result A * VersionIncrementer.

Definition ret {A} (a : A) : Eng A := fun self => (Return a, self).

Definition bind {A B} (m : Eng A) (k : A -> Eng B) : Eng B := fun self =>
  match m self with
  | (Return a, self') => k a self'
  | (Raise e, self') => (Raise e, self')
  end.

Notation "x <- m ;; k" := (bind m (fun x => k))
  (at level 100, m at next level, right associativity).

Definition raise {A} (e : exn) : Eng A := fun self => (Raise e, self).

(** [try: m except Exception: h] *)
Definition try_except {A} (m : Eng A) (h : exn -> Eng A) : Eng A := fun self =>
  match m self with
  | (Return a, self') => (Return a, self')
  | (Raise e, self') => h e self'
  end.

(** Reading the attributes of [self]. *)
Definition self_existing_tags : Eng (gset string) :=
  fun self => (Return (existing_tags self), self).
Definition self_preserve_metadata : Eng bool :=
  fun self => (Return (preserve_metadata self), self).

(** [range(a, b)] *)
Definition range (a b : Z) : list Z := seqZ a (b - a).

(** A [for] loop whose body may return a value: the first value returned, or
    [None] when the loop runs to its end. *)
Fixpoint for_first {X A} (xs : list X) (body : X -> Eng (option A))
    : Eng (option A) :=
  match xs with
  | [] => ret None
  | x :: xs' =>
      r <- body x ;;
      match r with
      | Some a => ret (Some a)
      | None => for_first xs' body
      end
  end.

(** *** The availability oracle *)

(** [s.find(c, start)] and [s[a:b]], [s[a:]]. *)
Definition find_from (c : ascii) (start : nat) (s : string) : option nat :=
  (fun i => (start + i)%nat) <$> Py.find_char c (Py.drop_chars start s).
Definition slice (a b : nat) (s : string) : string :=
  Py.take_chars (b - a) (Py.drop_chars a s).

Definition _normalize_version_string (version_str : string) : string :=
  match version_str with
  | EmptyString => EmptyString
  | String c _ =>
      let start_idx := if Ascii.eqb c "v" || Ascii.eqb c "V" then 1%nat else 0%nat in
      match find_from "+" start_idx version_str with
      | Some plus_idx => Py.lower (slice start_idx plus_idx version_str)
      | None => Py.lower (Py.drop_chars start_idx version_str)
      end
  end.

Definition _version_exists (version : SemanticVersion) : Eng bool := fun self =>
  if decide (existing_tags self = ∅) then (Return false, self)
  else
    let cache :=
      match _normalized_tags_cache self with
      | None => set_map _normalize_version_string (existing_tags self)
      | Some cache => cache
      end in
    let self' :=
      {| existing_tags := existing_tags self;
         preserve_metadata := preserve_metadata self;
         _normalized_tags_cache := Some cache |} in
    let normalized_version :=
      _normalize_version_string (to_string version false) in
    (Return (bool_decide (normalized_version ∈ cache)), self').

Definition update_existing_tags (new_tags : gset string) : Eng unit := fun self =>
  (Return tt,
   {| existing_tags := new_tags;
      preserve_metadata := preserve_metadata self;
      _normalized_tags_cache := None |}).

(** *** Searching for an unused pre-release *)

(** [max_attempts or self.MAX_PRERELEASE_ATTEMPTS] *)
Definition or_default (max_attempts : option Z) : Z :=
  match max_attempts with
  | Some n => if n =? 0 then MAX_PRERELEASE_ATTEMPTS else n
  | None => MAX_PRERELEASE_ATTEMPTS
  end.

Definition _find_available_prerelease_version
    (major minor patch : Z) (prerelease_type : string) (start_counter : Z)
    (max_attempts : option Z) (metadata : option string) (prefix : string)
    : Eng (option SemanticVersion) :=
  let max_attempts := or_default max_attempts in
  for_first (range start_counter (start_counter + max_attempts)) (fun counter =>
    let candidate :=
      {| major := major; minor := minor; patch := patch;
         prerelease := Some (prerelease_type +:+ "." +:+ Py.str counter);
         metadata := metadata; prefix := prefix |} in
    used <- _version_exists candidate ;;
    ret (if used then None else Some candidate)).

(** [numeric_components[-1]] *)
Definition last_component (l : list (nat * string * Z)) : option (nat * string * Z) :=
  last l.

(** The identifiers with the one at [index] carrying [counter]. *)
Definition with_counter (identifiers : list string) (index : nat)
    (original_id : string) (counter : Z) : list string :=
  if Py.isdigit original_id
  then <[index := Py.str counter]> identifiers
  else <[index := sub_trailing_digits (Py.str counter) original_id]> identifiers.

(** The [while True] loop of [_find_next_available_version]: it leaves by
    [return], or by [raise] once [counter] exceeds the bound, so it runs at
    most [MAX_PRERELEASE_ATTEMPTS - counter] more times after this one;
    [fuel] is that number. *)
Fixpoint next_available_loop (fuel : nat) (base_version : SemanticVersion)
    (identifiers : list string) (index : nat) (original_id : string)
    (counter : Z) : Eng SemanticVersion :=
  let new_identifiers := with_counter identifiers index original_id counter in
  let candidate :=
    {| major := major base_version; minor := minor base_version;
       patch := patch base_version;
       prerelease := Some (Py.join "." new_identifiers);
       metadata := metadata base_version; prefix := prefix base_version |} in
  used <- _version_exists candidate ;;
  if negb used then ret candidate
  else
    let counter := counter + 1 in
    if counter >? MAX_PRERELEASE_ATTEMPTS
    then raise (RuntimeError "Could not find available version")
    else
      match fuel with
      | S fuel' =>
          next_available_loop fuel' base_version identifiers index original_id counter
      | O => raise (RuntimeError "Could not find available version")
      end.

Definition _find_next_available_version (base_version : SemanticVersion)
    : Eng SemanticVersion :=
  if negb (is_prerelease base_version)
  then raise (ValueError "Base version must be a prerelease")
  else
    let numeric_components := find_numeric_prerelease_components base_version in
    match last_component numeric_components with
    | None =>
        let new_prerelease := default "None" (prerelease base_version) +:+ ".1" in
        preserve <- self_preserve_metadata ;;
        ret {| major := major base_version; minor := minor base_version;
                patch := patch base_version;
                prerelease := Some new_prerelease;
                metadata := if preserve then metadata base_version else None;
                prefix := prefix base_version |}
    | Some (index, original_id, numeric_value) =>
        let identifiers := get_prerelease_identifiers base_version in
        let counter := numeric_value + 1 in
        next_available_loop (Z.to_nat (MAX_PRERELEASE_ATTEMPTS - counter))
          base_version identifiers index original_id counter
    end.

Definition _find_next_available_prerelease_for_conflict
    (base_version : SemanticVersion) (prerelease_type : string)
    : Eng SemanticVersion :=
  available_version <-
    _find_available_prerelease_version
      (major base_version) (minor base_version) (patch base_version)
      prerelease_type 1 None (metadata base_version) (prefix base_version) ;;
  match available_version with
  | Some v => ret v
  | None =>
      let fallback :=
        {| major := major base_version; minor := minor base_version;
           patch := patch base_version + 1;
           prerelease := Some (prerelease_type +:+ ".1");
           metadata := metadata base_version; prefix := prefix base_version |} in
      used <- _version_exists fallback ;;
      if negb used then ret fallback
      else _find_next_available_version fallback
  end.

Definition _find_next_available_prerelease
    (major minor patch : Z) (prerelease_base : string)
    (metadata : option string) (prefix : string) : Eng SemanticVersion :=
  available_version <-
    _find_available_prerelease_version major minor patch prerelease_base
      1 None metadata prefix ;;
  match available_version with
  | Some v => ret v
  | None => raise (RuntimeError "Could not find available prerelease version")
  end.

(** *** Major and minor *)

(** The loop [for patch in range(1, self.MAX_PATCH_ATTEMPTS)] shared by
    [_increment_major] and [_increment_minor]. *)
Definition patch_scan (candidate version : SemanticVersion)
    : Eng (option SemanticVersion) :=
  for_first (range 1 MAX_PATCH_ATTEMPTS) (fun patch =>
    preserve <- self_preserve_metadata ;;
    let next_candidate :=
      {| major := major candidate; minor := minor candidate; patch := patch;
         prerelease := None;
         metadata := if preserve then metadata version else None;
         prefix := prefix version |} in
    used <- _version_exists next_candidate ;;
    ret (if negb used then Some next_candidate else None)).

Definition _increment_major (version : SemanticVersion) : Eng SemanticVersion :=
  preserve <- self_preserve_metadata ;;
  let candidate :=
    {| major := major version + 1; minor := 0; patch := 0;
       prerelease := None;
       metadata := if preserve then metadata version else None;
       prefix := prefix version |} in
  used <- _version_exists candidate ;;
  if used then
    found <- patch_scan candidate version ;;
    match found with
    | Some next_candidate => ret next_candidate
    | None => _find_next_available_prerelease_for_conflict candidate "dev"
    end
  else ret candidate.

Definition _increment_minor (version : SemanticVersion) : Eng SemanticVersion :=
  preserve <- self_preserve_metadata ;;
  let candidate :=
    {| major := major version; minor := minor version + 1; patch := 0;
       prerelease := None;
       metadata := if preserve then metadata version else None;
       prefix := prefix version |} in
  used <- _version_exists candidate ;;
  if used then
    found <- patch_scan candidate version ;;
    match found with
    | Some next_candidate => ret next_candidate
    | None => _find_next_available_prerelease_for_conflict candidate "dev"
    end
  else ret candidate.

(** *** Patch *)

Definition _create_patch_candidate (version : SemanticVersion)
    : Eng SemanticVersion :=
  preserve <- self_preserve_metadata ;;
  ret {| major := major version; minor := minor version;
         patch := patch version + 1;
         prerelease := None;
         metadata := if preserve then metadata version else None;
         prefix := prefix version |}.

(** [s.split(sep)[0]] *)
Definition first_field (sep : ascii) (s : string) : string :=
  match Py.split sep s with
  | w :: _ => w
  | [] => EmptyString
  end.

(** The patch number a tag contributes to [_get_existing_patches], if any.
    A tag is any text, so [isdigit] and [int] are the methods on any text;
    the [ValueError] of [int] is caught and the tag skipped. *)
Definition tag_patch (prefix_pattern : string) (tag : string) : option Z :=
  let normalized := _normalize_version_string tag in
  if Py.startswith prefix_pattern normalized then
    let remainder := Py.drop_chars (String.length prefix_pattern) normalized in
    let patch_str := first_field "+" (first_field "-" remainder) in
    if Py.text_isdigit patch_str then Py.text_int patch_str else None
  else None.

Definition _get_existing_patches (major minor : Z) : Eng (gset Z) :=
  let prefix_pattern := Py.str major +:+ "." +:+ Py.str minor +:+ "." in
  tags <- self_existing_tags ;;
  ret (set_omap (tag_patch prefix_pattern) tags).

(** The pre-release number a tag contributes to
    [_get_existing_prerelease_numbers], if any. *)
Definition tag_prerelease_number (version_prefix : string) (tag : string)
    : option Z :=
  let normalized := _normalize_version_string tag in
  if Py.startswith version_prefix normalized then
    let remainder := Py.drop_chars (String.length version_prefix) normalized in
    let num_str := first_field "+" (first_field "." remainder) in
    if Py.text_isdigit num_str then Py.text_int num_str else None
  else None.

Definition _get_existing_prerelease_numbers
    (major minor patch : Z) (prerelease_type : string) : Eng (gset Z) :=
  let version_prefix :=
    Py.str major +:+ "." +:+ Py.str minor +:+ "." +:+ Py.str patch +:+
    "-" +:+ prerelease_type +:+ "." in
  tags <- self_existing_tags ;;
  ret (set_omap (tag_prerelease_number version_prefix) tags).

(** The [while patch <= max_patch] loop runs over
    [patch + 1 .. patch + MAX_PATCH_ATTEMPTS]. *)
Definition _find_next_available_patch (version : SemanticVersion)
    : Eng (option SemanticVersion) :=
  existing_patches <- _get_existing_patches (major version) (minor version) ;;
  let patch0 := patch version + 1 in
  let max_patch := patch version + MAX_PATCH_ATTEMPTS in
  for_first (range patch0 (max_patch + 1)) (fun patch =>
    if negb (bool_decide (patch ∈ existing_patches)) then
      preserve <- self_preserve_metadata ;;
      let candidate :=
        {| major := major version; minor := minor version; patch := patch;
           prerelease := None;
           metadata := if preserve then metadata version else None;
           prefix := prefix version |} in
      used <- _version_exists candidate ;;
      ret (if negb used then Some candidate else None)
    else ret None).

Definition _create_conflict_prerelease (version : SemanticVersion)
    (prerelease_type : string) : Eng SemanticVersion :=
  preserve <- self_preserve_metadata ;;
  let base_version :=
    {| major := major version; minor := minor version;
       patch := patch version + 1;
       prerelease := None;
       metadata := if preserve then metadata version else None;
       prefix := prefix version |} in
  let prerelease_candidate :=
    {| major := major base_version; minor := minor base_version;
       patch := patch base_version;
       prerelease := Some (prerelease_type +:+ ".1");
       metadata := if preserve then metadata base_version else None;
       prefix := prefix base_version |} in
  used <- _version_exists prerelease_candidate ;;
  if negb used then ret prerelease_candidate
  else _find_next_available_prerelease_for_conflict base_version prerelease_type.

Definition _resolve_patch_conflict (version : SemanticVersion)
    (prerelease_type : string) : Eng SemanticVersion :=
  next_patch <- _find_next_available_patch version ;;
  match next_patch with
  | Some v => ret v
  | None => _create_conflict_prerelease version prerelease_type
  end.

Definition _increment_patch (version : SemanticVersion)
    (prerelease_type : string) : Eng SemanticVersion :=
  candidate <- _create_patch_candidate version ;;
  used <- _version_exists candidate ;;
  if negb used then ret candidate
  else _resolve_patch_conflict version prerelease_type.

(** *** Pre-release *)

(** A string that may be [None], as an f-string prints it. *)
Definition fmt (o : option string) : string := default "None" o.

(** [prerelease_type or "dev"] *)
Definition or_dev (prerelease_type : option string) : string :=
  match prerelease_type with
  | Some t => if nonempty t then t else "dev"
  | None => "dev"
  end.

Definition _create_first_prerelease (version : SemanticVersion)
    (prerelease_type : option string) : Eng SemanticVersion :=
  let prerelease_id := or_dev prerelease_type in
  let patch0 := patch version + 1 in
  found <-
    for_first (range patch0 (patch0 + 5)) (fun p =>
      _find_available_prerelease_version (major version) (minor version) p
        prerelease_id 1
        (Some (Z.min MAX_PRERELEASE_ATTEMPTS MAX_PATCH_ATTEMPTS))
        (metadata version) (prefix version)) ;;
  match found with
  | Some available_version => ret available_version
  | None =>
      preserve <- self_preserve_metadata ;;
      ret {| major := major version; minor := minor version;
             patch := patch version;
             prerelease := Some (fmt prerelease_type +:+ ".1");
             metadata := if preserve then metadata version else None;
             prefix := prefix version |}
  end.

Definition _increment_existing_prerelease (version : SemanticVersion)
    : Eng SemanticVersion :=
  let numeric_components := find_numeric_prerelease_components version in
  let new_prerelease :=
    match last_component numeric_components with
    | None => fmt (prerelease version) +:+ ".1"
    | Some (index, original_id, numeric_value) =>
        let identifiers := get_prerelease_identifiers version in
        let new_id :=
          if Py.isdigit original_id then Py.str (numeric_value + 1)
          else sub_trailing_digits (Py.str (numeric_value + 1)) original_id in
        let new_identifiers := <[index := new_id]> identifiers in
        Py.join "." new_identifiers
    end in
  preserve <- self_preserve_metadata ;;
  let candidate :=
    {| major := major version; minor := minor version; patch := patch version;
       prerelease := Some new_prerelease;
       metadata := if preserve then metadata version else None;
       prefix := prefix version |} in
  used <- _version_exists candidate ;;
  if used then
    let prerelease_base :=
      if Py.contains_char "." new_prerelease
      then first_field "." new_prerelease else new_prerelease in
    let patch := patch version + 1 in
    available_version <-
      _find_available_prerelease_version (major version) (minor version) patch
        prerelease_base 1 None (metadata version) (prefix version) ;;
    match available_version with
    | Some v => ret v
    | None => raise (RuntimeError "Could not find available prerelease version")
    end
  else ret candidate.

Definition _increment_prerelease (version : SemanticVersion)
    (prerelease_type : option string) : Eng SemanticVersion :=
  if negb (is_prerelease version) then
    _create_first_prerelease version prerelease_type
  else
    let switch :=
      if truthy prerelease_type then
        let identifiers := get_prerelease_identifiers version in
        let current_type :=
          match identifiers with
          | id0 :: _ => Py.lower id0
          | [] => EmptyString
          end in
        nonempty current_type &&
        negb (String.eqb current_type (Py.lower (fmt prerelease_type)))
      else false in
    if switch then
      preserve <- self_preserve_metadata ;;
      ret {| major := major version; minor := minor version;
             patch := patch version;
             prerelease := Some (fmt prerelease_type +:+ ".1");
             metadata := if preserve then metadata version else None;
             prefix := prefix version |}
    else _increment_existing_prerelease version.

(** [increment]; the closing [else: raise ValueError] of the source is out of
    reach of the five members. *)
Definition increment (version : SemanticVersion) (increment_type : IncrementType)
    (prerelease_type : option string) : Eng SemanticVersion :=
  match increment_type with
  | MAJOR => _increment_major version
  | MINOR => _increment_minor version
  | PATCH => _increment_patch version (or_dev prerelease_type)
  | PRERELEASE | DEV => _increment_prerelease version prerelease_type
  end.

(** *** The kind of increment named by a string *)

Definition aliases : gmap string IncrementType :=
  <["dev" := DEV]> (<["pre" := PRERELEASE]> (<["prerel" := PRERELEASE]> ∅)).

Definition determine_increment_type (increment_str : string)
    : result IncrementType :=
  let increment_str := Py.strip (Py.lower increment_str) in
  match List.find (fun t => String.eqb (IncrementType_value t) increment_str)
                  IncrementType_members with
  | Some increment_type => Return increment_type
  | None =>
      match aliases !! increment_str with
      | Some increment_type => Return increment_type
      | None =>
          Raise (ValueError
            ("Invalid increment type: " +:+ increment_str +:+
             ". Valid types: ['major', 'minor', 'patch', 'prerelease', 'dev']"))
      end
  end.

(** *** Suggestions *)

(** [suggestion not in suggestions], with the [__eq__] of the class. *)
Definition not_in (suggestion : SemanticVersion)
    (suggestions : list SemanticVersion) : bool :=
  negb (existsb (fun s => version_eq s suggestion) suggestions).

Fixpoint suggest_strategies (types : list string)
    (current_version : SemanticVersion) (suggestions : list SemanticVersion)
    : Eng (list SemanticVersion) :=
  match types with
  | [] => ret suggestions
  | prerelease_type :: types' =>
      suggestions' <-
        try_except
          (suggestion <- _create_first_prerelease current_version
                           (Some prerelease_type) ;;
           ret (if not_in suggestion suggestions
                then suggestions ++ [suggestion] else suggestions))
          (fun _ => ret suggestions) ;;
      suggest_strategies types' current_version suggestions'
  end.

Definition IncrementType_eqb (a b : IncrementType) : bool :=
  match a, b with
  | MAJOR, MAJOR | MINOR, MINOR | PATCH, PATCH
  | PRERELEASE, PRERELEASE | DEV, DEV => true
  | _, _ => false
  end.

Definition suggest_next_version (current_version : SemanticVersion)
    (increment_type : IncrementType) : Eng (list SemanticVersion) :=
  if IncrementType_eqb increment_type PRERELEASE then
    let suggestions :=
      if is_prerelease current_version then
        let identifiers := get_prerelease_identifiers current_version in
        let current_type :=
          match identifiers with
          | id0 :: _ => Py.lower id0
          | [] => "dev"
          end in
        let next_type :=
          if Py.contains "alpha" current_type || Py.contains "dev" current_type
          then Some "beta"
          else if Py.contains "beta" current_type then Some "rc"
          else None in
        match next_type with
        | Some next_type =>
            [ {| major := major current_version;
                 minor := minor current_version;
                 patch := patch current_version;
                 prerelease := Some (next_type +:+ ".1");
                 metadata := metadata current_version;
                 prefix := prefix current_version |} ]
        | None => []
        end
      else [] in
    suggest_strategies ["dev"; "alpha"; "beta"; "rc"] current_version suggestions
  else
    v <- increment current_version increment_type None ;;
    ret [v].

(** ** Notions used in the statements below *)

(** A numeral as the version pattern admits it and as [str] prints a
    non-negative [int]: digits, with no leading zero unless it is [0]. *)
Definition canonical (s : string) : bool :=
  Py.isdigit s &&
  match s with
  | String "0" (String _ _) => false
  | _ => true
  end.

(** The text of a match, rebuilt from its groups. *)
Definition groups_text (g : groups) : string :=
  default EmptyString (g_prefix g) +:+
  g_major g +:+ "." +:+ g_minor g +:+ "." +:+ g_patch g +:+
  match g_prerelease g with Some x => "-" +:+ x | None => EmptyString end +:+
  match g_metadata g with Some x => "+" +:+ x | None => EmptyString end.

(** A chain of identifiers as the pattern admits it: not empty, made of
    letters, digits, hyphens and dots, with no empty identifier. *)
Definition chain_ok (x : string) : bool :=
  nonempty x && Py.all_chars is_chain_char x &&
  forallb nonempty (Py.split "." x).

(** What the pattern guarantees of its groups. *)
Definition groups_ok (g : groups) : Prop :=
  (g_prefix g = None \/ g_prefix g = Some "v" \/ g_prefix g = Some "V") /\
  canonical (g_major g) = true /\
  canonical (g_minor g) = true /\
  canonical (g_patch g) = true /\
  match g_prerelease g with Some x => chain_ok x = true | None => True end /\
  match g_metadata g with Some x => chain_ok x = true | None => True end.

(** The record [parse] builds from the groups of a match. *)
Definition version_of_groups (g : groups) : SemanticVersion :=
  {| major := Py.int (g_major g);
     minor := Py.int (g_minor g);
     patch := Py.int (g_patch g);
     prerelease := g_prerelease g;
     metadata := g_metadata g;
     prefix := default EmptyString (g_prefix g) |}.

(** The optional part [sep + x] of a formatted version: present when [x] is
    neither [None] nor empty. *)
Definition opt_part (sep : string) (x : option string) : string :=
  if truthy x then sep +:+ default EmptyString x else EmptyString.

(** [c * n] *)
Fixpoint repeat_char (n : nat) (c : ascii) : string :=
  match n with
  | O => EmptyString
  | S n' => String c (repeat_char n' c)
  end.


(** *** Precedence, identifier by identifier *)

(** The comparison the loop of [_compare_prerelease_identifiers] makes of one
    pair of identifiers: [0] when it moves on to the next pair. *)
Definition compare_id (id1 id2 : string) : Z :=
  let id1_numeric := Py.isdigit id1 in
  let id2_numeric := Py.isdigit id2 in
  if id1_numeric && id2_numeric then
    let result := Py.int id1 - Py.int id2 in
    if negb (result =? 0) then (if result <? 0 then -1 else 1) else 0
  else if id1_numeric && negb id2_numeric then -1
  else if negb id1_numeric && id2_numeric then 1
  else if Py.str_lt id1 id2 then -1
  else if Py.str_gt id1 id2 then 1
  else 0.

(** The comparison of two chains of identifiers, pair by pair. *)
Fixpoint compare_ids (ids1 ids2 : list string) : Z :=
  match ids1, ids2 with
  | [], [] => 0
  | [], _ :: _ => -1
  | _ :: _, [] => 1
  | id1 :: ids1', id2 :: ids2' =>
      let r := compare_id id1 id2 in
      if r =? 0 then compare_ids ids1' ids2' else r
  end.

(** The laws of a three-way comparison that orders its domain: it answers
    [-1], [0] or [1], a value is level with itself, swapping the arguments
    negates the answer, [-1] chains, and values level with each other
    compare alike with any third. *)
Record order_laws {A : Type} (cmp : A -> A -> Z) : Prop := mk_order_laws {
  cmp_range : forall a b, cmp a b = -1 \/ cmp a b = 0 \/ cmp a b = 1;
  cmp_refl : forall a, cmp a a = 0;
  cmp_antisym : forall a b, cmp b a = - cmp a b;
  cmp_trans : forall a b c, cmp a b = -1 -> cmp b c = -1 -> cmp a c = -1;
  cmp_level : forall a b c, cmp a b = 0 -> cmp a c = cmp b c
}.


(** *** The engine, seen from the existing tags

    The methods of the engine touch the instance only to read its two
    settings and to fill the cache of normalized tags.  What a method
    returns is therefore a function of the existing tags [T] and of the
    metadata flag [pm]; the definitions below give that function for each
    method, and [runs] relates a method to it. *)

(** The normalized set the cache holds once built. *)
Definition normalized_tags (T : gset string) : gset string :=
  set_map _normalize_version_string T.

(** The answer of the oracle: is [version] among the existing tags, once both
    are normalized? *)
Definition used (T : gset string) (version : SemanticVersion) : bool :=
  if decide (T = ∅) then false
  else bool_decide
         (_normalize_version_string (to_string version false) ∈ normalized_tags T).

(** The cache is sound: it is never read (there are no existing tags), or it
    is empty, or it holds the normalized existing tags. *)
Definition cache_ok (self : VersionIncrementer) : Prop :=
  existing_tags self = ∅ \/
  _normalized_tags_cache self = None \/
  _normalized_tags_cache self = Some (normalized_tags (existing_tags self)).

(** [m] returns [r] from any instance with tags [T] and flag [pm] whose cache
    is sound, and leaves such an instance. *)
Definition runs {A} (T : gset string) (pm : bool) (m : Eng A) (r : result A) : Prop :=
  forall self,
    cache_ok self -> existing_tags self = T -> preserve_metadata self = pm ->
    exists self',
      m self = (r, self') /\
      cache_ok self' /\ existing_tags self' = T /\ preserve_metadata self' = pm.

(** The first value a loop body returns over [xs]. *)
Fixpoint first_some {X A} (f : X -> option A) (xs : list X) : option A :=
  match xs with
  | [] => None
  | x :: xs' =>
      match f x with
      | Some a => Some a
      | None => first_some f xs'
      end
  end.

(** A release [major.minor.patch] as the engine builds it from [version]. *)
Definition release (pm : bool) (version : SemanticVersion) (ma mi pa : Z)
    : SemanticVersion :=
  {| major := ma; minor := mi; patch := pa; prerelease := None;
     metadata := if pm then metadata version else None;
     prefix := prefix version |}.

(** A pre-release [major.minor.patch-label.counter]. *)
Definition prerelease_candidate (ma mi pa : Z) (label : string) (counter : Z)
    (meta : option string) (pre : string) : SemanticVersion :=
  {| major := ma; minor := mi; patch := pa;
     prerelease := Some (label +:+ "." +:+ Py.str counter);
     metadata := meta; prefix := pre |}.

Definition find_available_result (T : gset string) (ma mi pa : Z) (label : string)
    (start_counter : Z) (max_attempts : option Z) (meta : option string)
    (pre : string) : option SemanticVersion :=
  first_some
    (fun counter =>
       let candidate := prerelease_candidate ma mi pa label counter meta pre in
       if used T candidate then None else Some candidate)
    (range start_counter (start_counter + or_default max_attempts)).

Fixpoint next_available_loop_result (T : gset string) (fuel : nat)
    (base_version : SemanticVersion) (identifiers : list string) (index : nat)
    (original_id : string) (counter : Z) : result SemanticVersion :=
  let candidate :=
    {| major := major base_version; minor := minor base_version;
       patch := patch base_version;
       prerelease :=
         Some (Py.join "." (with_counter identifiers index original_id counter));
       metadata := metadata base_version; prefix := prefix base_version |} in
  if negb (used T candidate) then Return candidate
  else if counter + 1 >? MAX_PRERELEASE_ATTEMPTS
  then Raise (RuntimeError "Could not find available version")
  else
    match fuel with
    | S fuel' =>
        next_available_loop_result T fuel' base_version identifiers index
          original_id (counter + 1)
    | O => Raise (RuntimeError "Could not find available version")
    end.

Definition find_next_available_version_result (T : gset string) (pm : bool)
    (base_version : SemanticVersion) : result SemanticVersion :=
  if negb (is_prerelease base_version)
  then Raise (ValueError "Base version must be a prerelease")
  else
    match last_component (find_numeric_prerelease_components base_version) with
    | None =>
        Return {| major := major base_version; minor := minor base_version;
                  patch := patch base_version;
                  prerelease := Some (fmt (prerelease base_version) +:+ ".1");
                  metadata := if pm then metadata base_version else None;
                  prefix := prefix base_version |}
    | Some (index, original_id, numeric_value) =>
        next_available_loop_result T
          (Z.to_nat (MAX_PRERELEASE_ATTEMPTS - (numeric_value + 1)))
          base_version (get_prerelease_identifiers base_version) index
          original_id (numeric_value + 1)
    end.

Definition conflict_result (T : gset string) (pm : bool)
    (base_version : SemanticVersion) (label : string) : result SemanticVersion :=
  match find_available_result T (major base_version) (minor base_version)
          (patch base_version) label 1 None (metadata base_version)
          (prefix base_version) with
  | Some v => Return v
  | None =>
      let fallback :=
        {| major := major base_version; minor := minor base_version;
           patch := patch base_version + 1;
           prerelease := Some (label +:+ ".1");
           metadata := metadata base_version; prefix := prefix base_version |} in
      if negb (used T fallback) then Return fallback
      else find_next_available_version_result T pm fallback
  end.

Definition patch_scan_result (T : gset string) (pm : bool)
    (candidate version : SemanticVersion) : option SemanticVersion :=
  first_some
    (fun p =>
       let next_candidate := release pm version (major candidate) (minor candidate) p in
       if negb (used T next_candidate) then Some next_candidate else None)
    (range 1 MAX_PATCH_ATTEMPTS).

(** Major and minor share everything but the default candidate. *)
Definition bump_result (T : gset string) (pm : bool) (version candidate : SemanticVersion)
    : result SemanticVersion :=
  if used T candidate then
    match patch_scan_result T pm candidate version with
    | Some next_candidate => Return next_candidate
    | None => conflict_result T pm candidate "dev"
    end
  else Return candidate.

Definition increment_major_result (T : gset string) (pm : bool)
    (version : SemanticVersion) : result SemanticVersion :=
  bump_result T pm version (release pm version (major version + 1) 0 0).

Definition increment_minor_result (T : gset string) (pm : bool)
    (version : SemanticVersion) : result SemanticVersion :=
  bump_result T pm version
    (release pm version (major version) (minor version + 1) 0).

(** The patch numbers [_get_existing_patches] collects. *)
Definition existing_patches (T : gset string) (ma mi : Z) : gset Z :=
  set_omap (tag_patch (Py.str ma +:+ "." +:+ Py.str mi +:+ ".")) T.

Definition find_next_available_patch_result (T : gset string) (pm : bool)
    (version : SemanticVersion) : option SemanticVersion :=
  first_some
    (fun p =>
       if negb (bool_decide (p ∈ existing_patches T (major version) (minor version)))
       then
         let candidate := release pm version (major version) (minor version) p in
         if negb (used T candidate) then Some candidate else None
       else None)
    (range (patch version + 1) (patch version + MAX_PATCH_ATTEMPTS + 1)).

Definition create_conflict_prerelease_result (T : gset string) (pm : bool)
    (version : SemanticVersion) (label : string) : result SemanticVersion :=
  let base_version :=
    release pm version (major version) (minor version) (patch version + 1) in
  let prerelease_candidate :=
    {| major := major version; minor := minor version;
       patch := patch version + 1;
       prerelease := Some (label +:+ ".1");
       metadata := if pm then metadata base_version else None;
       prefix := prefix version |} in
  if negb (used T prerelease_candidate) then Return prerelease_candidate
  else conflict_result T pm base_version label.

Definition increment_patch_result (T : gset string) (pm : bool)
    (version : SemanticVersion) (label : string) : result SemanticVersion :=
  let candidate :=
    release pm version (major version) (minor version) (patch version + 1) in
  if negb (used T candidate) then Return candidate
  else
    match find_next_available_patch_result T pm version with
    | Some v => Return v
    | None => create_conflict_prerelease_result T pm version label
    end.

Definition create_first_prerelease_result (T : gset string) (pm : bool)
    (version : SemanticVersion) (prerelease_type : option string)
    : SemanticVersion :=
  match first_some
          (fun p =>
             find_available_result T (major version) (minor version) p
               (or_dev prerelease_type) 1
               (Some (Z.min MAX_PRERELEASE_ATTEMPTS MAX_PATCH_ATTEMPTS))
               (metadata version) (prefix version))
          (range (patch version + 1) (patch version + 1 + 5)) with
  | Some available_version => available_version
  | None =>
      {| major := major version; minor := minor version; patch := patch version;
         prerelease := Some (fmt prerelease_type +:+ ".1");
         metadata := if pm then metadata version else None;
         prefix := prefix version |}
  end.

(** The chain [_increment_existing_prerelease] proposes: the rightmost
    numeric component incremented, or [.1] appended when there is none. *)
Definition incremented_prerelease (version : SemanticVersion) : string :=
  match last_component (find_numeric_prerelease_components version) with
  | None => fmt (prerelease version) +:+ ".1"
  | Some (index, original_id, numeric_value) =>
      let new_id :=
        if Py.isdigit original_id then Py.str (numeric_value + 1)
        else sub_trailing_digits (Py.str (numeric_value + 1)) original_id in
      Py.join "." (<[index := new_id]> (get_prerelease_identifiers version))
  end.

Definition increment_existing_prerelease_result (T : gset string) (pm : bool)
    (version : SemanticVersion) : result SemanticVersion :=
  let new_prerelease := incremented_prerelease version in
  let candidate :=
    {| major := major version; minor := minor version; patch := patch version;
       prerelease := Some new_prerelease;
       metadata := if pm then metadata version else None;
       prefix := prefix version |} in
  if used T candidate then
    let prerelease_base :=
      if Py.contains_char "." new_prerelease
      then first_field "." new_prerelease else new_prerelease in
    match find_available_result T (major version) (minor version)
            (patch version + 1) prerelease_base 1 None (metadata version)
            (prefix version) with
    | Some v => Return v
    | None => Raise (RuntimeError "Could not find available prerelease version")
    end
  else Return candidate.

(** Does [_increment_prerelease] switch the pre-release to a new label? *)
Definition switches_label (version : SemanticVersion)
    (prerelease_type : option string) : bool :=
  if truthy prerelease_type then
    let current_type :=
      match get_prerelease_identifiers version with
      | id0 :: _ => Py.lower id0
      | [] => EmptyString
      end in
    nonempty current_type &&
    negb (String.eqb current_type (Py.lower (fmt prerelease_type)))
  else false.

Definition increment_prerelease_result (T : gset string) (pm : bool)
    (version : SemanticVersion) (prerelease_type : option string)
    : result SemanticVersion :=
  if negb (is_prerelease version) then
    Return (create_first_prerelease_result T pm version prerelease_type)
  else if switches_label version prerelease_type then
    Return {| major := major version; minor := minor version;
              patch := patch version;
              prerelease := Some (fmt prerelease_type +:+ ".1");
              metadata := if pm then metadata version else None;
              prefix := prefix version |}
  else increment_existing_prerelease_result T pm version.

Definition increment_result (T : gset string) (pm : bool)
    (version : SemanticVersion) (increment_type : IncrementType)
    (prerelease_type : option string) : result SemanticVersion :=
  match increment_type with
  | MAJOR => increment_major_result T pm version
  | MINOR => increment_minor_result T pm version
  | PATCH => increment_patch_result T pm version (or_dev prerelease_type)
  | PRERELEASE | DEV => increment_prerelease_result T pm version prerelease_type
  end.


(** A character of a bare [major.minor.patch]: a digit or a dot. *)
Definition is_core_char (c : ascii) : bool :=
  Py.isdigit_char c || Ascii.eqb c ".".


(** An outcome that collides with no existing tag: a version the oracle does
    not know, or a [RuntimeError]. *)
Definition collision_free (T : gset string) (r : result SemanticVersion) : Prop :=
  match r with
  | Return v => used T v = false
  | Raise e => exists msg, e = RuntimeError msg
  end.

(** The candidates [_create_first_prerelease] probes: patches [p+1 .. p+5],
    counters [1 .. 100]. *)
Definition in_first_window (version : SemanticVersion) (q c : Z) : Prop :=
  patch version + 1 <= q <= patch version + 5 /\ 1 <= c <= 100.

(** The existing tags of the second counterexample to collision avoidance:
    every candidate of the window of [1.0.0], and the last resort. *)
Definition window_tags : gset string :=
  list_to_set
    (("1.0.0-none.1" : string) ::
     (q ← range 1 6;
      (fun c => "1.0." +:+ Py.str q +:+ "-dev." +:+ Py.str c) <$> range 1 101)).




(** The number [find_numeric_prerelease_components] reads in an identifier:
    its value when it is numeric, else the value of its trailing digits. *)
Definition component_value (identifier : string) : option Z :=
  if Py.isdigit identifier then Some (Py.int identifier)
  else
    match search_trailing_digits identifier with
    | Some (_, d, _) => Some (Py.int d)
    | None => None
    end.


(** The kinds that advance the pre-release. *)
Definition is_prerelease_kind (increment_type : IncrementType) : bool :=
  match increment_type with
  | PRERELEASE | DEV => true
  | _ => false
  end.

(** No dot in a text. *)
Definition no_dot (s : string) : bool :=
  Py.all_chars (fun c => negb (Ascii.eqb c ".")) s.


(** A version as [parse] produces them: non-negative numbers, a prefix that is
    empty, [v] or [V], and well-formed chains. *)
Definition well_formed (v : SemanticVersion) : Prop :=
  0 <= major v /\ 0 <= minor v /\ 0 <= patch v /\
  (prefix v = EmptyString \/ prefix v = "v" \/ prefix v = "V") /\
  match prerelease v with Some x => chain_ok x = true | None => True end /\
  match metadata v with Some x => chain_ok x = true | None => True end.


(** What every version built by the engine keeps of the input: its prefix,
    and its metadata or none. *)
Definition keeps_decor (pm : bool) (version r : SemanticVersion) : Prop :=
  prefix r = prefix version /\
  (metadata r = metadata version \/ (pm = false /\ metadata r = None)).

(** A property of the version a result returns, if it returns one. *)
Definition on_return {A} (P : A -> Prop) (r : result A) : Prop :=
  match r with
  | Return a => P a
  | Raise _ => True
  end.

(** The list [suggest_next_version] builds over the strategies [types],
    from the suggestions it holds already. *)
Fixpoint suggest_strategies_result (T : gset string) (pm : bool)
    (types : list string) (current_version : SemanticVersion)
    (suggestions : list SemanticVersion) : list SemanticVersion :=
  match types with
  | [] => suggestions
  | prerelease_type :: types' =>
      let suggestion :=
        create_first_prerelease_result T pm current_version
          (Some prerelease_type) in
      suggest_strategies_result T pm types' current_version
        (if not_in suggestion suggestions
         then suggestions ++ [suggestion] else suggestions)
  end.

(** No two entries of a list are equal for [__eq__]. *)
Definition pairwise_distinct (l : list SemanticVersion) : Prop :=
  forall i j a b,
    l !! i = Some a -> l !! j = Some b -> i <> j -> version_eq a b = false.

(** A version with its prefix and metadata taken off. *)
Definition bare (version : SemanticVersion) : SemanticVersion :=
  {| major := major version; minor := minor version; patch := patch version;
     prerelease := prerelease version; metadata := None;
     prefix := EmptyString |}.

(** A text up to its first [+]. *)
Definition before_plus (s : string) : string :=
  match Py.find_char "+" s with
  | Some k => Py.take_chars k s
  | None => s
  end.

(** The groups whose text is a version formatted with its prefix. *)
Definition groups_of_version (v : SemanticVersion) : groups :=
  {| g_prefix := if nonempty (prefix v) then Some (prefix v) else None;
     g_major := Py.str (major v);
     g_minor := Py.str (minor v);
     g_patch := Py.str (patch v);
     g_prerelease := prerelease v;
     g_metadata := metadata v |}.

(** A character of a formatted version: one of a chain, or a plus sign. *)
Definition is_text_char (c : ascii) : bool :=
  is_chain_char c || Ascii.eqb c "+".

(** An identifier of a chain: not empty, made of letters, digits and
    hyphens. *)
Definition ident_ok (id : string) : bool :=
  nonempty id && Py.all_chars is_ident_char id.

(** A label a caller may ask for: none, or a well-formed chain. *)
Definition label_ok (prerelease_type : option string) : Prop :=
  match prerelease_type with
  | Some label => chain_ok label = true
  | None => True
  end.

(** *** Characters of a text *)

(** A character as [chars] cuts it. *)
Definition is_char (w : string) : Prop :=
  exists c k,
    w = String c k /\ Py.all_chars Py.is_continuation k = true /\
    (k = EmptyString \/ (128 <=? Py.code c)%N = true).

(** Two characters that [chars] leaves apart. *)
Definition apart (w w' : string) : Prop :=
  match w with
  | String c _ => (128 <=? Py.code c)%N = false \/ Py.continues w' = false
  | EmptyString => True
  end.

(** A list of characters that is the [chars] of its text. *)
Fixpoint are_chars (l : list string) : Prop :=
  match l with
  | [] => True
  | w :: ws =>
      is_char w /\ match ws with [] => True | w' :: _ => apart w w' end /\
      are_chars ws
  end.

(** What is left once the end is dropped: a prefix that starts as the list
    does and ends with an element that stays. *)
Definition drop_end {A} (p : A -> bool) (l : list A) : list A :=
  rev (Py.drop_while p (rev l)).

(** The bytes of a text, one by one. *)
Fixpoint letters (s : string) : list string :=
  match s with
  | EmptyString => []
  | String c s' => String c EmptyString :: letters s'
  end.

(** An ASCII byte. *)
Definition is_ascii (c : ascii) : bool := (Py.code c <? 128)%N.

(** * Properties *)


(** ** Strings *)

Lemma app_cons_s x (a b : string) : String x a +:+ b = String x (a +:+ b).
Proof. reflexivity. Qed.

Lemma app_nil_s (b : string) : EmptyString +:+ b = b.
Proof. reflexivity. Qed.

Lemma app_assoc_s (a b c : string) : (a +:+ b) +:+ c = a +:+ (b +:+ c).
Proof. induction a as [|x a IH]; [done|]. by rewrite !app_cons_s, IH. Qed.

Lemma app_empty_r (a : string) : a +:+ EmptyString = a.
Proof. induction a as [|x a IH]; [done|]. by rewrite app_cons_s, IH. Qed.

Lemma length_app_s (a b : string) :
  String.length (a +:+ b) = (String.length a + String.length b)%nat.
Proof. induction a as [|x a IH]; [done|]. rewrite app_cons_s. simpl. by rewrite IH. Qed.

Lemma all_chars_app p a b :
  Py.all_chars p (a +:+ b) = Py.all_chars p a && Py.all_chars p b.
Proof.
  induction a as [|x a IH]; [done|]. rewrite app_cons_s. simpl.
  rewrite IH. by rewrite andb_assoc.
Qed.

(** ** Decimal numerals *)

Lemma code_digit_char d : (d < 10)%N -> Py.code (Py.digit_char d) = (48 + d)%N.
Proof.
  intros Hd. unfold Py.code, Py.digit_char. rewrite N_ascii_embedding; [done|lia].
Qed.

Lemma isdigit_digit_char d : (d < 10)%N -> Py.isdigit_char (Py.digit_char d) = true.
Proof.
  intros Hd. unfold Py.isdigit_char. rewrite code_digit_char by done.
  apply andb_true_iff; split; apply N.leb_le; lia.
Qed.

Lemma digit_val_digit_char d : (d < 10)%N -> Py.digit_val (Py.digit_char d) = d.
Proof. intros Hd. unfold Py.digit_val. rewrite code_digit_char by done. lia. Qed.

Lemma isdigit_char_val c :
  Py.isdigit_char c = true -> (Py.digit_val c < 10)%N /\ Py.code c = (48 + Py.digit_val c)%N.
Proof.
  unfold Py.isdigit_char, Py.digit_val. intros [H1 H2]%andb_true_iff.
  apply N.leb_le in H1, H2. lia.
Qed.

Lemma digit_char_val c : Py.isdigit_char c = true -> Py.digit_char (Py.digit_val c) = c.
Proof.
  intros [H1 H2]%isdigit_char_val. unfold Py.digit_char. rewrite <- H2.
  apply ascii_N_embedding.
Qed.

Lemma int_acc_app a s t : Py.int_acc a (s +:+ t) = Py.int_acc (Py.int_acc a s) t.
Proof. revert a. induction s as [|c s IH]; intros a; simpl; [done|]. apply IH. Qed.

Lemma int_acc_shift a s :
  Py.int_acc a s = (a * 10 ^ N.of_nat (String.length s) + Py.int_acc 0 s)%N.
Proof.
  revert a. induction s as [|c s IH]; intros a.
  - simpl. lia.
  - cbn [Py.int_acc String.length]. rewrite IH, (IH (10 * 0 + _)%N).
    rewrite Nat2N.inj_succ, N.pow_succ_r'. lia.
Qed.

Lemma int_acc_bound s :
  Py.all_chars Py.isdigit_char s = true ->
  (Py.int_acc 0 s < 10 ^ N.of_nat (String.length s))%N.
Proof.
  induction s as [|c s IH]; intros H.
  - simpl. lia.
  - cbn [Py.all_chars] in H. apply andb_true_iff in H as [Hc Hs].
    apply isdigit_char_val in Hc as [Hc _]. specialize (IH Hs).
    cbn [Py.int_acc String.length]. rewrite int_acc_shift.
    rewrite Nat2N.inj_succ, N.pow_succ_r'. nia.
Qed.

(** [str] prints a numeral with no leading zero. *)
Lemma str_of_N_aux_spec fuel n acc :
  (n < 2 ^ N.of_nat fuel)%N ->
  exists d,
    Py.str_of_N_aux (S fuel) n acc = d +:+ acc /\
    Py.all_chars Py.isdigit_char d = true /\
    Py.int_acc 0 d = n /\
    match d with
    | EmptyString => False
    | String c _ => n <> 0%N -> c <> "0"%char
    end.
Proof.
  revert n acc. induction fuel as [|fuel IH]; intros n acc Hn.
  - assert (n = 0%N) as -> by (simpl in Hn; lia).
    exists "0". repeat split; try done.
  - cbn [Py.str_of_N_aux]. destruct (N.eqb_spec (n / 10) 0) as [Hq|Hq].
    + assert (n < 10)%N as Hlt by (by apply N.div_small_iff in Hq).
      rewrite N.mod_small by done.
      exists (String (Py.digit_char n) EmptyString). repeat split.
      * simpl. by rewrite isdigit_digit_char.
      * simpl. rewrite digit_val_digit_char by done. lia.
      * intros Hn0 Hc. apply (f_equal Py.digit_val) in Hc.
        rewrite digit_val_digit_char in Hc by done. cbv in Hc. lia.
    + assert (n / 10 < 2 ^ N.of_nat fuel)%N as Hq'.
      { rewrite Nat2N.inj_succ, N.pow_succ_r' in Hn.
        apply N.Div0.div_lt_upper_bound. lia. }
      destruct (IH (n / 10)%N (String (Py.digit_char (n mod 10)) acc) Hq')
        as (d & Hd & Hall & Hval & Hcan).
      exists (d +:+ String (Py.digit_char (n mod 10)) EmptyString).
      assert (n mod 10 < 10)%N as Hm by (apply N.mod_lt; lia).
      repeat split.
      * rewrite app_assoc_s. exact Hd.
      * rewrite all_chars_app, Hall. simpl. by rewrite isdigit_digit_char.
      * rewrite int_acc_app, Hval. simpl. rewrite digit_val_digit_char by done.
        pose proof (N.div_mod n 10 ltac:(lia)). lia.
      * destruct d as [|c d]; [done|]. simpl. intros _. by apply Hcan.
Qed.

Lemma pos_size_nat_gt p : (Npos p < 2 ^ N.of_nat (Pos.size_nat p))%N.
Proof.
  induction p as [p IH|p IH|]; cbn [Pos.size_nat];
    rewrite ?Nat2N.inj_succ, ?N.pow_succ_r'; simpl; lia.
Qed.

Lemma size_nat_gt n : (n < 2 ^ N.of_nat (N.size_nat n))%N.
Proof. destruct n as [|p]; [simpl; lia|apply pos_size_nat_gt]. Qed.

Lemma str_of_N_spec n :
  Py.all_chars Py.isdigit_char (Py.str_of_N n) = true /\
  Py.int_acc 0 (Py.str_of_N n) = n /\
  match Py.str_of_N n with
  | EmptyString => False
  | String c _ => n <> 0%N -> c <> "0"%char
  end.
Proof.
  destruct (str_of_N_aux_spec (N.size_nat n) n EmptyString (size_nat_gt n))
    as (d & Hd & H). unfold Py.str_of_N. rewrite Hd, app_empty_r. exact H.
Qed.

Lemma isdigit_all s : Py.isdigit s = true <-> nonempty s = true /\ Py.all_chars Py.isdigit_char s = true.
Proof. destruct s; simpl; intuition congruence. Qed.

Lemma canonical_iff s :
  canonical s = true <->
  Py.all_chars Py.isdigit_char s = true /\
  match s with
  | EmptyString => False
  | String c r => c = "0"%char -> r = EmptyString
  end.
Proof.
  unfold canonical. rewrite andb_true_iff, isdigit_all.
  destruct s as [|c r]; [simpl; intuition congruence|].
  destruct (ascii_dec c "0") as [->|Hc].
  - destruct r; simpl; intuition congruence.
  - assert (match c with "0"%char => match r with EmptyString => true | String _ _ => false end | _ => true end = true) as Hm.
    { destruct c as [[] [] [] [] [] [] [] []]; try done. }
    simpl. intuition congruence.
Qed.

Lemma str_of_N_canonical n : canonical (Py.str_of_N n) = true.
Proof.
  destruct (str_of_N_spec n) as (Hall & Hval & Hcan).
  apply canonical_iff. split; [done|].
  destruct (Py.str_of_N n) as [|c r] eqn:E; [done|].
  intros ->. destruct (N.eq_dec n 0%N) as [->|Hn].
  - vm_compute in E. congruence.
  - by destruct (Hcan Hn).
Qed.


Lemma int_str_of_N n : Py.int (Py.str_of_N n) = Z.of_N n.
Proof. unfold Py.int. by destruct (str_of_N_spec n) as (_ & -> & _). Qed.

Lemma int_acc_cons c s :
  Py.int_acc 0 (String c s) =
  (Py.digit_val c * 10 ^ N.of_nat (String.length s) + Py.int_acc 0 s)%N.
Proof. cbn [Py.int_acc]. rewrite int_acc_shift. lia. Qed.

Lemma pow10_pos n : (0 < 10 ^ n)%N.
Proof. apply N.neq_0_lt_0, N.pow_nonzero. lia. Qed.

Lemma canonical_lower_bound s :
  canonical s = true -> Py.int_acc 0 s <> 0%N ->
  (10 ^ N.of_nat (Nat.pred (String.length s)) <= Py.int_acc 0 s)%N.
Proof.
  intros [Hall Hcan]%canonical_iff Hnz. destruct s as [|c r]; [done|].
  rewrite int_acc_cons in *. cbn [String.length Nat.pred].
  cbn [Py.all_chars] in Hall. apply andb_true_iff in Hall as [Hc Hr].
  assert (Py.digit_val c <> 0%N) as Hv.
  { intros Hv. assert (c = "0"%char) as ->.
    { rewrite <- (digit_char_val c Hc), Hv. done. }
    rewrite (Hcan eq_refl) in Hnz. by cbv in Hnz. }
  pose proof (pow10_pos (N.of_nat (String.length r))). nia.
Qed.

Lemma canonical_zero s : canonical s = true -> Py.int_acc 0 s = 0%N -> s = "0".
Proof.
  intros [Hall Hcan]%canonical_iff Hz. destruct s as [|c r]; [done|].
  rewrite int_acc_cons in Hz. cbn [Py.all_chars] in Hall.
  apply andb_true_iff in Hall as [Hc Hr].
  pose proof (pow10_pos (N.of_nat (String.length r))).
  assert (Py.digit_val c = 0%N) as Hv by nia.
  assert (c = "0"%char) as ->. { rewrite <- (digit_char_val c Hc), Hv. done. }
  by rewrite (Hcan eq_refl).
Qed.

Lemma digits_same_length_inj s t :
  Py.all_chars Py.isdigit_char s = true -> Py.all_chars Py.isdigit_char t = true ->
  String.length s = String.length t -> Py.int_acc 0 s = Py.int_acc 0 t -> s = t.
Proof.
  revert t. induction s as [|c s IH]; intros [|d t] Hs Ht Hlen Hval; try done.
  cbn [Py.all_chars] in Hs, Ht. apply andb_true_iff in Hs as [Hc Hs], Ht as [Hd Ht].
  simpl in Hlen. injection Hlen as Hlen. rewrite !int_acc_cons, Hlen in Hval.
  pose proof (int_acc_bound s Hs) as Bs. pose proof (int_acc_bound t Ht) as Bt.
  rewrite Hlen in Bs.
  assert (Py.digit_val c = Py.digit_val d) as Hcd by nia.
  f_equal.
  - by rewrite <- (digit_char_val c Hc), <- (digit_char_val d Hd), Hcd.
  - apply IH; try done. nia.
Qed.

Lemma canonical_length s :
  canonical s = true -> Py.int_acc 0 s <> 0%N ->
  (10 ^ N.of_nat (String.length s) = 10 * 10 ^ N.of_nat (Nat.pred (String.length s)))%N.
Proof.
  intros [_ Hcan]%canonical_iff _. destruct s as [|c r]; [done|].
  cbn [String.length Nat.pred]. by rewrite Nat2N.inj_succ, N.pow_succ_r'.
Qed.

Lemma canonical_inj s t :
  canonical s = true -> canonical t = true ->
  Py.int_acc 0 s = Py.int_acc 0 t -> s = t.
Proof.
  intros Hs Ht Hval. destruct (N.eq_dec (Py.int_acc 0 s) 0%N) as [Hz|Hnz].
  - rewrite (canonical_zero s Hs Hz), (canonical_zero t Ht); [done|congruence].
  - pose proof (proj1 (canonical_iff s) Hs) as [Hds _].
    pose proof (proj1 (canonical_iff t) Ht) as [Hdt _].
    apply digits_same_length_inj; try done.
    pose proof (canonical_lower_bound s Hs Hnz) as Ls.
    pose proof (canonical_lower_bound t Ht ltac:(congruence)) as Lt.
    pose proof (int_acc_bound s Hds) as Us. pose proof (int_acc_bound t Hdt) as Ut.
    rewrite <- Hval in Lt, Ut.
    assert (N.of_nat (Nat.pred (String.length s)) < N.of_nat (String.length t))%N as H1
      by (apply (N.pow_lt_mono_r_iff 10); lia).
    assert (N.of_nat (Nat.pred (String.length t)) < N.of_nat (String.length s))%N as H2
      by (apply (N.pow_lt_mono_r_iff 10); lia).
    assert (String.length s <> 0%nat) by (destruct s; [by apply canonical_iff in Hs as [_ ?]|done]).
    assert (String.length t <> 0%nat) by (destruct t; [by apply canonical_iff in Ht as [_ ?]|done]).
    lia.
Qed.

Lemma str_of_N_int s : canonical s = true -> Py.str_of_N (Py.int_acc 0 s) = s.
Proof.
  intros Hs. apply canonical_inj; [apply str_of_N_canonical|done|].
  by destruct (str_of_N_spec (Py.int_acc 0 s)) as (_ & -> & _).
Qed.

Lemma str_int s : canonical s = true -> Py.str (Py.int s) = s.
Proof.
  intros Hs. unfold Py.str, Py.int.
  destruct (Z.ltb_spec (Z.of_N (Py.int_acc 0 s)) 0) as [H|H]; [lia|].
  rewrite N2Z.id. by apply str_of_N_int.
Qed.

(** ** The version pattern *)

Lemma span_spec p s a b :
  span p s = (a, b) -> s = a +:+ b /\ Py.all_chars p a = true.
Proof.
  revert a b. induction s as [|c s IH]; intros a b H; simpl in H.
  - by injection H as <- <-.
  - destruct (p c) eqn:Hc.
    + destruct (span p s) as [a' b'] eqn:E. injection H as <- <-.
      destruct (IH a' b' eq_refl) as [-> Ha]. split; [done|].
      simpl. by rewrite Hc.
    + by injection H as <- <-.
Qed.

Lemma span_stop p s a b :
  span p s = (a, b) ->
  match b with EmptyString => True | String c _ => p c = false end.
Proof.
  revert a b. induction s as [|c s IH]; intros a b H; simpl in H.
  - by injection H as <- <-.
  - destruct (p c) eqn:Hc.
    + destruct (span p s) as [a' b'] eqn:E. injection H as <- <-. by eapply IH.
    + by injection H as <- <-.
Qed.

Lemma match_number_spec s d rest :
  match_number s = Some (d, rest) -> s = d +:+ rest /\ canonical d = true.
Proof.
  unfold match_number. destruct (span Py.isdigit_char s) as [a b] eqn:E.
  apply span_spec in E as [-> Ha]. intros H.
  assert (a = d /\ b = rest /\ nonempty d = true /\
          match d with String "0" (String _ _) => false | _ => true end = true)
    as (-> & -> & Hne & Hz).
  { destruct a as [|c a]; [done|].
    destruct c as [[] [] [] [] [] [] [] []]; try (by injection H as <- <-).
    destruct a; [by injection H as <- <-|done]. }
  split; [done|]. unfold canonical. apply andb_true_iff. split; [|done].
  by apply isdigit_all.
Qed.

Lemma split_nonempty_nonempty s :
  forallb nonempty (Py.split "." s) = true -> nonempty s = true.
Proof. by destruct s. Qed.

Lemma match_chain_spec s c rest :
  match_chain s = Some (c, rest) ->
  s = c +:+ rest /\ nonempty c = true /\
  Py.all_chars is_chain_char c = true /\
  forallb nonempty (Py.split "." c) = true /\
  match rest with EmptyString => True | String x _ => is_chain_char x = false end.
Proof.
  unfold match_chain. destruct (span is_chain_char s) as [a b] eqn:E.
  pose proof (span_stop _ _ _ _ E) as Hstop.
  apply span_spec in E as [-> Ha].
  destruct (forallb nonempty (Py.split "." a)) eqn:Hf; [|done].
  intros [= <- <-]. repeat split; try done. by apply split_nonempty_nonempty.
Qed.

Lemma match_char_spec c s s' : match_char c s = Some s' -> s = String c s'.
Proof.
  destruct s as [|d s]; [done|]. simpl.
  destruct (Ascii.eqb_spec d c) as [->|]; [|done]. by intros [= ->].
Qed.

Lemma at_end_spec s : at_end s = true -> s = EmptyString \/ s = String "010" EmptyString.
Proof.
  destruct s as [|c [|d s]]; simpl; try done; [by left|].
  destruct (Ascii.eqb_spec c "010") as [->|]; [by right|done].
Qed.

Lemma match_metadata_spec s m :
  match_metadata s = Some m ->
  exists tl, at_end tl = true /\
    s = match m with Some x => "+" +:+ x | None => EmptyString end +:+ tl /\
    (forall x, m = Some x -> nonempty x = true /\ Py.all_chars is_chain_char x = true /\
                             forallb nonempty (Py.split "." x) = true).
Proof.
  unfold match_metadata. intros H.
  assert ((exists s', s = String "+" s' /\
             match match_chain s' with
             | Some (m0, rest) => if at_end rest then Some (Some m0) else None
             | None => None
             end = Some m) \/
          (m = None /\ at_end s = true)) as [(s' & -> & H')|[-> He]].
  { destruct s as [|c s']; [right; simpl in *; split; congruence|].
    destruct (ascii_dec c "+") as [->|Hc]; [left; eauto|].
    right. assert ((if at_end (String c s') then Some None else None) = Some m) as H'.
    { destruct c as [[] [] [] [] [] [] [] []]; try done. }
    destruct (at_end (String c s')); [|done]. split; congruence. }
  - destruct (match_chain s') as [[m0 rest]|] eqn:E; [|done].
    destruct (at_end rest) eqn:He; [|done]. injection H' as <-.
    apply match_chain_spec in E as (-> & Hne & Hall & Hsp & _).
    exists rest. split; [done|]. split.
    + by rewrite !app_cons_s, app_nil_s.
    + by intros x [= <-].
  - exists s. split; [done|]. split; [done|]. done.
Qed.

Lemma match_prerelease_spec s p m :
  match_prerelease s = Some (p, m) ->
  exists tl, at_end tl = true /\
    s = match p with Some x => "-" +:+ x | None => EmptyString end +:+
        match m with Some x => "+" +:+ x | None => EmptyString end +:+ tl /\
    (forall x, p = Some x -> nonempty x = true /\ Py.all_chars is_chain_char x = true /\
                             forallb nonempty (Py.split "." x) = true) /\
    (forall x, m = Some x -> nonempty x = true /\ Py.all_chars is_chain_char x = true /\
                             forallb nonempty (Py.split "." x) = true).
Proof.
  unfold match_prerelease. intros H.
  assert ((exists s', s = String "-" s' /\
             match match_chain s' with
             | Some (p0, rest) =>
                 match match_metadata rest with
                 | Some m0 => Some (Some p0, m0)
                 | None => None
                 end
             | None => None
             end = Some (p, m)) \/
          (p = None /\ match_metadata s = Some m)) as [(s' & -> & H')|[-> Hm]].
  { destruct s as [|c s'].
    - right. destruct (match_metadata EmptyString) as [m0|] eqn:E; [|done].
      by injection H as <- <-.
    - destruct (ascii_dec c "-") as [->|Hc]; [left; eauto|].
      right.
      assert (match match_metadata (String c s') with
              | Some m0 => Some (None, m0) | None => None end = Some (p, m)) as H'.
      { destruct c as [[] [] [] [] [] [] [] []]; try done. }
      destruct (match_metadata (String c s')) as [m0|] eqn:E; [|done].
      by injection H' as <- <-. }
  - destruct (match_chain s') as [[p0 rest]|] eqn:E; [|done].
    destruct (match_metadata rest) as [m0|] eqn:Em; [|done]. injection H' as <- <-.
    apply match_chain_spec in E as (-> & Hne & Hall & Hsp & _).
    apply match_metadata_spec in Em as (tl & He & -> & Hm).
    exists tl. split; [done|]. split.
    + by rewrite ?app_cons_s, ?app_nil_s, ?app_assoc_s.
    + split; [by intros x [= <-]|done].
  - apply match_metadata_spec in Hm as (tl & He & -> & Hm).
    exists tl. split; [done|]. split; [done|]. split; done.
Qed.

Lemma match_prefix_spec s pre s0 :
  match_prefix s = (pre, s0) ->
  s = default EmptyString pre +:+ s0 /\
  (pre = None \/ pre = Some "v" \/ pre = Some "V").
Proof.
  unfold match_prefix. destruct s as [|c s]; [by intros [= <- <-]; auto|].
  destruct (Ascii.eqb_spec c "v") as [->|]; [by intros [= <- <-]; auto|].
  destruct (Ascii.eqb_spec c "V") as [->|]; [by intros [= <- <-]; auto|].
  by intros [= <- <-]; auto.
Qed.

Lemma SEMVER_PATTERN_match_spec s g :
  SEMVER_PATTERN_match s = Some g ->
  exists tl, at_end tl = true /\
    s = groups_text g +:+ tl /\ groups_ok g.
Proof.
  unfold SEMVER_PATTERN_match. destruct (match_prefix s) as [pre s0] eqn:Epre.
  apply match_prefix_spec in Epre as [-> Hpre].
  destruct (match_number s0) as [[ma s1]|] eqn:E1; [|done]. simpl.
  apply match_number_spec in E1 as [-> Hma].
  destruct (match_char "." s1) as [s2|] eqn:E2; [|done]. simpl.
  apply match_char_spec in E2 as ->.
  destruct (match_number s2) as [[mi s3]|] eqn:E3; [|done]. simpl.
  apply match_number_spec in E3 as [-> Hmi].
  destruct (match_char "." s3) as [s4|] eqn:E4; [|done]. simpl.
  apply match_char_spec in E4 as ->.
  destruct (match_number s4) as [[pa s5]|] eqn:E5; [|done]. simpl.
  apply match_number_spec in E5 as [-> Hpa].
  destruct (match_prerelease s5) as [[p m]|] eqn:E6; [|done]. simpl.
  apply match_prerelease_spec in E6 as (tl & He & -> & Hp & Hm).
  intros [= <-]. exists tl. split; [done|]. split.
  - unfold groups_text. simpl.
    by rewrite ?app_assoc_s, ?app_cons_s, ?app_nil_s, ?app_assoc_s.
  - unfold groups_ok, chain_ok. simpl. repeat split; try done.
    + destruct p as [x|]; [|done]. destruct (Hp x eq_refl) as (-> & -> & ->). done.
    + destruct m as [x|]; [|done]. destruct (Hm x eq_refl) as (-> & -> & ->). done.
Qed.

Lemma all_chars_impl (p q : ascii -> bool) s :
  (forall c, p c = true -> q c = true) ->
  Py.all_chars p s = true -> Py.all_chars q s = true.
Proof.
  intros Hpq. induction s as [|c s IH]; simpl; [done|].
  intros [Hc Hs]%andb_true_iff. by rewrite (Hpq c Hc), IH.
Qed.

(** ** Characters of a text *)

Lemma text_app l1 l2 : Py.text (l1 ++ l2) = Py.text l1 +:+ Py.text l2.
Proof.
  induction l1 as [|w l1 IH]; [done|]. cbn [app Py.text].
  by rewrite IH, app_assoc_s.
Qed.

Lemma text_chars s : Py.text (Py.chars s) = s.
Proof.
  induction s as [|c s IH]; [done|]. cbn [Py.chars].
  destruct (Py.chars s) as [|w ws]; [by rewrite <- IH|].
  destruct ((128 <=? Py.code c)%N && Py.continues s);
    cbn [Py.text] in *; by rewrite ?app_cons_s, ?app_nil_s, IH.
Qed.

Lemma chars_nil s : Py.chars s = [] -> s = EmptyString.
Proof. intros H. by rewrite <- (text_chars s), H. Qed.

Lemma chars_head_continues s w ws :
  Py.chars s = w :: ws -> Py.continues w = Py.continues s.
Proof.
  destruct s as [|c s]; [done|]. cbn [Py.chars].
  destruct (Py.chars s) as [|w' ws']; [by intros [= <- <-]|].
  by destruct ((128 <=? Py.code c)%N && Py.continues s); intros [= <- <-].
Qed.

Lemma chars_are_chars s : are_chars (Py.chars s).
Proof.
  induction s as [|c s IH]; [done|]. cbn [Py.chars].
  destruct (Py.chars s) as [|w ws] eqn:E.
  - split; [|done]. exists c, EmptyString. auto.
  - pose proof (chars_head_continues s w ws E) as Hh.
    destruct IH as ((d & k & -> & Hk & Hd) & Hap & Hws).
    destruct (N.leb_spec 128 (Py.code c)) as [Hc|Hc]; cbn [andb].
    + destruct (Py.continues s) eqn:Hs.
      * cbn [are_chars]. split; [|split; [|done]].
        -- exists c, (String d k). split; [done|]. split.
           ++ cbn [Py.all_chars]. cbn [Py.continues] in Hh. by rewrite Hh, Hk.
           ++ right. by apply N.leb_le.
        -- destruct ws as [|w' ws']; [done|]. cbn [apart] in *.
           destruct Hap as [Hap|Hap]; [|by right].
           destruct Hd as [->|Hd]; [|congruence].
           cbn [Py.continues] in Hh. unfold Py.is_continuation in Hh.
           apply andb_true_iff in Hh as [Hh _]. congruence.
      * cbn [are_chars]. split; [exists c, EmptyString; auto|].
        split; [right; by rewrite Hh|]. split; [by exists d, k|done].
    + cbn [are_chars]. split; [exists c, EmptyString; auto|].
      split; [left; by apply N.leb_gt|]. split; [by exists d, k|done].
Qed.

Lemma chars_char_app c k rest :
  Py.all_chars Py.is_continuation k = true ->
  k = EmptyString \/ (128 <=? Py.code c)%N = true ->
  (128 <=? Py.code c)%N = false \/ Py.continues rest = false ->
  Py.chars (String c (k +:+ rest)) = String c k :: Py.chars rest.
Proof.
  revert c. induction k as [|d k IH]; intros c Hk Hc Hrest.
  - rewrite app_nil_s. cbn [Py.chars].
    destruct (Py.chars rest) as [|w ws] eqn:E; [done|].
    by destruct Hrest as [-> | ->]; rewrite ?andb_false_r.
  - destruct Hc as [|Hc]; [done|]. cbn [Py.all_chars] in Hk.
    apply andb_true_iff in Hk as [Hd Hk].
    assert ((128 <=? Py.code d)%N = true) as Hd'.
    { unfold Py.is_continuation in Hd. by apply andb_true_iff in Hd as [? _]. }
    rewrite app_cons_s. cbn [Py.chars].
    change (match Py.chars (k +:+ rest) with
            | [] => [String d EmptyString]
            | w :: ws =>
                if (128 <=? Py.code d)%N && Py.continues (k +:+ rest)
                then String d w :: ws
                else String d EmptyString :: w :: ws
            end) with (Py.chars (String d (k +:+ rest))).
    destruct Hrest as [Hrest|Hrest]; [congruence|].
    rewrite (IH d Hk (or_intror Hd') (or_intror Hrest)).
    cbn [Py.continues]. by rewrite Hc, Hd.
Qed.

Lemma chars_text l : are_chars l -> Py.chars (Py.text l) = l.
Proof.
  induction l as [|w l IH]; [done|].
  intros ((c & k & -> & Hk & Hc) & Hap & Hl). cbn [Py.text].
  rewrite app_cons_s, chars_char_app, (IH Hl); try done.
  destruct l as [|w' l']; [by right|]. cbn [apart] in Hap.
  destruct Hap as [Hap|Hap]; [by left|right].
  cbn [Py.text]. destruct Hl as ((c' & k' & -> & _) & _).
  by rewrite app_cons_s.
Qed.

Lemma are_chars_app l1 l2 : are_chars (l1 ++ l2) -> are_chars l1 /\ are_chars l2.
Proof.
  induction l1 as [|w l1 IH]; [done|]. cbn [app are_chars].
  intros (Hw & Hap & H). destruct (IH H) as [H1 H2].
  split; [|done]. split; [done|]. split; [|done].
  by destruct l1.
Qed.

(** ** Dropping from the left and from the right *)

Lemma drop_while_suffix {A} (p : A -> bool) l :
  exists l1, l = l1 ++ Py.drop_while p l.
Proof.
  induction l as [|x l [l1 IH]]; [by exists []|]. cbn.
  destruct (p x); [|by exists []]. exists (x :: l1). cbn. by f_equal.
Qed.

Lemma drop_while_head {A} (p : A -> bool) l :
  match Py.drop_while p l with [] => True | x :: _ => p x = false end.
Proof. induction l as [|x l IH]; [done|]. cbn. by destruct (p x) eqn:E. Qed.

Lemma drop_while_id {A} (p : A -> bool) l :
  match l with [] => True | x :: _ => p x = false end ->
  Py.drop_while p l = l.
Proof. destruct l as [|x l]; [done|]. cbn. by intros ->. Qed.

Lemma drop_while_snoc {A} (p : A -> bool) l x :
  p x = false -> Py.drop_while p (l ++ [x]) = Py.drop_while p l ++ [x].
Proof.
  intros Hx. induction l as [|y l IH]; cbn; [by rewrite Hx|].
  by destruct (p y).
Qed.

Lemma drop_end_prefix {A} (p : A -> bool) l :
  exists l2, l = drop_end p l ++ l2.
Proof.
  destruct (drop_while_suffix p (rev l)) as [l1 H]. exists (rev l1).
  unfold drop_end. rewrite <- rev_app_distr, <- H. by rewrite rev_involutive.
Qed.

Lemma drop_end_idem {A} (p : A -> bool) l :
  drop_end p (drop_end p l) = drop_end p l.
Proof.
  unfold drop_end. rewrite rev_involutive. f_equal.
  apply drop_while_id, drop_while_head.
Qed.

Lemma drop_end_head {A} (p : A -> bool) l :
  match l with [] => True | x :: _ => p x = false end ->
  match drop_end p l with [] => True | x :: _ => p x = false end.
Proof.
  destruct l as [|x l]; [done|]. intros Hx. unfold drop_end.
  cbn [rev]. rewrite (drop_while_snoc p (rev l) x Hx), rev_app_distr. done.
Qed.

Lemma drop_end_last {A} (p : A -> bool) l l' x :
  drop_end p l = l' ++ [x] -> p x = false.
Proof.
  unfold drop_end. intros H. apply (f_equal (@rev A)) in H.
  rewrite rev_involutive, rev_app_distr in H. cbn in H.
  pose proof (drop_while_head p (rev l)) as Hh. by rewrite H in Hh.
Qed.

(** ** [strip] *)

Lemma lstrip_chars s :
  Py.chars (Py.lstrip s) = Py.drop_while Py.isspace (Py.chars s).
Proof.
  unfold Py.lstrip. apply chars_text.
  destruct (drop_while_suffix Py.isspace (Py.chars s)) as [l1 H].
  pose proof (chars_are_chars s) as Hs. rewrite H in Hs.
  by apply are_chars_app in Hs as [_ ?].
Qed.

Lemma rstrip_chars s :
  Py.chars (Py.rstrip s) = drop_end Py.isspace (Py.chars s).
Proof.
  unfold Py.rstrip. apply chars_text. fold (drop_end Py.isspace (Py.chars s)).
  destruct (drop_end_prefix Py.isspace (Py.chars s)) as [l2 H].
  pose proof (chars_are_chars s) as Hs. rewrite H in Hs.
  by apply are_chars_app in Hs as [? _].
Qed.

Lemma strip_chars s :
  Py.chars (Py.strip s) =
  drop_end Py.isspace (Py.drop_while Py.isspace (Py.chars s)).
Proof. unfold Py.strip. by rewrite rstrip_chars, lstrip_chars. Qed.

Lemma strip_idem s : Py.strip (Py.strip s) = Py.strip s.
Proof.
  assert (Py.chars (Py.strip (Py.strip s)) = Py.chars (Py.strip s)) as H.
  { rewrite (strip_chars (Py.strip s)), (strip_chars s).
    rewrite (drop_while_id _ (drop_end _ _)); [apply drop_end_idem|].
    apply drop_end_head, drop_while_head. }
  by rewrite <- (text_chars (Py.strip (Py.strip s))), H, text_chars.
Qed.

Lemma strip_length s : Py.len (Py.strip s) <= Py.len s.
Proof.
  unfold Py.len. rewrite strip_chars.
  destruct (drop_while_suffix Py.isspace (Py.chars s)) as [l1 H1].
  destruct (drop_end_prefix Py.isspace (Py.drop_while Py.isspace (Py.chars s)))
    as [l2 H2].
  apply (f_equal length) in H1, H2. rewrite length_app in H1, H2. lia.
Qed.

Lemma strip_nonempty s : nonempty (Py.strip s) = true -> nonempty s = true.
Proof. by destruct s. Qed.

Lemma app_last_inj a b x y :
  a +:+ String x EmptyString = b +:+ String y EmptyString -> a = b /\ x = y.
Proof.
  revert b. induction a as [|c a IH]; intros [|d b]; rewrite ?app_nil_s, ?app_cons_s.
  - by intros [= ->].
  - intros [= -> H]. by destruct b.
  - intros [= -> H]. by destruct a.
  - intros [= -> H]. destruct (IH b H) as [-> ->]. done.
Qed.

Lemma is_char_last w :
  is_char w ->
  exists w0 z, w = w0 +:+ String z EmptyString /\
    (w0 = EmptyString \/ Py.is_continuation z = true).
Proof.
  intros (c & k & -> & Hk & _). revert c.
  induction k as [|d k IH]; intros c.
  - exists EmptyString, c. auto.
  - cbn [Py.all_chars] in Hk. apply andb_true_iff in Hk as [Hd Hk].
    destruct (IH Hk d) as (w0 & z & E & H). exists (String c w0), z.
    rewrite app_cons_s, <- E. split; [done|]. right.
    destruct H as [->|H]; [|done]. rewrite app_nil_s in E. by injection E as <- _.
Qed.

(** A trimmed text does not end with a line feed. *)
Lemma strip_not_lf s a : Py.strip s <> a +:+ String "010" EmptyString.
Proof.
  intros H. pose proof (strip_chars s) as Hc.
  pose proof (chars_are_chars (Py.strip s)) as Hwf.
  destruct (Py.chars (Py.strip s)) as [|w0 l0] eqn:E using rev_ind.
  - apply chars_nil in E. rewrite E in H. by destruct a.
  - symmetry in Hc. apply drop_end_last in Hc.
    apply are_chars_app in Hwf as [_ (Hx & _)].
    rewrite <- (text_chars (Py.strip s)), E, text_app in H.
    cbn [Py.text] in H. rewrite app_empty_r in H.
    destruct (is_char_last _ Hx) as (w1 & z & -> & Hz).
    rewrite <- app_assoc_s in H. apply app_last_inj in H as [_ ->].
    destruct Hz as [->|Hz]; [|done]. by vm_compute in Hc.
Qed.

(** ** ASCII text *)

Lemma chars_ascii s :
  Py.all_chars is_ascii s = true -> Py.chars s = letters s.
Proof.
  induction s as [|c s IH]; [done|]. cbn [Py.all_chars Py.chars letters].
  intros [Hc Hs]%andb_true_iff. rewrite (IH Hs).
  unfold is_ascii in Hc. apply N.ltb_lt in Hc.
  destruct (N.leb_spec 128 (Py.code c)); [lia|]. by destruct (letters s).
Qed.

Lemma len_ascii s :
  Py.all_chars is_ascii s = true -> Py.len s = Z.of_nat (String.length s).
Proof.
  intros H. unfold Py.len. rewrite (chars_ascii s H). f_equal.
  clear H. induction s as [|c s IH]; [done|]. cbn. by rewrite IH.
Qed.

Lemma strip_ascii s :
  Py.all_chars (fun c => is_ascii c && negb (Py.isspace (String c EmptyString))) s
    = true ->
  Py.strip s = s.
Proof.
  intros H.
  assert (Py.all_chars is_ascii s = true) as Ha.
  { revert H. apply all_chars_impl. by intros c [? _]%andb_true_iff. }
  assert (Forall (fun w => Py.isspace w = false) (letters s)) as Hall.
  { clear Ha. induction s as [|c s IH]; [constructor|].
    cbn [Py.all_chars] in H. apply andb_true_iff in H as [Hc Hs].
    apply andb_true_iff in Hc as [_ Hc]. constructor; [|by apply IH].
    by apply negb_true_iff. }
  assert (forall l, Forall (fun w => Py.isspace w = false) l ->
                    Py.drop_while Py.isspace l = l) as Hid.
  { intros l Hl. apply drop_while_id. by destruct Hl. }
  assert (Py.chars (Py.strip s) = Py.chars s) as E.
  { rewrite strip_chars, (chars_ascii s Ha), (Hid _ Hall). unfold drop_end.
    rewrite Hid; [apply rev_involutive|]. by apply Forall_rev. }
  by rewrite <- (text_chars (Py.strip s)), E, text_chars.
Qed.

Lemma all_chars_text p l :
  Py.all_chars p (Py.text l) = forallb (Py.all_chars p) l.
Proof.
  induction l as [|w l IH]; [done|]. cbn [Py.text forallb].
  by rewrite all_chars_app, IH.
Qed.

Lemma ord_ascii c : is_ascii c = true -> Py.ord (String c EmptyString) = Py.code c.
Proof. unfold is_ascii, Py.ord. intros ->. done. Qed.

(** ** [lower] *)

Lemma lower_point_ascii c :
  is_ascii c = true -> Py.isupper_char c = false ->
  (Py.code c =? 0x03A3)%N = false /\ Py.lower_point (Py.code c) = None.
Proof.
  destruct c as [[] [] [] [] [] [] [] []]; intros H1 H2;
    try discriminate H1; try discriminate H2; split; vm_compute; reflexivity.
Qed.

Lemma lower_chars_id after_cased s :
  Py.all_chars (fun c => is_ascii c && negb (Py.isupper_char c)) s = true ->
  Py.lower_chars after_cased (letters s) = s.
Proof.
  revert after_cased. induction s as [|c s IH]; intros after_cased; [done|].
  cbn [Py.all_chars letters Py.lower_chars].
  intros [[Ha Hu%negb_true_iff]%andb_true_iff Hs]%andb_true_iff.
  rewrite (ord_ascii c Ha).
  destruct (lower_point_ascii c Ha Hu) as [-> ->].
  by rewrite app_cons_s, app_nil_s, IH.
Qed.

(** Text of ASCII characters that has no capital letter is its own lower
    case. *)
Lemma lower_id s :
  Py.all_chars (fun c => is_ascii c && negb (Py.isupper_char c)) s = true ->
  Py.lower s = s.
Proof.
  intros H. unfold Py.lower. rewrite chars_ascii; [by apply lower_chars_id|].
  revert H. apply all_chars_impl. by intros c [? _]%andb_true_iff.
Qed.

Lemma nonempty_app a b : nonempty a = true -> nonempty (a +:+ b) = true.
Proof. by destruct a. Qed.

Lemma chr_nonempty n : nonempty (Py.chr n) = true.
Proof.
  unfold Py.chr.
  by destruct (n <? 128)%N, (n <? 2048)%N, (n <? 65536)%N.
Qed.

Lemma lower_point_Some n points :
  Py.lower_point n = Some points ->
  (points = [0x0069; 0x0307]%N) \/
  exists a b step t,
    In (a, b, step, t) Py.lower_runs /\ (a <= n <= b)%N /\
    points = [(t + (n - a))%N].
Proof.
  unfold Py.lower_point.
  destruct (List.find _ Py.lower_special) as [r|] eqn:E.
  - apply find_some in E as [Hin _]. intros [= <-]. left.
    cbn in Hin. by destruct Hin as [<-|[]].
  - destruct (List.find _ Py.lower_runs) as [[[[a b] step] t]|] eqn:E'; [|done].
    apply find_some in E' as [Hin H]. intros [= <-]. right.
    exists a, b, step, t. split; [done|]. split; [|done].
    apply andb_true_iff in H as [[H1 H2]%andb_true_iff _].
    apply N.leb_le in H1, H2. lia.
Qed.

Lemma lower_nonempty s : nonempty s = true -> nonempty (Py.lower s) = true.
Proof.
  intros Hs. unfold Py.lower.
  pose proof (chars_are_chars s) as Hwf.
  destruct (Py.chars s) as [|w l] eqn:E; [apply chars_nil in E; by subst|].
  cbn [Py.lower_chars]. apply nonempty_app.
  destruct (Py.ord w =? 931)%N; [apply chr_nonempty|].
  destruct (Py.lower_point (Py.ord w)) as [points|] eqn:El.
  - apply lower_point_Some in El as [->|(a & b & step & t & _ & _ & ->)];
      cbn [fmap list_fmap Py.text]; apply nonempty_app, chr_nonempty.
  - by destruct Hwf as ((c & k & -> & _) & _).
Qed.

(** No lower-case image holds a plus sign. *)
Lemma lower_images_no_plus :
  forallb (fun r =>
             let '(a, b, _, t) := r in
             forallb (fun i =>
                        Py.all_chars (fun c => negb (Ascii.eqb c "+"))
                          (Py.chr (t + N.of_nat i)))
                     (seq 0 (S (N.to_nat (b - a)))))
          Py.lower_runs = true.
Proof. vm_compute. reflexivity. Qed.

Lemma lower_chars_no_plus after_cased l :
  forallb (Py.all_chars (fun c => negb (Ascii.eqb c "+"))) l = true ->
  Py.all_chars (fun c => negb (Ascii.eqb c "+")) (Py.lower_chars after_cased l)
    = true.
Proof.
  revert after_cased. induction l as [|w l IH]; intros after_cased; [done|].
  cbn [forallb Py.lower_chars]. intros [Hw Hl]%andb_true_iff.
  rewrite all_chars_app, (IH _ Hl), andb_true_r.
  destruct (Py.ord w =? 931)%N.
  { by destruct (after_cased && negb (Py.cased_next l)). }
  destruct (Py.lower_point (Py.ord w)) as [points|] eqn:El; [|done].
  apply lower_point_Some in El as [->|(a & b & step & t & Hin & Hn & ->)];
    [done|].
  cbn [fmap list_fmap Py.text]. rewrite app_empty_r.
  pose proof lower_images_no_plus as Hall. rewrite forallb_forall in Hall.
  specialize (Hall _ Hin). cbv beta iota in Hall.
  rewrite forallb_forall in Hall.
  specialize (Hall (N.to_nat (Py.ord w - a))).
  rewrite N2Nat.id in Hall. apply Hall. apply in_seq. lia.
Qed.

Lemma lower_no_plus s :
  Py.all_chars (fun c => negb (Ascii.eqb c "+")) s = true ->
  Py.all_chars (fun c => negb (Ascii.eqb c "+")) (Py.lower s) = true.
Proof.
  intros H. apply lower_chars_no_plus.
  by rewrite <- all_chars_text, text_chars.
Qed.

(** ** Digits of any script *)

Lemma isdigit_point_ascii c :
  is_ascii c = true ->
  Py.isdigit_point (Py.code c) = Py.isdigit_char c /\
  (Py.isdigit_char c = true ->
   Py.decimal (Py.code c) = Some (Py.digit_val c)).
Proof.
  destruct c as [[] [] [] [] [] [] [] []]; intros H; try discriminate H;
    split; try (intros H'; try discriminate H'); vm_compute; reflexivity.
Qed.

(** On ASCII digits the methods on any text are those on an identifier. *)
Lemma text_digits_ascii d :
  Py.isdigit d = true ->
  Py.text_isdigit d = true /\ Py.text_int d = Some (Py.int d).
Proof.
  intros Hd. assert (Py.all_chars Py.isdigit_char d = true) as Hall
    by (destruct d; [done|exact Hd]).
  assert (Py.all_chars is_ascii d = true) as Ha.
  { revert Hall. apply all_chars_impl. intros c Hc. unfold Py.isdigit_char in Hc.
    apply andb_true_iff in Hc as [_ Hc]. apply N.leb_le in Hc.
    apply N.ltb_lt. lia. }
  unfold Py.text_isdigit, Py.text_int, Py.int. rewrite (chars_ascii d Ha). split.
  - destruct d as [|c0 d0]; [done|]. set (d := String c0 d0) in *. clearbody d.
    clear Hd. induction d as [|c d IH]; [done|].
    cbn [Py.all_chars letters forallb] in *.
    apply andb_true_iff in Hall as [Hc Hall], Ha as [Hac Ha].
    rewrite (ord_ascii c Hac). destruct (isdigit_point_ascii c Hac) as [-> _].
    by rewrite Hc, IH.
  - clear Hd. generalize 0%N as acc. induction d as [|c d IH]; intros acc; [done|].
    cbn [Py.all_chars letters fold_left Py.int_acc] in *.
    apply andb_true_iff in Hall as [Hc Hall], Ha as [Hac Ha].
    rewrite (ord_ascii c Hac). destruct (isdigit_point_ascii c Hac) as [_ ->]; [|done].
    cbn [mbind option_bind]. by apply IH.
Qed.

Lemma is_char_digit_bytes w :
  is_char w -> Py.isdigit_point (Py.ord w) = true ->
  Py.all_chars (fun c => negb (is_ascii c) || Py.isdigit_char c) w = true.
Proof.
  intros (c & k & -> & Hk & Hc) Hd.
  assert (Py.all_chars (fun c => negb (is_ascii c) || Py.isdigit_char c) k = true)
    as Hk'.
  { revert Hk. apply all_chars_impl. intros d [Hd' _]%andb_true_iff.
    unfold is_ascii. apply N.leb_le in Hd'.
    destruct (N.ltb_spec (Py.code d) 128); [lia|done]. }
  cbn [Py.all_chars]. rewrite Hk', andb_true_r.
  destruct (is_ascii c) eqn:Ha; [|done]. cbn [negb orb].
  destruct Hc as [->|Hc].
  - rewrite (ord_ascii c Ha) in Hd. by destruct (isdigit_point_ascii c Ha) as [<- _].
  - unfold is_ascii in Ha. apply N.ltb_lt in Ha. apply N.leb_le in Hc. lia.
Qed.

(** A text of digits holds no ASCII character but digits. *)
Lemma text_isdigit_bytes d :
  Py.text_isdigit d = true ->
  nonempty d = true /\
  Py.all_chars (fun c => negb (is_ascii c) || Py.isdigit_char c) d = true.
Proof.
  unfold Py.text_isdigit. destruct d as [|c0 d0]; [done|].
  set (d := String c0 d0). intros H. split; [done|].
  rewrite <- (text_chars d), all_chars_text.
  pose proof (chars_are_chars d) as Hwf. clearbody d.
  induction (Py.chars d) as [|w l IH]; [done|].
  cbn [forallb] in *. apply andb_true_iff in H as [Hw Hl].
  destruct Hwf as (Hcw & _ & Hwf).
  by rewrite (is_char_digit_bytes w Hcw Hw), IH.
Qed.

(** ** Parsing and formatting *)



Lemma parse_Return s v :
  parse s = Return v ->
  exists g, SEMVER_PATTERN_match (Py.strip s) = Some g /\ groups_ok g /\
            Py.strip s = groups_text g /\ v = version_of_groups g /\
            nonempty s = true /\ Py.len s <= MAX_VERSION_LENGTH.
Proof.
  unfold parse. destruct (nonempty s) eqn:Hne; [|done]. simpl.
  destruct (Z.gtb_spec (Py.len s) MAX_VERSION_LENGTH) as [|Hlen]; [done|].
  destruct (Py.len (Py.strip s) >? MAX_VERSION_LENGTH); [done|].
  destruct (SEMVER_PATTERN_match (Py.strip s)) as [g|] eqn:E; [|done].
  intros [= <-]. exists g. split; [done|].
  destruct (SEMVER_PATTERN_match_spec _ _ E) as (tl & He & Hs & Hok).
  apply at_end_spec in He as [->| ->].
  - rewrite app_empty_r in Hs. done.
  - by apply strip_not_lf in Hs.
Qed.

Lemma chain_ok_nonempty x : chain_ok x = true -> nonempty x = true.
Proof. unfold chain_ok. by intros [[? _]%andb_true_iff _]%andb_true_iff. Qed.

Lemma to_string_version_of_groups g :
  groups_ok g -> to_string (version_of_groups g) true = groups_text g.
Proof.
  intros (Hpre & Hma & Hmi & Hpa & Hp & Hm).
  unfold to_string, groups_text, version_of_groups. cbn [major minor patch prerelease metadata prefix].
  rewrite !str_int by done.
  assert (truthy (g_prerelease g) = match g_prerelease g with Some _ => true | None => false end) as ->.
  { destruct (g_prerelease g) as [x|]; [|done]. simpl. by apply chain_ok_nonempty. }
  assert (truthy (g_metadata g) = match g_metadata g with Some _ => true | None => false end) as ->.
  { destruct (g_metadata g) as [x|]; [|done]. simpl. by apply chain_ok_nonempty. }
  destruct (g_prerelease g) as [p|], (g_metadata g) as [m|];
    destruct Hpre as [-> | [-> | ->]]; simpl;
    by rewrite ?app_assoc_s, ?app_cons_s, ?app_nil_s, ?app_assoc_s, ?app_empty_r.
Qed.

Lemma parse_to_string s v : parse s = Return v -> to_string v true = Py.strip s.
Proof.
  intros (g & _ & Hok & -> & -> & _)%parse_Return. by apply to_string_version_of_groups.
Qed.










Lemma SEMVER_PATTERN_match_nonempty s g :
  SEMVER_PATTERN_match s = Some g -> nonempty s = true.
Proof. by destruct s. Qed.

(** [parse] on a text of at most [MAX_VERSION_LENGTH] characters is the match
    of the trimmed text. *)
Lemma parse_match s g :
  Py.len s <= MAX_VERSION_LENGTH ->
  SEMVER_PATTERN_match (Py.strip s) = Some g ->
  parse s = Return (version_of_groups g).
Proof.
  intros Hlen Hm. unfold parse.
  rewrite (strip_nonempty s (SEMVER_PATTERN_match_nonempty _ _ Hm)). simpl.
  destruct (Z.gtb_spec (Py.len s) MAX_VERSION_LENGTH) as [|_]; [lia|].
  pose proof (strip_length s).
  destruct (Z.gtb_spec (Py.len (Py.strip s)) MAX_VERSION_LENGTH) as [|_]; [lia|].
  by rewrite Hm.
Qed.

Lemma str_head z :
  match Py.str z with
  | EmptyString => False
  | String c _ => c = "-"%char \/ Py.isdigit_char c = true
  end.
Proof.
  unfold Py.str. destruct (z <? 0); [by left|].
  destruct (str_of_N_spec (Z.to_N z)) as (Hall & _ & Hne).
  destruct (Py.str_of_N (Z.to_N z)) as [|c r]; [done|].
  right. simpl in Hall. by apply andb_true_iff in Hall as [? _].
Qed.

Lemma to_string_false v :
  to_string v false =
  Py.str (major v) +:+ "." +:+ Py.str (minor v) +:+ "." +:+ Py.str (patch v) +:+
  opt_part "-" (prerelease v) +:+ opt_part "+" (metadata v).
Proof.
  unfold to_string, opt_part. simpl.
  destruct (truthy (prerelease v)), (truthy (metadata v));
    by rewrite ?app_assoc_s, ?app_cons_s, ?app_nil_s, ?app_assoc_s, ?app_empty_r.
Qed.

Lemma to_string_true v : to_string v true = prefix v +:+ to_string v false.
Proof.
  unfold to_string. simpl. destruct (nonempty (prefix v)) eqn:E; [done|].
  by destruct (prefix v).
Qed.

(** ** Claims about the grammar *)

(** C4, as stated, fails: [parse] accepts a text with surrounding white space
    and the formatted record does not reproduce that white space. *)
Lemma roundtrip_counterexample :
  exists v, parse " 1.2.3" = Return v /\ to_string v true <> " 1.2.3".
Proof. eexists. split; [reflexivity|]. vm_compute. discriminate. Qed.

(** C4 (amended): for every text [s] that [parse] accepts, formatting the
    parsed record with its prefix reproduces the trimmed text [s.strip()]
    character for character, and so [s] itself when [s] has no surrounding
    white space. *)
Theorem roundtrip_parse_to_string s v :
  parse s = Return v ->
  to_string v true = Py.strip s /\ (Py.strip s = s -> to_string v true = s).
Proof.
  intros H%parse_to_string. split; [done|]. intros Hs. by rewrite H.
Qed.

Lemma roundtrip_witness :
  let s := "V1.2.3-rc.1+build.5" +:+ String "194" (String "160" EmptyString) in
  let v := mkSemanticVersion 1 2 3 (Some "rc.1") (Some "build.5") "V" in
  parse s = Return v /\
  to_string v true = Py.strip s /\
  Py.strip s = "V1.2.3-rc.1+build.5".
Proof.
  intros s v.
  assert (parse s = Return v) as E by (vm_compute; reflexivity).
  split; [exact E|]. split; [|vm_compute; reflexivity].
  apply (roundtrip_parse_to_string s v E).
Defined.

(** C8, as stated, fails: the numeric rendering of a version parsed from a
    text with metadata carries the metadata. *)
Lemma numeric_version_counterexample :
  exists v, parse "v1.2.3-rc.1+build.5" = Return v /\
            metadata v = Some "build.5" /\
            numeric_version v = "1.2.3-rc.1+build.5".
Proof. eexists. split; [reflexivity|]. split; reflexivity. Qed.

(** C8 (amended): for every version the numeric rendering is the full
    rendering without the prefix: it is major.minor.patch, then the
    pre-release chain after a hyphen when there is one, then the build
    metadata after a plus sign when there is some; it starts with a digit or
    a minus sign, never with the prefix. *)
Theorem numeric_version_spec v :
  to_string v true = prefix v +:+ numeric_version v /\
  numeric_version v =
    Py.str (major v) +:+ "." +:+ Py.str (minor v) +:+ "." +:+ Py.str (patch v) +:+
    opt_part "-" (prerelease v) +:+ opt_part "+" (metadata v) /\
  match numeric_version v with
  | EmptyString => False
  | String c _ => c = "-"%char \/ Py.isdigit_char c = true
  end.
Proof.
  unfold numeric_version. split; [apply to_string_true|].
  split; [apply to_string_false|]. rewrite to_string_false.
  pose proof (str_head (major v)) as H. by destruct (Py.str (major v)).
Qed.

(** C9, as stated, fails: a text longer than the cap is refused before it is
    trimmed, although its trimmed form matches the grammar. *)
Lemma parse_trim_counterexample :
  let s := "1.2.3" +:+ repeat_char 996 " " in
  Py.strip s = "1.2.3" /\
  is_Return (parse (Py.strip s)) = true /\
  is_Return (parse s) = false.
Proof. vm_compute. done. Qed.

(** C9 (amended): for every text [s] of at most 1000 characters whose trimmed
    form matches the version pattern, [parse s] succeeds and returns the
    record [parse] returns for the trimmed form; formatting it gives the
    trimmed text, with none of the surrounding white space. *)
Theorem parse_strip s :
  Py.len s <= MAX_VERSION_LENGTH ->
  is_Some (SEMVER_PATTERN_match (Py.strip s)) ->
  exists v, parse s = Return v /\ parse (Py.strip s) = Return v /\
            to_string v true = Py.strip s.
Proof.
  intros Hlen [g Hg]. exists (version_of_groups g).
  assert (parse s = Return (version_of_groups g)) as Hp by by apply parse_match.
  split; [done|]. split.
  - apply parse_match; [pose proof (strip_length s); lia|]. by rewrite strip_idem.
  - by apply parse_to_string.
Qed.

Lemma parse_strip_witness :
  let s := "  v1.2.3-alpha.1 " +:+ String "194" (String "160" EmptyString) in
  exists v, parse s = Return v /\ parse (Py.strip s) = Return v /\
            to_string v true = Py.strip s.
Proof.
  intros s.
  apply (parse_strip s); [vm_compute; discriminate|].
  vm_compute. eauto.
Defined.

(** ** Claims about the kind of increment *)

(** C6, as stated, fails: the text [dev] names the member [DEV], a member of
    its own, not [PRERELEASE]. *)
Lemma determine_increment_type_counterexample :
  determine_increment_type "dev" = Return DEV /\ DEV <> PRERELEASE.
Proof. split; [reflexivity|discriminate]. Qed.

(** The string is put in lower case and trimmed of any white space, here a
    no-break space, before it is looked up. *)
Example determine_increment_type_trims :
  determine_increment_type
    (" MAJOR" +:+ String "194" (String "160" EmptyString)) = Return MAJOR.
Proof. vm_compute. reflexivity. Qed.

Lemma determine_increment_type_other t :
  t <> "major" -> t <> "minor" -> t <> "patch" -> t <> "prerelease" ->
  t <> "dev" -> t <> "pre" -> t <> "prerel" ->
  List.find (fun k => String.eqb (IncrementType_value k) t) IncrementType_members = None /\
  aliases !! t = None.
Proof.
  intros H1 H2 H3 H4 H5 H6 H7. split.
  - unfold IncrementType_members. cbn [List.find IncrementType_value].
    repeat match goal with
           | |- context [String.eqb ?a t] =>
               destruct (String.eqb_spec a t) as [E|_]; [congruence|]
           end.
    done.
  - unfold aliases. by rewrite !lookup_insert_ne, lookup_empty.
Qed.

(** C6 (amended): with [t] the lower-cased, trimmed text, [major], [minor],
    [patch] and [prerelease] name their kinds, [pre] and [prerel] name
    [PRERELEASE], and [dev] names [DEV], a member of its own that [increment]
    treats exactly as [PRERELEASE]; any other text is refused with a
    [ValueError]. *)
Theorem determine_increment_type_spec s :
  let t := Py.strip (Py.lower s) in
  (t = "major" -> determine_increment_type s = Return MAJOR) /\
  (t = "minor" -> determine_increment_type s = Return MINOR) /\
  (t = "patch" -> determine_increment_type s = Return PATCH) /\
  (t = "prerelease" -> determine_increment_type s = Return PRERELEASE) /\
  (t = "pre" -> determine_increment_type s = Return PRERELEASE) /\
  (t = "prerel" -> determine_increment_type s = Return PRERELEASE) /\
  (t = "dev" -> determine_increment_type s = Return DEV) /\
  (t <> "major" -> t <> "minor" -> t <> "patch" -> t <> "prerelease" ->
   t <> "dev" -> t <> "pre" -> t <> "prerel" ->
   exists msg, determine_increment_type s = Raise (ValueError msg)) /\
  (forall version prerelease_type,
     increment version DEV prerelease_type =
     increment version PRERELEASE prerelease_type).
Proof.
  intros t. unfold determine_increment_type. fold t.
  repeat split; try (by intros ->).
  intros H1 H2 H3 H4 H5 H6 H7.
  destruct (determine_increment_type_other t H1 H2 H3 H4 H5 H6 H7) as [-> ->].
  eauto.
Qed.

(** ** The label switch of a pre-release *)

Lemma identifiers_is_prerelease v id0 rest :
  get_prerelease_identifiers v = id0 :: rest -> is_prerelease v = true.
Proof. unfold get_prerelease_identifiers, is_prerelease. by destruct (prerelease v). Qed.

(** C10: for every version whose pre-release chain starts with a non-empty
    identifier and every non-empty label that differs from it when both are
    lower-cased, [increment] with kind [PRERELEASE] returns [label.1] at the
    same major, minor and patch, and leaves the instance as it found it: the
    cache of the oracle is not built and the existing tags are not read,
    whatever they hold. *)
Theorem increment_prerelease_label_switch self version label id0 rest :
  get_prerelease_identifiers version = id0 :: rest ->
  nonempty id0 = true ->
  nonempty label = true ->
  Py.lower id0 <> Py.lower label ->
  increment version PRERELEASE (Some label) self =
    (Return {| major := major version; minor := minor version;
               patch := patch version;
               prerelease := Some (label +:+ ".1");
               metadata := if preserve_metadata self then metadata version else None;
               prefix := prefix version |},
     self).
Proof.
  intros Hids Hid0 Hlabel Hne.
  unfold increment, _increment_prerelease.
  rewrite (identifiers_is_prerelease _ _ _ Hids), Hids. simpl.
  rewrite Hlabel. simpl.
  assert (nonempty (Py.lower id0) = true) as -> by by apply lower_nonempty.
  destruct (String.eqb_spec (Py.lower id0) (Py.lower label)) as [|_]; [done|].
  reflexivity.
Qed.

Lemma increment_prerelease_label_switch_witness :
  let self := __init__ (Some {[ "1.0.0-beta.1" ]}) false in
  let version := mkSemanticVersion 1 0 0 (Some "alpha.3") None EmptyString in
  increment version PRERELEASE (Some "beta") self =
    (Return (mkSemanticVersion 1 0 0 (Some "beta.1") None EmptyString), self) /\
  fst (_version_exists (mkSemanticVersion 1 0 0 (Some "beta.1") None EmptyString) self)
    = Return true.
Proof.
  split.
  - apply (increment_prerelease_label_switch
             (__init__ (Some {[ "1.0.0-beta.1" ]}) false)
             (mkSemanticVersion 1 0 0 (Some "alpha.3") None EmptyString)
             "beta" "alpha" ["3"]); [reflexivity|reflexivity|reflexivity|].
    vm_compute. discriminate.
  - vm_compute. reflexivity.
Defined.

(** ** Precedence is an order *)

Lemma ascii_compare_refl c : Ascii.compare c c = Eq.
Proof. unfold Ascii.compare. apply N.compare_refl. Qed.

Lemma string_compare_refl s : String.compare s s = Eq.
Proof. induction s as [|c s IH]; simpl; [done|]. by rewrite ascii_compare_refl. Qed.

Lemma string_compare_eq s t : String.compare s t = Eq <-> s = t.
Proof. split; [apply String.compare_eq_iff|intros ->; apply string_compare_refl]. Qed.

Lemma ascii_compare_trans a b c :
  Ascii.compare a b = Lt -> Ascii.compare b c = Lt -> Ascii.compare a c = Lt.
Proof. unfold Ascii.compare. rewrite !N.compare_lt_iff. lia. Qed.

Lemma string_compare_trans s t u :
  String.compare s t = Lt -> String.compare t u = Lt -> String.compare s u = Lt.
Proof.
  revert t u. induction s as [|a s IH]; intros [|b t] [|c u]; simpl; try done.
  destruct (Ascii.compare a b) eqn:Eab; try done.
  - apply Ascii.compare_eq_iff in Eab as ->.
    destruct (Ascii.compare b c); try done. apply IH.
  - destruct (Ascii.compare b c) eqn:Ebc; try done.
    + apply Ascii.compare_eq_iff in Ebc as <-. by rewrite Eab.
    + by rewrite (ascii_compare_trans _ _ _ Eab Ebc).
Qed.

Lemma string_compare_gt s t : String.compare s t = Gt <-> String.compare t s = Lt.
Proof. rewrite (String.compare_antisym t s). by destruct (String.compare s t). Qed.

Lemma compare_id_laws : order_laws compare_id.
Proof.
  split.
  - intros a b. unfold compare_id, Py.str_lt, Py.str_gt.
    destruct (Py.isdigit a), (Py.isdigit b); simpl; try lia.
    + destruct (Z.eqb_spec (Py.int a - Py.int b) 0); simpl; [lia|].
      destruct (Py.int a - Py.int b <? 0); lia.
    + destruct (String.compare a b); lia.
  - intros a. unfold compare_id, Py.str_lt, Py.str_gt.
    rewrite string_compare_refl, Z.sub_diag.
    by destruct (Py.isdigit a).
  - intros a b. unfold compare_id, Py.str_lt, Py.str_gt.
    rewrite (String.compare_antisym a b).
    destruct (Py.isdigit a), (Py.isdigit b); simpl; try lia.
    + destruct (Z.eqb_spec (Py.int b - Py.int a) 0), (Z.eqb_spec (Py.int a - Py.int b) 0);
        simpl; try lia.
      destruct (Z.ltb_spec (Py.int b - Py.int a) 0), (Z.ltb_spec (Py.int a - Py.int b) 0); lia.
    + by destruct (String.compare b a).
  - intros a b c. unfold compare_id, Py.str_lt, Py.str_gt.
    destruct (Py.isdigit a), (Py.isdigit b), (Py.isdigit c); simpl; try lia.
    + destruct (Z.eqb_spec (Py.int a - Py.int b) 0), (Z.eqb_spec (Py.int b - Py.int c) 0),
        (Z.eqb_spec (Py.int a - Py.int c) 0); simpl; try lia;
      destruct (Z.ltb_spec (Py.int a - Py.int b) 0), (Z.ltb_spec (Py.int b - Py.int c) 0),
        (Z.ltb_spec (Py.int a - Py.int c) 0); lia.
    + destruct (String.compare a b) eqn:Eab; try lia.
      destruct (String.compare b c) eqn:Ebc; try lia.
      intros _ _. by rewrite (string_compare_trans _ _ _ Eab Ebc).
  - intros a b c. unfold compare_id, Py.str_lt, Py.str_gt.
    destruct (Py.isdigit a) eqn:Ha, (Py.isdigit b) eqn:Hb; simpl; try lia.
    + destruct (Z.eqb_spec (Py.int a - Py.int b) 0) as [E|E]; simpl.
      * intros _. assert (Py.int a = Py.int b) as -> by lia.
        by destruct (Py.isdigit c).
      * destruct (Py.int a - Py.int b <? 0); lia.
    + destruct (String.compare a b) eqn:Eab; try lia.
      by apply String.compare_eq_iff in Eab as ->.
Qed.

Lemma compare_ids_laws : order_laws compare_ids.
Proof.
  destruct compare_id_laws as [Hrange Hrefl Hanti Htrans Hlevel].
  split.
  - intros a. induction a as [|x a IH]; intros [|y b]; simpl; try lia.
    destruct (Z.eqb_spec (compare_id x y) 0); [apply IH|].
    destruct (Hrange x y) as [?|[?|?]]; lia.
  - intros a. induction a as [|x a IH]; simpl; [done|]. by rewrite Hrefl.
  - intros a. induction a as [|x a IH]; intros [|y b]; simpl; try done.
    rewrite (Hanti x y).
    destruct (Z.eqb_spec (compare_id x y) 0), (Z.eqb_spec (- compare_id x y) 0);
      try lia. apply IH.
  - intros a. induction a as [|x a IH]; intros [|y b] [|z c]; simpl; try done.
    destruct (Z.eqb_spec (compare_id x y) 0) as [Exy|Exy].
    + rewrite (Hlevel x y z Exy).
      destruct (Z.eqb_spec (compare_id y z) 0); [apply IH|done].
    + intros Hxy. destruct (Z.eqb_spec (compare_id y z) 0) as [Eyz|Eyz].
      * intros _. assert (compare_id x z = compare_id x y) as ->.
        { assert (compare_id z x = compare_id y x) as H
            by (apply Hlevel; rewrite (Hanti y z); lia).
          rewrite (Hanti x z), (Hanti x y) in H. lia. }
        destruct (Z.eqb_spec (compare_id x y) 0); [lia|done].
      * intros Hyz. rewrite (Htrans x y z Hxy Hyz). reflexivity.
  - intros a. induction a as [|x a IH]; intros [|y b] [|z c]; simpl; try done.
    destruct (Z.eqb_spec (compare_id x y) 0) as [Exy|Exy]; [|intros; lia].
    intros H. rewrite (Hlevel x y z Exy).
    destruct (Z.eqb_spec (compare_id y z) 0); [by apply IH|done].
Qed.

Lemma compare_identifiers_from_spec n i ids1 ids2 :
  n = (Nat.max (length ids1) (length ids2) - i)%nat ->
  compare_identifiers_from n i ids1 ids2 = compare_ids (drop i ids1) (drop i ids2).
Proof.
  revert i. induction n as [|n IH]; intros i Hn.
  - rewrite !drop_ge by lia. done.
  - cbn [compare_identifiers_from].
    destruct (ids1 !! i) as [id1|] eqn:E1, (ids2 !! i) as [id2|] eqn:E2.
    + rewrite (drop_S _ _ _ E1), (drop_S _ _ _ E2). cbn [compare_ids].
      rewrite <- IH by lia. unfold compare_id.
      destruct (Py.isdigit id1), (Py.isdigit id2); simpl; try done.
      * destruct (Z.eqb_spec (Py.int id1 - Py.int id2) 0) as [->|Hne]; simpl; [done|].
        destruct (Z.ltb_spec (Py.int id1 - Py.int id2) 0); simpl; [done|].
        done.
      * destruct (Py.str_lt id1 id2); [done|]. by destruct (Py.str_gt id1 id2).
    + rewrite (drop_S _ _ _ E1). apply lookup_ge_None in E2.
      by rewrite (drop_ge ids2) by done.
    + rewrite (drop_S _ _ _ E2). apply lookup_ge_None in E1.
      by rewrite (drop_ge ids1) by done.
    + apply lookup_ge_None in E1, E2. lia.
Qed.

Lemma _compare_prerelease_identifiers_spec pre1 pre2 :
  _compare_prerelease_identifiers (Some pre1) (Some pre2) =
  compare_ids (Py.split "." pre1) (Py.split "." pre2).
Proof.
  unfold _compare_prerelease_identifiers.
  rewrite compare_identifiers_from_spec by lia. by rewrite !drop_0.
Qed.

Lemma tuple_lt_spec a1 a2 a3 b1 b2 b3 :
  tuple_lt (a1, a2, a3) (b1, b2, b3) = true <->
  a1 < b1 \/ (a1 = b1 /\ (a2 < b2 \/ (a2 = b2 /\ a3 < b3))).
Proof.
  unfold tuple_lt. rewrite !orb_true_iff, !andb_true_iff, !orb_true_iff, !andb_true_iff.
  rewrite !Z.ltb_lt, !Z.eqb_eq. done.
Qed.

(** [compare_precedence], with the comparison of the chains spelled out. *)
Lemma compare_precedence_spec a b :
  compare_precedence a b =
  if tuple_lt (core_version a) (core_version b) then -1
  else if tuple_lt (core_version b) (core_version a) then 1
  else match prerelease a, prerelease b with
       | None, None => 0
       | None, Some _ => 1
       | Some _, None => -1
       | Some p, Some q => compare_ids (Py.split "." p) (Py.split "." q)
       end.
Proof.
  unfold compare_precedence, is_prerelease.
  destruct (tuple_lt (core_version a) (core_version b)); [done|].
  destruct (tuple_lt (core_version b) (core_version a)); [done|].
  destruct (prerelease a), (prerelease b); simpl; try done.
  apply _compare_prerelease_identifiers_spec.
Qed.

Lemma compare_precedence_laws : order_laws compare_precedence.
Proof.
  destruct compare_ids_laws as [Hrange Hrefl Hanti Htrans Hlevel].
  split.
  - intros a b. rewrite compare_precedence_spec.
    destruct (tuple_lt _ _); [lia|]. destruct (tuple_lt _ _); [lia|].
    destruct (prerelease a), (prerelease b); try lia. apply Hrange.
  - intros [a1 a2 a3 pa ma xa]. rewrite compare_precedence_spec. unfold core_version; cbn [major minor patch prerelease].
    destruct (tuple_lt (a1, a2, a3) (a1, a2, a3)) eqn:E.
    { apply tuple_lt_spec in E. lia. }
    destruct pa; [apply Hrefl|done].
  - intros [a1 a2 a3 pa ma xa] [b1 b2 b3 pb mb xb].
    rewrite !compare_precedence_spec. unfold core_version; cbn [major minor patch prerelease].
    destruct (tuple_lt (a1, a2, a3) (b1, b2, b3)) eqn:E1;
      destruct (tuple_lt (b1, b2, b3) (a1, a2, a3)) eqn:E2;
      try apply tuple_lt_spec in E1; try apply tuple_lt_spec in E2; try lia.
    destruct pa, pb; try done; apply Hanti.
  - intros [a1 a2 a3 pa ma xa] [b1 b2 b3 pb mb xb] [c1 c2 c3 pc mc xc].
    rewrite !compare_precedence_spec. unfold core_version; cbn [major minor patch prerelease].
    destruct (tuple_lt (a1, a2, a3) (b1, b2, b3)) eqn:E1;
      destruct (tuple_lt (b1, b2, b3) (a1, a2, a3)) eqn:E2;
      destruct (tuple_lt (b1, b2, b3) (c1, c2, c3)) eqn:E3;
      destruct (tuple_lt (c1, c2, c3) (b1, b2, b3)) eqn:E4;
      destruct (tuple_lt (a1, a2, a3) (c1, c2, c3)) eqn:E5;
      destruct (tuple_lt (c1, c2, c3) (a1, a2, a3)) eqn:E6;
      try done;
      try apply tuple_lt_spec in E1; try apply tuple_lt_spec in E2;
      try apply tuple_lt_spec in E3; try apply tuple_lt_spec in E4;
      try apply tuple_lt_spec in E5; try apply tuple_lt_spec in E6;
      try (apply not_true_iff_false in E1; rewrite tuple_lt_spec in E1);
      try (apply not_true_iff_false in E2; rewrite tuple_lt_spec in E2);
      try (apply not_true_iff_false in E3; rewrite tuple_lt_spec in E3);
      try (apply not_true_iff_false in E4; rewrite tuple_lt_spec in E4);
      try (apply not_true_iff_false in E5; rewrite tuple_lt_spec in E5);
      try (apply not_true_iff_false in E6; rewrite tuple_lt_spec in E6);
      try lia.
    destruct pa, pb, pc; try done; apply Htrans.
  - intros [a1 a2 a3 pa ma xa] [b1 b2 b3 pb mb xb] [c1 c2 c3 pc mc xc].
    rewrite !compare_precedence_spec. unfold core_version; cbn [major minor patch prerelease].
    destruct (tuple_lt (a1, a2, a3) (b1, b2, b3)) eqn:E1; [done|].
    destruct (tuple_lt (b1, b2, b3) (a1, a2, a3)) eqn:E2; [done|].
    apply not_true_iff_false in E1, E2. rewrite tuple_lt_spec in E1, E2.
    assert (a1 = b1 /\ a2 = b2 /\ a3 = b3) as (-> & -> & ->) by lia.
    intros H. destruct (tuple_lt (b1, b2, b3) (c1, c2, c3)); [done|].
    destruct (tuple_lt (c1, c2, c3) (b1, b2, b3)); [done|].
    destruct pa, pb; try done. destruct pc; [|done]. by apply Hlevel.
Qed.

(** ** Claim about precedence *)

(** C5: [compare_precedence] orders versions.  It answers [-1], [0] or [1];
    every version is level with itself; swapping the arguments negates the
    answer, so [a < b] exactly when [b > a] and at most one of [<], [=], [>]
    holds; [a < b] and [b < c] give [a < c]; and a pre-release compares
    strictly below the release with the same major, minor and patch. *)
Theorem compare_precedence_total_order :
  (forall a, compare_precedence a a = 0) /\
  (forall a b, compare_precedence b a = - compare_precedence a b) /\
  (forall a b, version_lt a b = version_gt b a) /\
  (forall a b,
     (version_lt a b = true /\ version_eq a b = false /\ version_gt a b = false) \/
     (version_lt a b = false /\ version_eq a b = true /\ version_gt a b = false) \/
     (version_lt a b = false /\ version_eq a b = false /\ version_gt a b = true)) /\
  (forall a b c,
     version_lt a b = true -> version_lt b c = true -> version_lt a c = true) /\
  (forall p r,
     is_prerelease p = true -> is_prerelease r = false ->
     core_version p = core_version r ->
     compare_precedence p r = -1 /\ version_lt p r = true).
Proof.
  destruct compare_precedence_laws as [Hrange Hrefl Hanti Htrans Hlevel].
  assert (forall a b, version_lt a b = true <-> compare_precedence a b = -1) as Hlt.
  { intros a b. unfold version_lt. rewrite Z.ltb_lt.
    destruct (Hrange a b) as [?|[?|?]]; lia. }
  repeat split.
  - apply Hrefl.
  - apply Hanti.
  - intros a b. unfold version_lt, version_gt. rewrite (Hanti a b).
    destruct (Z.ltb_spec (compare_precedence a b) 0), (Z.gtb_spec (- compare_precedence a b) 0);
      try done; lia.
  - intros a b. unfold version_lt, version_eq, version_gt.
    destruct (Hrange a b) as [-> |[-> | ->]]; simpl; auto.
  - intros a b c. rewrite !Hlt. apply Htrans.
  - destruct p as [p1 p2 p3 [pp|] pm px]; [|done].
    destruct r as [r1 r2 r3 [rp|] rm rx]; [done|].
    injection H1 as -> -> ->. rewrite compare_precedence_spec. unfold core_version; cbn [major minor patch prerelease].
    destruct (tuple_lt (r1, r2, r3) (r1, r2, r3)) eqn:E; [|done].
    apply tuple_lt_spec in E. lia.
  - apply Hlt. destruct p as [p1 p2 p3 [pp|] pm px]; [|done].
    destruct r as [r1 r2 r3 [rp|] rm rx]; [done|].
    injection H1 as -> -> ->. rewrite compare_precedence_spec. unfold core_version; cbn [major minor patch prerelease].
    destruct (tuple_lt (r1, r2, r3) (r1, r2, r3)) eqn:E; [|done].
    apply tuple_lt_spec in E. lia.
Qed.

(** ** The engine and the existing tags *)

Section Runs.
Context (T : gset string) (pm : bool).

Lemma runs_ret {A} (a : A) : runs T pm (ret a) (Return a).
Proof. intros self Hc HT Hpm. exists self. by repeat split. Qed.

Lemma runs_raise {A} (e : exn) : runs T pm (raise (A := A) e) (Raise e).
Proof. intros self Hc HT Hpm. exists self. by repeat split. Qed.

Lemma runs_bind {A B} (m : Eng A) (k : A -> Eng B) a r :
  runs T pm m (Return a) -> runs T pm (k a) r -> runs T pm (bind m k) r.
Proof.
  intros Hm Hk self Hc HT Hpm.
  destruct (Hm self Hc HT Hpm) as (self1 & E1 & Hc1 & HT1 & Hpm1).
  destruct (Hk self1 Hc1 HT1 Hpm1) as (self2 & E2 & Hc2 & HT2 & Hpm2).
  exists self2. unfold bind. rewrite E1. by repeat split.
Qed.

Lemma runs_bind_raise {A B} (m : Eng A) (k : A -> Eng B) e :
  runs T pm m (Raise e) -> runs T pm (bind m k) (Raise e).
Proof.
  intros Hm self Hc HT Hpm.
  destruct (Hm self Hc HT Hpm) as (self1 & E1 & Hc1 & HT1 & Hpm1).
  exists self1. unfold bind. rewrite E1. by repeat split.
Qed.

Lemma runs_self_preserve_metadata : runs T pm self_preserve_metadata (Return pm).
Proof. intros self Hc HT Hpm. exists self. unfold self_preserve_metadata. by rewrite Hpm. Qed.

Lemma runs_self_existing_tags : runs T pm self_existing_tags (Return T).
Proof. intros self Hc HT Hpm. exists self. unfold self_existing_tags. by rewrite HT. Qed.

Lemma runs_version_exists version :
  runs T pm (_version_exists version) (Return (used T version)).
Proof.
  intros self Hc HT Hpm. unfold _version_exists, used. rewrite HT.
  destruct (decide (T = ∅)) as [E|E]; [exists self; by repeat split|].
  assert (match _normalized_tags_cache self with
          | None => set_map _normalize_version_string T
          | Some cache => cache
          end = normalized_tags T) as ->.
  { destruct Hc as [Hc | [-> | ->]]; [congruence|done|by rewrite HT]. }
  eexists. split; [reflexivity|]. split; [by right; right|]. by split.
Qed.

Lemma runs_for_first {X A} (xs : list X) (body : X -> Eng (option A)) f :
  (forall x, x ∈ xs -> runs T pm (body x) (Return (f x))) ->
  runs T pm (for_first xs body) (Return (first_some f xs)).
Proof.
  induction xs as [|x xs IH]; intros Hbody; simpl.
  - apply runs_ret.
  - eapply runs_bind; [apply Hbody; by left|].
    destruct (f x); [apply runs_ret|]. apply IH. intros y Hy. apply Hbody. by right.
Qed.

Lemma runs_find_available ma mi pa label start max_attempts meta pre :
  runs T pm
    (_find_available_prerelease_version ma mi pa label start max_attempts meta pre)
    (Return (find_available_result T ma mi pa label start max_attempts meta pre)).
Proof.
  apply runs_for_first. intros counter _.
  eapply runs_bind; [apply runs_version_exists|]. apply runs_ret.
Qed.

Lemma runs_next_available_loop fuel base identifiers index original_id counter :
  runs T pm
    (next_available_loop fuel base identifiers index original_id counter)
    (next_available_loop_result T fuel base identifiers index original_id counter).
Proof.
  revert counter. induction fuel as [|fuel IH]; intros counter;
    cbn [next_available_loop next_available_loop_result];
    (eapply runs_bind; [apply runs_version_exists|]);
    destruct (negb (used T _)); try apply runs_ret;
    destruct (counter + 1 >? MAX_PRERELEASE_ATTEMPTS); try apply runs_raise.
  apply IH.
Qed.

Lemma runs_find_next_available_version base :
  runs T pm (_find_next_available_version base)
    (find_next_available_version_result T pm base).
Proof.
  unfold _find_next_available_version, find_next_available_version_result.
  destruct (negb (is_prerelease base)); [apply runs_raise|].
  destruct (last_component _) as [[[index original_id] numeric_value]|].
  - apply runs_next_available_loop.
  - eapply runs_bind; [apply runs_self_preserve_metadata|]. apply runs_ret.
Qed.

Lemma runs_conflict base label :
  runs T pm (_find_next_available_prerelease_for_conflict base label)
    (conflict_result T pm base label).
Proof.
  unfold _find_next_available_prerelease_for_conflict, conflict_result.
  eapply runs_bind; [apply runs_find_available|].
  destruct (find_available_result _ _ _ _ _ _ _ _ _); [apply runs_ret|].
  eapply runs_bind; [apply runs_version_exists|].
  destruct (negb (used T _)); [apply runs_ret|].
  apply runs_find_next_available_version.
Qed.

Lemma runs_patch_scan candidate version :
  runs T pm (patch_scan candidate version)
    (Return (patch_scan_result T pm candidate version)).
Proof.
  apply runs_for_first. intros p _.
  eapply runs_bind; [apply runs_self_preserve_metadata|].
  eapply runs_bind; [apply runs_version_exists|]. apply runs_ret.
Qed.

Lemma runs_increment_major version :
  runs T pm (_increment_major version) (increment_major_result T pm version).
Proof.
  unfold _increment_major, increment_major_result, bump_result.
  eapply runs_bind; [apply runs_self_preserve_metadata|].
  eapply runs_bind; [apply runs_version_exists|]. fold (release pm version (major version + 1) 0 0).
  destruct (used T _); [|apply runs_ret].
  eapply runs_bind; [apply runs_patch_scan|].
  destruct (patch_scan_result _ _ _ _); [apply runs_ret|apply runs_conflict].
Qed.

Lemma runs_increment_minor version :
  runs T pm (_increment_minor version) (increment_minor_result T pm version).
Proof.
  unfold _increment_minor, increment_minor_result, bump_result.
  eapply runs_bind; [apply runs_self_preserve_metadata|].
  eapply runs_bind; [apply runs_version_exists|].
  fold (release pm version (major version) (minor version + 1) 0).
  destruct (used T _); [|apply runs_ret].
  eapply runs_bind; [apply runs_patch_scan|].
  destruct (patch_scan_result _ _ _ _); [apply runs_ret|apply runs_conflict].
Qed.

Lemma runs_get_existing_patches ma mi :
  runs T pm (_get_existing_patches ma mi) (Return (existing_patches T ma mi)).
Proof.
  unfold _get_existing_patches.
  eapply runs_bind; [apply runs_self_existing_tags|]. apply runs_ret.
Qed.

Lemma runs_find_next_available_patch version :
  runs T pm (_find_next_available_patch version)
    (Return (find_next_available_patch_result T pm version)).
Proof.
  unfold _find_next_available_patch.
  eapply runs_bind; [apply runs_get_existing_patches|].
  apply runs_for_first. intros p _.
  destruct (negb (bool_decide _)); [|apply runs_ret].
  eapply runs_bind; [apply runs_self_preserve_metadata|].
  eapply runs_bind; [apply runs_version_exists|]. apply runs_ret.
Qed.

Lemma runs_create_conflict_prerelease version label :
  runs T pm (_create_conflict_prerelease version label)
    (create_conflict_prerelease_result T pm version label).
Proof.
  unfold _create_conflict_prerelease, create_conflict_prerelease_result.
  eapply runs_bind; [apply runs_self_preserve_metadata|].
  eapply runs_bind; [apply runs_version_exists|].
  destruct (negb (used T _)); [apply runs_ret|apply runs_conflict].
Qed.

Lemma runs_increment_patch version label :
  runs T pm (_increment_patch version label)
    (increment_patch_result T pm version label).
Proof.
  unfold _increment_patch, increment_patch_result, _create_patch_candidate.
  eapply runs_bind; [eapply runs_bind; [apply runs_self_preserve_metadata|apply runs_ret]|].
  eapply runs_bind; [apply runs_version_exists|].
  fold (release pm version (major version) (minor version) (patch version + 1)).
  destruct (negb (used T _)); [apply runs_ret|].
  unfold _resolve_patch_conflict.
  eapply runs_bind; [apply runs_find_next_available_patch|].
  destruct (find_next_available_patch_result _ _ _);
    [apply runs_ret|apply runs_create_conflict_prerelease].
Qed.

Lemma runs_create_first_prerelease version prerelease_type :
  runs T pm (_create_first_prerelease version prerelease_type)
    (Return (create_first_prerelease_result T pm version prerelease_type)).
Proof.
  unfold _create_first_prerelease, create_first_prerelease_result.
  eapply runs_bind.
  { apply runs_for_first. intros p _. apply runs_find_available. }
  destruct (first_some _ _); [apply runs_ret|].
  eapply runs_bind; [apply runs_self_preserve_metadata|]. apply runs_ret.
Qed.

Lemma runs_increment_existing_prerelease version :
  runs T pm (_increment_existing_prerelease version)
    (increment_existing_prerelease_result T pm version).
Proof.
  unfold _increment_existing_prerelease, increment_existing_prerelease_result.
  eapply runs_bind; [apply runs_self_preserve_metadata|].
  eapply runs_bind; [apply runs_version_exists|].
  fold (incremented_prerelease version).
  destruct (used T _); [|apply runs_ret].
  eapply runs_bind; [apply runs_find_available|].
  destruct (find_available_result _ _ _ _ _ _ _ _ _); [apply runs_ret|apply runs_raise].
Qed.

Lemma runs_increment_prerelease version prerelease_type :
  runs T pm (_increment_prerelease version prerelease_type)
    (increment_prerelease_result T pm version prerelease_type).
Proof.
  unfold _increment_prerelease, increment_prerelease_result.
  destruct (negb (is_prerelease version)); [apply runs_create_first_prerelease|].
  fold (switches_label version prerelease_type).
  destruct (switches_label version prerelease_type).
  - eapply runs_bind; [apply runs_self_preserve_metadata|]. apply runs_ret.
  - apply runs_increment_existing_prerelease.
Qed.

Lemma runs_increment version increment_type prerelease_type :
  runs T pm (increment version increment_type prerelease_type)
    (increment_result T pm version increment_type prerelease_type).
Proof.
  destruct increment_type; simpl.
  - apply runs_increment_major.
  - apply runs_increment_minor.
  - apply runs_increment_patch.
  - apply runs_increment_prerelease.
  - apply runs_increment_prerelease.
Qed.

End Runs.

Lemma cache_ok_init tags preserve : cache_ok (__init__ tags preserve).
Proof. by right; left. Qed.

(** What [increment] returns from a sound instance. *)
Lemma increment_run self version increment_type prerelease_type :
  cache_ok self ->
  exists self',
    increment version increment_type prerelease_type self =
      (increment_result (existing_tags self) (preserve_metadata self)
         version increment_type prerelease_type, self') /\
    cache_ok self' /\
    existing_tags self' = existing_tags self /\
    preserve_metadata self' = preserve_metadata self.
Proof. intros Hc. by apply runs_increment. Qed.

(** ** Bounded searches *)

Lemma first_some_None {X A} (f : X -> option A) xs :
  first_some f xs = None <-> forall x, x ∈ xs -> f x = None.
Proof.
  induction xs as [|x xs IH]; simpl.
  - split; [intros _ x Hx; by apply elem_of_nil in Hx|done].
  - destruct (f x) eqn:E.
    + split; [done|]. intros H. specialize (H x ltac:(by left)). congruence.
    + rewrite IH. split.
      * intros H y [->|Hy]%elem_of_cons; auto.
      * intros H y Hy. apply H. by right.
Qed.

Lemma first_some_Some {X A} (f : X -> option A) xs a :
  first_some f xs = Some a -> exists x, x ∈ xs /\ f x = Some a.
Proof.
  induction xs as [|x xs IH]; simpl; [done|].
  destruct (f x) eqn:E.
  - intros [= ->]. exists x. split; [by left|done].
  - intros (y & Hy & Hf)%IH. exists y. split; [by right|done].
Qed.

Lemma elem_of_range a b x : x ∈ range a b <-> a <= x < b.
Proof. unfold range. rewrite elem_of_seqZ. lia. Qed.

Lemma range_cons a b : a < b -> range a b = a :: range (a + 1) b.
Proof.
  intros H. unfold range. rewrite seqZ_cons by lia.
  f_equal. f_equal; lia.
Qed.

Lemma range_nil a b : b <= a -> range a b = [].
Proof. intros H. unfold range. apply seqZ_nil. lia. Qed.

Lemma first_some_range_None {A} (f : Z -> option A) a b :
  first_some f (range a b) = None <-> forall x, a <= x < b -> f x = None.
Proof.
  rewrite first_some_None. split.
  - intros H x Hx. apply H. by apply elem_of_range.
  - intros H x Hx%elem_of_range. by apply H.
Qed.

(** The first value of a loop over a range is the value at the least index
    where the body returns one. *)
Lemma first_some_range_Some {A} (f : Z -> option A) a b x y :
  a <= x < b -> f x = Some y -> (forall x', a <= x' < x -> f x' = None) ->
  first_some f (range a b) = Some y.
Proof.
  intros Hx Hf Hbefore.
  remember (Z.to_nat (x - a)) as n eqn:Hn. revert a Hx Hbefore Hn.
  induction n as [|n IH]; intros a Hx Hbefore Hn.
  - assert (a = x) as -> by lia. rewrite range_cons by lia. simpl. by rewrite Hf.
  - rewrite range_cons by lia. simpl. rewrite (Hbefore a) by lia.
    apply IH; [lia| |lia]. intros x' Hx'. apply Hbefore. lia.
Qed.

Lemma first_some_range_Some_inv {A} (f : Z -> option A) a b y :
  first_some f (range a b) = Some y ->
  exists x, a <= x < b /\ f x = Some y /\ forall x', a <= x' < x -> f x' = None.
Proof.
  remember (Z.to_nat (b - a)) as n eqn:Hn. revert a Hn.
  induction n as [|n IH]; intros a Hn.
  - rewrite range_nil by lia. done.
  - rewrite range_cons by lia. simpl. destruct (f a) eqn:E.
    + intros [= ->]. exists a. split; [lia|]. split; [done|]. intros; lia.
    + intros (x & Hx & Hf & Hb)%IH; [|lia]. exists x. split; [lia|].
      split; [done|]. intros x' Hx'. destruct (Z.eq_dec x' a) as [->|]; [done|].
      apply Hb. lia.
Qed.

(** ** Claims about the first pre-release *)

(** C3, as stated, fails: with [dev.1] to [dev.100] taken at patch [p+1] the
    search moves on to patch [p+2], although [dev.101] is unused at [p+1]:
    the counters probed for each patch are 1 to 100, not 1 to 1000. *)
Lemma first_prerelease_counterexample :
  let T : gset string :=
    list_to_set ((fun k => "1.0.1-dev." +:+ Py.str k) <$> range 1 101) in
  let version := mkSemanticVersion 1 0 0 None None EmptyString in
  fst (increment version PRERELEASE None (__init__ (Some T) false)) =
    Return (mkSemanticVersion 1 0 2 (Some "dev.1") None EmptyString) /\
  used T (mkSemanticVersion 1 0 1 (Some "dev.101") None EmptyString) = false.
Proof. vm_compute. done. Qed.

Lemma find_available_result_Some T ma mi pa label n meta pre c :
  0 < n -> 1 <= c < 1 + n ->
  used T (prerelease_candidate ma mi pa label c meta pre) = false ->
  (forall c', 1 <= c' < c ->
     used T (prerelease_candidate ma mi pa label c' meta pre) = true) ->
  find_available_result T ma mi pa label 1 (Some n) meta pre =
    Some (prerelease_candidate ma mi pa label c meta pre).
Proof.
  intros Hn Hc Hfree Hused. unfold find_available_result.
  assert (or_default (Some n) = n) as ->.
  { unfold or_default. destruct (Z.eqb_spec n 0); [lia|done]. }
  apply (first_some_range_Some _ _ _ c); [lia|by rewrite Hfree|].
  intros c' Hc'. by rewrite Hused.
Qed.

Lemma find_available_result_None T ma mi pa label n meta pre :
  0 < n ->
  (forall c, 1 <= c < 1 + n ->
     used T (prerelease_candidate ma mi pa label c meta pre) = true) ->
  find_available_result T ma mi pa label 1 (Some n) meta pre = None.
Proof.
  intros Hn Hused. unfold find_available_result.
  assert (or_default (Some n) = n) as ->.
  { unfold or_default. destruct (Z.eqb_spec n 0); [lia|done]. }
  apply first_some_range_None. intros c Hc. by rewrite Hused.
Qed.

(** C3 (amended): for every version that is not a pre-release, with patch
    [p], a Prerelease advancement takes the label [dev] when none is
    supplied, searches the patches [p+1] to [p+5] in order, probing for each
    the counters 1 to 100 in order, and returns the first unused
    [label.counter]; the version returned carries the metadata and the prefix
    of the input. *)
Theorem first_prerelease_search self version prerelease_type q c :
  let T := existing_tags self in
  let candidate q c :=
    prerelease_candidate (major version) (minor version) q
      (or_dev prerelease_type) c (metadata version) (prefix version) in
  cache_ok self ->
  is_prerelease version = false ->
  patch version + 1 <= q <= patch version + 5 ->
  1 <= c <= 100 ->
  used T (candidate q c) = false ->
  (forall q' c',
     patch version + 1 <= q' <= patch version + 5 -> 1 <= c' <= 100 ->
     q' < q \/ (q' = q /\ c' < c) ->
     used T (candidate q' c') = true) ->
  or_dev None = "dev" /\
  exists self',
    increment version PRERELEASE prerelease_type self =
      (Return (candidate q c), self') /\
    cache_ok self' /\ existing_tags self' = T.
Proof.
  intros T candidate Hc Hpre Hq Hcc Hfree Hused. split; [done|].
  destruct (increment_run self version PRERELEASE prerelease_type Hc)
    as (self' & E & Hc' & HT' & _).
  exists self'. split; [|done]. rewrite E. f_equal.
  unfold increment_result, increment_prerelease_result. rewrite Hpre. simpl.
  f_equal. unfold create_first_prerelease_result. fold T.
  change (Z.min MAX_PRERELEASE_ATTEMPTS MAX_PATCH_ATTEMPTS) with 100.
  rewrite (first_some_range_Some _ _ _ q (candidate q c)); [done|lia| |].
  - apply find_available_result_Some; [done|lia|done|].
    intros c' Hlt. apply Hused; [lia|lia|]. right. lia.
  - intros q' Hq'. apply find_available_result_None; [done|].
    intros c' Hlt. apply Hused; [lia|lia|]. left. lia.
Qed.

Lemma first_prerelease_search_witness :
  let T : gset string := {[ "v1.2.4-dev.1"; "v1.2.4-dev.2" ]} in
  or_dev None = "dev" /\
  exists self',
    increment (mkSemanticVersion 1 2 3 None None "v") PRERELEASE None
      (__init__ (Some T) false) =
      (Return (mkSemanticVersion 1 2 4 (Some "dev.3") None "v"), self') /\
    cache_ok self' /\ existing_tags self' = T.
Proof.
  assert (forall q' c' : Z,
            3 + 1 <= q' <= 3 + 5 -> 1 <= c' <= 100 -> q' < 4 \/ (q' = 4 /\ c' < 3) ->
            used {[ "v1.2.4-dev.1"; "v1.2.4-dev.2" ]}
              (prerelease_candidate 1 2 q' "dev" c' None "v") = true) as Hused.
  { intros q' c' Hq' Hc' [Hlt|[-> Hlt]]; [lia|].
    assert (c' = 1 \/ c' = 2) as [-> | ->] by lia; vm_compute; reflexivity. }
  exact (first_prerelease_search
           (__init__ (Some {[ "v1.2.4-dev.1"; "v1.2.4-dev.2" ]}) false)
           (mkSemanticVersion 1 2 3 None None "v") None 4 3
           (cache_ok_init _ _) eq_refl
           (conj (Z.le_refl 4) (Zle_bool_imp_le 4 8 eq_refl))
           (conj (Zle_bool_imp_le 1 3 eq_refl) (Zle_bool_imp_le 3 100 eq_refl))
           eq_refl Hused).
Defined.

(** ** More on strings *)


Lemma prefix_app p x : String.prefix p (p +:+ x) = true.
Proof.
  induction p as [|c p IH]; [by destruct x|]. rewrite app_cons_s. simpl.
  by destruct (ascii_dec c c).
Qed.

Lemma drop_chars_app p x : Py.drop_chars (String.length p) (p +:+ x) = x.
Proof. induction p as [|c p IH]; [done|]. by rewrite app_cons_s. Qed.

Lemma take_chars_app p x : Py.take_chars (String.length p) (p +:+ x) = p.
Proof. induction p as [|c p IH]; [done|]. rewrite app_cons_s. simpl. by rewrite IH. Qed.

Lemma find_char_app c s rest :
  Py.all_chars (fun d => negb (Ascii.eqb d c)) s = true ->
  Py.find_char c (s +:+ rest) =
  (fun i => (String.length s + i)%nat) <$> Py.find_char c rest.
Proof.
  induction s as [|d s IH].
  - intros _. rewrite app_nil_s. by destruct (Py.find_char c rest).
  - cbn [Py.all_chars]. intros [Hd Hs]%andb_true_iff.
    rewrite app_cons_s. cbn [Py.find_char String.length].
    destruct (Ascii.eqb d c); [done|]. rewrite (IH Hs).
    by destruct (Py.find_char c rest).
Qed.

Lemma find_char_none c s :
  Py.all_chars (fun d => negb (Ascii.eqb d c)) s = true -> Py.find_char c s = None.
Proof.
  intros H. pose proof (find_char_app c s EmptyString H) as E.
  by rewrite app_empty_r in E.
Qed.

Lemma split_no_sep sep s :
  Py.all_chars (fun d => negb (Ascii.eqb d sep)) s = true -> Py.split sep s = [s].
Proof.
  induction s as [|d s IH]; simpl; [done|].
  intros [Hd Hs]%andb_true_iff. destruct (Ascii.eqb d sep); [done|].
  by rewrite (IH Hs).
Qed.

Lemma first_field_no_sep sep s :
  Py.all_chars (fun d => negb (Ascii.eqb d sep)) s = true -> first_field sep s = s.
Proof. intros H. unfold first_field. by rewrite split_no_sep. Qed.


Lemma isdigit_char_cases c :
  Py.isdigit_char c = true ->
  Py.isupper_char c = false /\ Py.islower_char c = false /\
  is_ascii c = true /\
  c <> "."%char /\ c <> "+"%char /\ c <> "-"%char /\ c <> "v"%char /\ c <> "V"%char.
Proof.
  unfold Py.isdigit_char, Py.isupper_char, Py.islower_char, is_ascii.
  intros [H1 H2]%andb_true_iff. apply N.leb_le in H1, H2.
  repeat split;
    try (apply N.ltb_lt; lia);
    try (apply not_true_iff_false; rewrite ?orb_true_iff, !andb_true_iff, !N.leb_le; lia);
    intros ->; vm_compute in H1, H2; congruence.
Qed.

Lemma is_core_char_cases c :
  is_core_char c = true ->
  Py.isupper_char c = false /\ c <> "+"%char /\ c <> "v"%char /\ c <> "V"%char.
Proof.
  unfold is_core_char. intros [H|H]%orb_true_iff.
  - apply isdigit_char_cases in H. tauto.
  - apply Ascii.eqb_eq in H as ->. repeat split; done.
Qed.

Lemma str_nonneg_digits z :
  0 <= z -> Py.all_chars Py.isdigit_char (Py.str z) = true /\ nonempty (Py.str z) = true.
Proof.
  intros Hz. unfold Py.str. destruct (Z.ltb_spec z 0); [lia|].
  destruct (str_of_N_spec (Z.to_N z)) as (Hall & _ & Hne). split; [done|].
  by destruct (Py.str_of_N (Z.to_N z)).
Qed.

Lemma isdigit_str z : 0 <= z -> Py.isdigit (Py.str z) = true.
Proof. intros [H1 H2]%str_nonneg_digits. by apply isdigit_all. Qed.

Lemma int_str z : 0 <= z -> Py.int (Py.str z) = z.
Proof.
  intros Hz. unfold Py.str. destruct (Z.ltb_spec z 0); [lia|].
  rewrite int_str_of_N. lia.
Qed.

Lemma core_text_chars ma mi pa :
  0 <= ma -> 0 <= mi -> 0 <= pa ->
  Py.all_chars is_core_char
    (Py.str ma +:+ "." +:+ Py.str mi +:+ "." +:+ Py.str pa) = true.
Proof.
  intros [H1 _]%str_nonneg_digits [H2 _]%str_nonneg_digits [H3 _]%str_nonneg_digits.
  assert (forall c, Py.isdigit_char c = true -> is_core_char c = true) as Himp.
  { intros c Hc. unfold is_core_char. by rewrite Hc. }
  rewrite !all_chars_app, (all_chars_impl _ _ _ Himp H1),
    (all_chars_impl _ _ _ Himp H2), (all_chars_impl _ _ _ Himp H3). done.
Qed.

(** Normalizing a bare [major.minor.patch], with or without metadata after
    it, gives it back without the metadata. *)
Lemma is_core_char_ascii c : is_core_char c = true -> is_ascii c = true.
Proof.
  unfold is_core_char. intros [H|H]%orb_true_iff.
  - apply isdigit_char_cases in H. tauto.
  - by apply Ascii.eqb_eq in H as ->.
Qed.

Lemma normalize_core_text x m :
  Py.all_chars is_core_char x = true -> nonempty x = true ->
  _normalize_version_string (x +:+ opt_part "+" m) = x.
Proof.
  intros Hx Hne. destruct x as [|c x]; [done|]. rewrite app_cons_s.
  unfold _normalize_version_string.
  pose proof Hx as Hx'. simpl in Hx'. apply andb_true_iff in Hx' as [Hc _].
  destruct (is_core_char_cases c Hc) as (_ & _ & Hv & HV).
  destruct (Ascii.eqb_spec c "v") as [|_]; [done|].
  destruct (Ascii.eqb_spec c "V") as [|_]; [done|]. simpl.
  unfold find_from, slice. cbn [Py.drop_chars]. rewrite <- app_cons_s.
  assert (Py.all_chars (fun d => negb (Ascii.eqb d "+")) (String c x) = true) as Hplus.
  { eapply all_chars_impl; [|exact Hx]. intros d Hd.
    destruct (is_core_char_cases d Hd) as (_ & Hp & _).
    by destruct (Ascii.eqb_spec d "+"). }
  assert (Py.lower (String c x) = String c x) as Hlow.
  { apply lower_id. eapply all_chars_impl; [|exact Hx]. intros d Hd.
    destruct (is_core_char_cases d Hd) as (-> & _).
    by rewrite (is_core_char_ascii d Hd). }
  rewrite find_char_app by done. unfold opt_part.
  destruct (truthy m).
  - rewrite app_cons_s. cbn [Py.find_char]. simpl fmap.
    cbv beta iota.
    replace (S (String.length x + 0) - 0)%nat with (String.length (String c x))
      by (simpl; lia).
    rewrite take_chars_app. exact Hlow.
  - simpl. rewrite app_empty_r. exact Hlow.
Qed.

Lemma to_string_release pm version ma mi pa :
  to_string (release pm version ma mi pa) false =
  (Py.str ma +:+ "." +:+ Py.str mi +:+ "." +:+ Py.str pa) +:+
  opt_part "+" (if pm then metadata version else None).
Proof.
  rewrite to_string_false. cbn [major minor patch prerelease metadata release].
  unfold opt_part at 1. simpl.
  by rewrite ?app_assoc_s, ?app_cons_s, ?app_nil_s.
Qed.

Lemma normalize_release pm version ma mi pa :
  0 <= ma -> 0 <= mi -> 0 <= pa ->
  _normalize_version_string (to_string (release pm version ma mi pa) false) =
  Py.str ma +:+ "." +:+ Py.str mi +:+ "." +:+ Py.str pa.
Proof.
  intros H1 H2 H3. rewrite to_string_release.
  apply normalize_core_text; [by apply core_text_chars|].
  pose proof (str_head ma). by destruct (Py.str ma).
Qed.

Lemma used_true T version :
  used T version = true <->
  exists tag, tag ∈ T /\
    _normalize_version_string tag =
    _normalize_version_string (to_string version false).
Proof.
  unfold used, normalized_tags. destruct (decide (T = ∅)) as [->|HT].
  - split; [done|]. intros (tag & Htag & _). by apply not_elem_of_empty in Htag.
  - rewrite bool_decide_eq_true, elem_of_map. split.
    + intros (tag & E & Htag). eauto.
    + intros (tag & Htag & E). eauto.
Qed.

(** A release that the oracle knows has its patch among the existing
    patches: the second look-up of [_find_next_available_patch] never refuses
    a patch the first one let through. *)
Lemma used_release_existing_patches T pm version ma mi pa :
  0 <= ma -> 0 <= mi -> 0 <= pa ->
  used T (release pm version ma mi pa) = true ->
  pa ∈ existing_patches T ma mi.
Proof.
  intros H1 H2 H3 (tag & Htag & E)%used_true.
  rewrite normalize_release in E by done.
  unfold existing_patches. apply (elem_of_set_omap_2 _ _ tag); [done|].
  unfold tag_patch. rewrite E.
  replace (Py.str ma +:+ "." +:+ Py.str mi +:+ "." +:+ Py.str pa)
    with ((Py.str ma +:+ "." +:+ Py.str mi +:+ ".") +:+ Py.str pa)
    by (by rewrite ?app_assoc_s, ?app_cons_s, ?app_nil_s).
  unfold Py.startswith. rewrite prefix_app, drop_chars_app.
  destruct (str_nonneg_digits pa H3) as [Hd _].
  rewrite (first_field_no_sep "-"), (first_field_no_sep "+").
  - destruct (text_digits_ascii (Py.str pa) (isdigit_str pa H3)) as [-> ->].
    by rewrite int_str.
  - eapply all_chars_impl; [|exact Hd]. intros c Hc.
    destruct (isdigit_char_cases c Hc) as (_ & _ & _ & _ & Hp & _).
    by destruct (Ascii.eqb_spec c "+").
  - eapply all_chars_impl; [|exact Hd]. intros c Hc.
    destruct (isdigit_char_cases c Hc) as (_ & _ & _ & _ & _ & Hm & _).
    by destruct (Ascii.eqb_spec c "-").
Qed.

(** ** Claim about the patch advancement *)

(** C7: for every version with non-negative numbers and patch [p], a Patch
    advancement returns [p+1] with the pre-release cleared when that
    candidate is unused.  When it is used, the patch numbers taken at the same
    major.minor are those the normalized existing tags show (a tag is any
    text: digits of any script count), and the least
    patch above [p+1] and at most [p+100] that is not taken is returned (99
    further values).  When all of these are taken, the first pre-release
    [label.1] at patch [p+1] is returned if it is unused, and otherwise the
    result is that of the pre-release search for conflicts. *)
Theorem patch_increment self version prerelease_type :
  let T := existing_tags self in
  let pm := preserve_metadata self in
  let label := or_dev prerelease_type in
  let p := patch version in
  let candidate q := release pm version (major version) (minor version) q in
  let taken := existing_patches T (major version) (minor version) in
  let first :=
    {| major := major version; minor := minor version; patch := p + 1;
       prerelease := Some (label +:+ ".1");
       metadata := if pm then metadata version else None;
       prefix := prefix version |} in
  cache_ok self ->
  0 <= major version -> 0 <= minor version -> 0 <= patch version ->
  exists r self',
    increment version PATCH prerelease_type self = (r, self') /\
    cache_ok self' /\ existing_tags self' = T /\
    (used T (candidate (p + 1)) = false -> r = Return (candidate (p + 1))) /\
    (used T (candidate (p + 1)) = true ->
       (forall q,
          p + 1 < q <= p + 100 -> q ∉ taken ->
          (forall q', p + 1 < q' < q -> q' ∈ taken) ->
          r = Return (candidate q)) /\
       ((forall q, p + 1 < q <= p + 100 -> q ∈ taken) ->
          (used T first = false -> r = Return first) /\
          (used T first = true ->
             r = fst (_find_next_available_prerelease_for_conflict
                        (candidate (p + 1)) label self')))).
Proof.
  intros T pm label p candidate taken first Hc Hma Hmi Hpa.
  destruct (increment_run self version PATCH prerelease_type Hc)
    as (self' & E & Hc' & HT' & Hpm').
  eexists _, self'. split; [exact E|]. split; [done|]. split; [done|].
  fold T pm. cbn [increment_result]. fold label. unfold increment_patch_result.
  fold p (candidate (p + 1)).
  split; [by intros ->|]. intros Hused. rewrite Hused. cbn [negb].
  assert (p + 1 ∈ taken) as Hin
    by (apply (used_release_existing_patches T pm version); [done|done|lia|done]).
  assert (forall q, 0 <= q -> q ∉ taken -> used T (candidate q) = false) as Hfree.
  { intros q Hq Hnot. apply not_true_iff_false. intros Hu. apply Hnot.
    by apply (used_release_existing_patches T pm version). }
  split.
  - intros q Hq Hnot Hbefore. unfold find_next_available_patch_result.
    fold p taken. change (p + MAX_PATCH_ATTEMPTS + 1) with (p + 100 + 1).
    rewrite (first_some_range_Some _ _ _ q (candidate q)); [done|lia| |].
    + rewrite (bool_decide_eq_false_2 _ Hnot). cbn [negb]. fold (candidate q).
      rewrite Hfree; [done|lia|done].
    + intros q' Hq'. assert (q' ∈ taken) as Hq'in.
      { destruct (Z.eq_dec q' (p + 1)) as [->|]; [done|]. apply Hbefore. lia. }
      by rewrite (bool_decide_eq_true_2 _ Hq'in).
  - intros Hall.
    assert (find_next_available_patch_result T pm version = None) as ->.
    { apply first_some_range_None. fold p taken. intros q Hq.
      change (p + MAX_PATCH_ATTEMPTS + 1) with (p + 100 + 1) in Hq.
      assert (q ∈ taken) as Hqin.
      { destruct (Z.eq_dec q (p + 1)) as [->|]; [done|]. apply Hall. lia. }
      by rewrite (bool_decide_eq_true_2 _ Hqin). }
    unfold create_conflict_prerelease_result. fold p label.
    assert ({| major := major version; minor := minor version; patch := p + 1;
               prerelease := Some (label +:+ ".1");
               metadata :=
                 if pm
                 then metadata (release pm version (major version) (minor version) (p + 1))
                 else None;
               prefix := prefix version |} = first) as ->.
    { unfold first. by destruct pm. }
    split; [by intros ->|]. intros ->. cbn [negb].
    destruct (runs_conflict T pm (candidate (p + 1)) label self' Hc' HT' Hpm')
      as (self'' & -> & _). done.
Qed.

Lemma patch_increment_witness :
  let T : gset string :=
    {[ "1.2.4"; "1.2." +:+ String "217" (String "165" EmptyString) ]} in
  exists self',
    increment (mkSemanticVersion 1 2 3 None None EmptyString) PATCH None
      (__init__ (Some T) false) =
      (Return (mkSemanticVersion 1 2 6 None None EmptyString), self').
Proof.
  intros T.
  destruct (patch_increment (__init__ (Some T) false)
              (mkSemanticVersion 1 2 3 None None EmptyString) None
              (cache_ok_init _ _)
              (Zle_bool_imp_le 0 1 eq_refl) (Zle_bool_imp_le 0 2 eq_refl)
              (Zle_bool_imp_le 0 3 eq_refl))
    as (r & self' & E & _ & _ & _ & H).
  exists self'. rewrite E. f_equal.
  destruct (H eq_refl) as [H6 _]. apply (H6 6).
  - simpl. lia.
  - intros Hin. apply (bool_decide_pack _) in Hin. vm_compute in Hin. exact Hin.
  - intros q' Hq'. assert (q' = 5) as -> by (simpl in Hq'; lia).
    apply (bool_decide_unpack _). vm_compute. exact I.
Defined.

(** ** Collision avoidance *)

(** C2, as stated, fails, in two ways.  A label switch returns [label.1]
    without asking the oracle, here a tag that exists.  And with no label,
    when every candidate of the window of a release is taken, the last
    resort is returned unchecked, here a tag that exists as well. *)
Lemma collision_counterexample :
  (let T : gset string := {[ "1.0.0-beta.1" ]} in
   let r := mkSemanticVersion 1 0 0 (Some "beta.1") None EmptyString in
   fst (increment (mkSemanticVersion 1 0 0 (Some "alpha.1") None EmptyString)
          PRERELEASE (Some "beta") (__init__ (Some T) false)) = Return r /\
   used T r = true) /\
  (let r := mkSemanticVersion 1 0 0 (Some "None.1") None EmptyString in
   fst (increment (mkSemanticVersion 1 0 0 None None EmptyString)
          PRERELEASE None (__init__ (Some window_tags) false)) = Return r /\
   used window_tags r = true).
Proof. split; vm_compute; done. Qed.

(** Case on the oracle's answer at the head of a result. *)
Ltac case_used E :=
  match goal with
  | |- collision_free ?T (if negb (used ?T ?x) then _ else _) =>
      destruct (used T x) eqn:E; cbn [negb]
  | |- collision_free ?T (if used ?T ?x then _ else _) =>
      destruct (used T x) eqn:E
  end.

Lemma find_available_result_free T ma mi pa label start n meta pre v :
  find_available_result T ma mi pa label start n meta pre = Some v ->
  used T v = false.
Proof.
  unfold find_available_result. intros (c & _ & H)%first_some_Some.
  cbv zeta in H.
  match type of H with context [used T ?x] => destruct (used T x) eqn:Eu end;
    [done|]. by injection H as <-.
Qed.

Lemma next_available_loop_result_free T fuel base identifiers index original_id counter :
  collision_free T
    (next_available_loop_result T fuel base identifiers index original_id counter).
Proof.
  revert counter. induction fuel as [|fuel IH]; intros counter;
    cbn [next_available_loop_result];
    case_used E; try exact E;
    destruct (counter + 1 >? MAX_PRERELEASE_ATTEMPTS); simpl; eauto.
Qed.

Lemma split_app_sep sep a b :
  Py.split sep (a +:+ String sep b) = Py.split sep a ++ Py.split sep b.
Proof.
  assert (forall s, Py.split sep s <> []) as Hne.
  { intros [|c s]; simpl; [done|]. destruct (Ascii.eqb c sep); [done|].
    by destruct (Py.split sep s). }
  induction a as [|c a IH].
  - rewrite app_nil_s. simpl. by rewrite Ascii.eqb_refl.
  - rewrite app_cons_s. cbn [Py.split]. destruct (Ascii.eqb c sep).
    + by rewrite IH.
    + rewrite IH. destruct (Py.split sep a) as [|w ws] eqn:E; [by apply Hne in E|].
      done.
Qed.

Lemma numeric_components_from_app i l1 l2 :
  numeric_components_from i (l1 ++ l2) =
  numeric_components_from i l1 ++ numeric_components_from (i + length l1) l2.
Proof.
  revert i. induction l1 as [|x l1 IH]; intros i; simpl.
  - by rewrite Nat.add_0_r.
  - rewrite IH. replace (S i + length l1)%nat with (i + S (length l1))%nat by lia.
    destruct (Py.isdigit x); [done|].
    by destruct (search_trailing_digits x) as [[[? ?] ?]|].
Qed.

(** A chain that ends in [.1] has a numeric component: its last identifier. *)
Lemma last_component_dot_one label v :
  prerelease v = Some (label +:+ ".1") ->
  exists index,
    last_component (find_numeric_prerelease_components v) = Some (index, "1", 1).
Proof.
  intros Hp. unfold find_numeric_prerelease_components, get_prerelease_identifiers.
  rewrite Hp. assert (nonempty (label +:+ ".1") = true) as -> by by destruct label.
  rewrite split_app_sep, numeric_components_from_app. simpl.
  eexists. unfold last_component. by rewrite last_snoc.
Qed.

Lemma find_next_available_version_result_free T pm label ma mi pa meta pre :
  collision_free T
    (find_next_available_version_result T pm
       {| major := ma; minor := mi; patch := pa;
          prerelease := Some (label +:+ ".1"); metadata := meta; prefix := pre |}).
Proof.
  unfold find_next_available_version_result. cbn [is_prerelease prerelease negb].
  destruct (last_component_dot_one label
              {| major := ma; minor := mi; patch := pa;
                 prerelease := Some (label +:+ ".1"); metadata := meta; prefix := pre |}
              eq_refl) as [index ->].
  apply next_available_loop_result_free.
Qed.

Lemma conflict_result_free T pm base label :
  collision_free T (conflict_result T pm base label).
Proof.
  unfold conflict_result.
  destruct (find_available_result _ _ _ _ _ _ _ _ _) as [v|] eqn:E.
  - by apply find_available_result_free in E.
  - case_used Eu; [|exact Eu].
    apply find_next_available_version_result_free.
Qed.

Lemma bump_result_free T pm version candidate :
  collision_free T (bump_result T pm version candidate).
Proof.
  unfold bump_result. case_used E; [|exact E].
  destruct (patch_scan_result T pm candidate version) as [v|] eqn:Es.
  - unfold patch_scan_result in Es. apply first_some_Some in Es as (p & _ & H).
    cbv zeta in H.
    match type of H with context [used T ?x] => destruct (used T x) eqn:Eu end;
      [done|]. by injection H as <-.
  - apply conflict_result_free.
Qed.

Lemma increment_patch_result_free T pm version label :
  collision_free T (increment_patch_result T pm version label).
Proof.
  unfold increment_patch_result. cbv zeta. case_used E; [|exact E].
  destruct (find_next_available_patch_result T pm version) as [v|] eqn:Es.
  - unfold find_next_available_patch_result in Es.
    apply first_some_Some in Es as (p & _ & H).
    destruct (negb (bool_decide _)); [|done]. cbv zeta in H.
    match type of H with context [used T ?x] => destruct (used T x) eqn:Eu end;
      [done|]. by injection H as <-.
  - unfold create_conflict_prerelease_result. cbv zeta.
    case_used Eu; [|exact Eu].
    apply conflict_result_free.
Qed.

Lemma increment_existing_prerelease_result_free T pm version :
  collision_free T (increment_existing_prerelease_result T pm version).
Proof.
  unfold increment_existing_prerelease_result. cbv zeta.
  case_used E; [|exact E].
  destruct (find_available_result _ _ _ _ _ _ _ _ _) as [v|] eqn:Es.
  - by apply find_available_result_free in Es.
  - simpl. eauto.
Qed.

Lemma create_first_prerelease_result_free T pm version prerelease_type q c :
  in_first_window version q c ->
  used T (prerelease_candidate (major version) (minor version) q
            (or_dev prerelease_type) c (metadata version) (prefix version)) = false ->
  used T (create_first_prerelease_result T pm version prerelease_type) = false.
Proof.
  intros [Hq Hcc] Hfree. unfold create_first_prerelease_result.
  destruct (first_some _ _) as [v|] eqn:E.
  - apply first_some_Some in E as (q' & _ & E).
    by apply find_available_result_free in E.
  - exfalso. rewrite first_some_range_None in E. specialize (E q ltac:(lia)).
    unfold find_available_result in E. rewrite first_some_range_None in E.
    change (or_default (Some (Z.min MAX_PRERELEASE_ATTEMPTS MAX_PATCH_ATTEMPTS)))
      with 100 in E.
    specialize (E c ltac:(lia)). cbv zeta in E. by rewrite Hfree in E.
Qed.

(** C2 (amended): whenever the result of [increment] has gone through the
    oracle, it is not among the existing tags once both are normalized, and
    when the search runs out the call raises a [RuntimeError] instead of
    returning a tag in use.  This covers Major, Minor and Patch always;
    Prerelease on a pre-release when no label switch takes place; and
    Prerelease on a release when some candidate of its window (patches
    [p+1 .. p+5], counters [1 .. 100]) is unused. *)
Theorem increment_collision_free self version increment_type prerelease_type :
  let T := existing_tags self in
  let prerelease_kind :=
    match increment_type with PRERELEASE | DEV => True | _ => False end in
  cache_ok self ->
  (prerelease_kind -> is_prerelease version = true ->
   switches_label version prerelease_type = false) ->
  (prerelease_kind -> is_prerelease version = false ->
   exists q c,
     in_first_window version q c /\
     used T (prerelease_candidate (major version) (minor version) q
               (or_dev prerelease_type) c (metadata version) (prefix version))
       = false) ->
  exists r self',
    increment version increment_type prerelease_type self = (r, self') /\
    cache_ok self' /\ existing_tags self' = T /\
    collision_free T r.
Proof.
  intros T prerelease_kind Hc Hswitch Hwindow.
  destruct (increment_run self version increment_type prerelease_type Hc)
    as (self' & E & Hc' & HT' & _).
  eexists _, self'. split; [exact E|]. split; [done|]. split; [done|].
  fold T.
  assert (prerelease_kind ->
          collision_free T
            (increment_prerelease_result T (preserve_metadata self) version
               prerelease_type)) as Hpre.
  { intros Hk. unfold increment_prerelease_result.
    destruct (is_prerelease version) eqn:Ep; cbn [negb].
    - rewrite (Hswitch Hk eq_refl). apply increment_existing_prerelease_result_free.
    - destruct (Hwindow Hk eq_refl) as (q & c & Hw & Hfree).
      by apply (create_first_prerelease_result_free _ _ _ _ q c). }
  destruct increment_type; cbn [increment_result].
  - apply bump_result_free.
  - apply bump_result_free.
  - apply increment_patch_result_free.
  - by apply Hpre.
  - by apply Hpre.
Qed.

Lemma increment_collision_free_witness :
  let T : gset string := {[ "v1.3.0" ]} in
  exists r self',
    increment (mkSemanticVersion 1 2 0 None None "v") MINOR None
      (__init__ (Some T) false) = (r, self') /\
    cache_ok self' /\ existing_tags self' = T /\
    collision_free T r.
Proof.
  intros T.
  refine (increment_collision_free (__init__ (Some T) false)
            (mkSemanticVersion 1 2 0 None None "v") MINOR None
            (cache_ok_init _ _) _ _); intros [].
Defined.

(** ** Trailing digits *)

Lemma rev_app_spec s acc : String.rev_app s acc = String.rev s +:+ acc.
Proof.
  unfold String.rev. revert acc. induction s as [|c s IH]; intros acc; simpl; [done|].
  rewrite IH, (IH (String c EmptyString)). by rewrite app_assoc_s.
Qed.

Lemma rev_cons c s : String.rev (String c s) = String.rev s +:+ String c EmptyString.
Proof. unfold String.rev at 1. simpl. by rewrite rev_app_spec. Qed.

Lemma rev_app_s a b : String.rev (a +:+ b) = String.rev b +:+ String.rev a.
Proof.
  induction a as [|c a IH].
  - rewrite app_nil_s. by rewrite app_empty_r.
  - rewrite app_cons_s, !rev_cons, IH. by rewrite app_assoc_s.
Qed.

Lemma rev_involutive_s s : String.rev (String.rev s) = s.
Proof.
  induction s as [|c s IH]; [done|]. rewrite rev_cons, rev_app_s, IH. done.
Qed.

Lemma all_chars_rev p s : Py.all_chars p (String.rev s) = Py.all_chars p s.
Proof.
  induction s as [|c s IH]; [done|]. rewrite rev_cons, all_chars_app, IH. simpl.
  rewrite andb_true_r. apply andb_comm.
Qed.

Lemma nonempty_rev s : nonempty (String.rev s) = nonempty s.
Proof.
  destruct s as [|c s]; [done|]. rewrite rev_cons. by destruct (String.rev s).
Qed.

Lemma rev_span_digits_spec s h d :
  rev_span_digits s = (h, d) ->
  s = h +:+ d /\ Py.all_chars Py.isdigit_char d = true.
Proof.
  unfold rev_span_digits. destruct (span Py.isdigit_char (String.rev s)) as [a b] eqn:E.
  intros [= <- <-]. apply span_spec in E as [E Ha]. split.
  - rewrite <- (rev_involutive_s s), E. apply rev_app_s.
  - by rewrite all_chars_rev.
Qed.

(** What [re.search(r"(\d+)$", s)] finds: [s] is the text before the match,
    the digits, and what follows them (nothing, or the line feed that ends
    [s]). *)
Lemma search_trailing_digits_spec s h d t :
  search_trailing_digits s = Some (h, d, t) ->
  s = h +:+ d +:+ t /\ Py.all_chars Py.isdigit_char d = true /\
  nonempty d = true /\ (t = EmptyString \/ t = String "010" EmptyString).
Proof.
  unfold search_trailing_digits.
  destruct (rev_span_digits s) as [h0 d0] eqn:E0.
  apply rev_span_digits_spec in E0 as [Es Hd0].
  destruct (nonempty d0) eqn:Hne0.
  - intros [= <- <- <-]. rewrite app_empty_r. auto.
  - assert ((exists r, String.rev s = String "010" r /\
               (let '(h', d') := rev_span_digits (String.rev r) in
                if nonempty d' then Some (h', d', String "010" EmptyString) else None)
               = Some (h, d, t)) \/ False -> 
            s = h +:+ d +:+ t /\ Py.all_chars Py.isdigit_char d = true /\
            nonempty d = true /\ (t = EmptyString \/ t = String "010" EmptyString)) as Hcase.
    { intros [(r & Er & H)|[]].
      destruct (rev_span_digits (String.rev r)) as [h' d'] eqn:E'.
      apply rev_span_digits_spec in E' as [Er' Hd'].
      destruct (nonempty d') eqn:Hne'; [|done]. injection H as <- <- <-.
      split; [|auto].
      rewrite <- (rev_involutive_s s), Er, rev_cons, Er'. by rewrite app_assoc_s. }
    intros H. apply Hcase. destruct (String.rev s) as [|c r]; [done|].
    destruct (ascii_dec c "010") as [->|Hc]; [left; eauto|].
    exfalso. destruct c as [[] [] [] [] [] [] [] []]; try done.
Qed.


(** ** Numerals in lexical order *)











(** ** Chains of identifiers *)

Lemma split_no_dots sep s :
  Forall (fun w => Py.all_chars (fun c => negb (Ascii.eqb c sep)) w = true)
         (Py.split sep s).
Proof.
  induction s as [|c s IH]; simpl; [by repeat constructor|].
  destruct (Ascii.eqb c sep) eqn:E; [by constructor|].
  destruct (Py.split sep s) as [|w ws]; [by repeat constructor; simpl; rewrite E|].
  inversion IH as [|? ? Hw Hws]; subst. constructor; [|done].
  simpl. by rewrite E.
Qed.

Lemma join_cons2 sep w w' ws :
  Py.join (String sep EmptyString) (w :: w' :: ws) =
  w +:+ String sep (Py.join (String sep EmptyString) (w' :: ws)).
Proof. cbn [Py.join]. by rewrite app_cons_s, app_nil_s. Qed.

Lemma split_join l :
  l <> [] -> Forall (fun w => no_dot w = true) l ->
  Py.split "." (Py.join "." l) = l.
Proof.
  induction l as [|w l IH]; [done|]. intros _ Hl.
  inversion Hl as [|? ? Hw Hl']; subst.
  destruct l as [|w' l].
  - simpl. by apply split_no_sep.
  - rewrite (join_cons2 "." w w' l), split_app_sep, (split_no_sep "." w Hw).
    simpl. f_equal. by apply IH.
Qed.

Lemma compare_ids_app l x r : compare_ids (l ++ x :: r) l = 1.
Proof.
  induction l as [|y l IH]; [done|]. simpl.
  by rewrite (cmp_refl _ compare_id_laws).
Qed.


Lemma numeric_components_from_elem k l i id n :
  (i, id, n) ∈ numeric_components_from k l ->
  exists j, i = (k + j)%nat /\ l !! j = Some id /\ component_value id = Some n.
Proof.
  revert k. induction l as [|x l IH]; intros k; simpl.
  - by intros ?%elem_of_nil.
  - assert ((i, id, n) ∈ numeric_components_from (S k) l ->
            exists j, i = (k + j)%nat /\ (x :: l) !! j = Some id /\
                      component_value id = Some n) as Htl.
    { intros (j & -> & Hj & Hv)%IH. exists (S j). split; [lia|done]. }
    unfold component_value in *.
    destruct (Py.isdigit x) eqn:Ex.
    + intros [[= -> -> ->]|H]%elem_of_cons; [|by apply Htl].
      exists 0%nat. rewrite Ex. split; [lia|done].
    + destruct (search_trailing_digits x) as [[[h d] t]|] eqn:Es; [|by apply Htl].
      intros [[= -> -> ->]|H]%elem_of_cons; [|by apply Htl].
      exists 0%nat. rewrite Ex, Es. split; [lia|done].
Qed.

Lemma last_component_spec v index original_id numeric_value :
  last_component (find_numeric_prerelease_components v) =
    Some (index, original_id, numeric_value) ->
  get_prerelease_identifiers v !! index = Some original_id /\
  component_value original_id = Some numeric_value.
Proof.
  unfold last_component, find_numeric_prerelease_components.
  intros H%last_Some_elem_of.
  by apply numeric_components_from_elem in H as (j & -> & Hj & Hv).
Qed.





(** ** Advancement on an empty set of tags *)

Lemma used_empty v : used ∅ v = false.
Proof. unfold used. by destruct (decide (∅ = ∅ :> gset string)). Qed.


Lemma compare_precedence_core_gt a b :
  tuple_lt (core_version b) (core_version a) = true -> compare_precedence a b = 1.
Proof.
  intros H. rewrite compare_precedence_spec.
  destruct a as [a1 a2 a3 pa ma xa], b as [b1 b2 b3 pb mb xb].
  unfold core_version in *. cbn [major minor patch] in *.
  destruct (tuple_lt (a1, a2, a3) (b1, b2, b3)) eqn:E; [|by rewrite H].
  apply tuple_lt_spec in E, H. lia.
Qed.

Lemma tuple_lt_irrefl a : tuple_lt a a = false.
Proof.
  destruct a as [[a1 a2] a3]. apply not_true_iff_false. rewrite tuple_lt_spec. lia.
Qed.


(** ** Monotonic advancement *)

(** C1.  The claim fails on the code at the parsed version [1.0.0-dev9]: with
    no existing tags, its Prerelease advancement is [1.0.0-dev10], which
    [compare_precedence] puts below the input, since [dev10] and [dev9] are
    compared as text; [version <= result], which the tests of the
    repository expect of every step, is false.  The same advancement of
    [1.0.0-alpha.9], whose number is an identifier of its own, gives
    [1.0.0-alpha.10], which is above its input. *)
Theorem increment_prerelease_dev9 :
  exists version r sibling r',
    parse "1.0.0-dev9" = Return version /\
    fst (increment version PRERELEASE None (__init__ None false)) = Return r /\
    to_string r true = "1.0.0-dev10" /\
    compare_precedence r version = -1 /\
    version_le version r = false /\
    parse "1.0.0-alpha.9" = Return sibling /\
    fst (increment sibling PRERELEASE None (__init__ None false)) = Return r' /\
    to_string r' true = "1.0.0-alpha.10" /\
    compare_precedence r' sibling = 1.
Proof. eexists _, _, _, _. repeat split; vm_compute; reflexivity. Qed.



(** ** More on parsing *)

Lemma parse_Raise s e :
  parse s = Raise e ->
  (s = EmptyString /\ e = ValueError "Version string cannot be empty or None") \/
  (MAX_VERSION_LENGTH < Py.len s /\
   exists msg, e = SecurityError msg "input_length_validation" (security_value s)) \/
  (s <> EmptyString /\ Py.len s <= MAX_VERSION_LENGTH /\
   SEMVER_PATTERN_match (Py.strip s) = None /\
   e = ParseError ("Invalid semantic version format: " +:+ s) s).
Proof.
  unfold parse. destruct s as [|c s]; [intros [= <-]; by left|]. cbn [nonempty negb].
  destruct (Z.gtb_spec (Py.len (String c s)) MAX_VERSION_LENGTH) as [Hlong|Hlen].
  - intros [= <-]. right; left. eauto.
  - pose proof (strip_length (String c s)).
    destruct (Z.gtb_spec (Py.len (Py.strip (String c s))) MAX_VERSION_LENGTH); [lia|].
    destruct (SEMVER_PATTERN_match (Py.strip (String c s))) eqn:E; [done|].
    intros [= <-]. right; right. done.
Qed.


(** The ways [parse] fails: a [ValueError] on the empty text, a
    [SecurityError] of the first length check exactly when the raw text is
    longer than the cap, and otherwise a [ParseError] that carries the
    original text.  The second length check, made after trimming, never
    fires. *)
Theorem parse_failures s e :
  parse s = Raise e ->
  (s = EmptyString /\ e = ValueError "Version string cannot be empty or None") \/
  (MAX_VERSION_LENGTH < Py.len s /\
   exists msg, e = SecurityError msg "input_length_validation" (security_value s)) \/
  (s <> EmptyString /\ Py.len s <= MAX_VERSION_LENGTH /\
   SEMVER_PATTERN_match (Py.strip s) = None /\
   e = ParseError ("Invalid semantic version format: " +:+ s) s).
Proof. apply parse_Raise. Qed.

Lemma parse_failures_witness :
  let s :=
    "1.2.3" +:+
    Py.text (replicate 600 (String "195" (String "169" EmptyString))) in
  Py.len s = 605 /\
  parse s = Raise (ParseError ("Invalid semantic version format: " +:+ s) s).
Proof.
  intros s.
  assert (parse s =
          Raise (ParseError ("Invalid semantic version format: " +:+ s) s)) as E
    by (vm_compute; reflexivity).
  destruct (parse_failures s _ E)
    as [[H _]|[[H _]|(_ & H & _)]]; [done|by vm_compute in H|].
  split; [vm_compute; reflexivity|exact E].
Defined.

(** [is_valid] never raises, and answers [True] exactly when [parse]
    succeeds: the one exception its [except] clause does not catch, the
    [SecurityError], is kept out by its own length check. *)
Theorem is_valid_spec s :
  exists b, is_valid s = Return b /\ b = is_Return (parse s).
Proof.
  unfold is_valid. destruct (nonempty s) eqn:Hne; cbn [negb].
  - destruct (Z.gtb_spec (Py.len s) MAX_VERSION_LENGTH) as [Hlong|Hlen].
    + exists false. split; [done|]. unfold parse. rewrite Hne. cbn [negb].
      destruct (Z.gtb_spec (Py.len s) MAX_VERSION_LENGTH); [done|lia].
    + destruct (parse s) as [v|e] eqn:E; [by exists true|].
      apply parse_Raise in E as [[_ ->]|[[Hlong _]|(_ & _ & _ & ->)]];
        [by exists false|lia|by exists false].
  - exists false. split; [done|]. by destruct s.
Qed.

(** A parsed version is well formed. *)
Theorem parse_well_formed s v : parse s = Return v -> well_formed v.
Proof.
  intros (g & _ & (Hpre & _ & _ & _ & Hp & Hm) & _ & -> & _)%parse_Return.
  unfold well_formed, version_of_groups, Py.int. cbn.
  repeat split; try lia; try done.
  destruct Hpre as [-> | [-> | ->]]; auto.
Qed.

Lemma parse_well_formed_witness :
  well_formed (mkSemanticVersion 1 2 3 (Some "rc.1") (Some "build.5") "v").
Proof. apply (parse_well_formed "v1.2.3-rc.1+build.5"). reflexivity. Defined.

(** ** Precedence ignores metadata and prefix *)

(** Two versions with the same numbers and the same pre-release chain are
    equal under [__eq__] and compare alike with any third version, whatever
    their build metadata and prefixes. *)
Theorem compare_precedence_ignores_metadata a b c :
  core_version a = core_version b -> prerelease a = prerelease b ->
  version_eq a b = true /\
  compare_precedence a c = compare_precedence b c /\
  compare_precedence c a = compare_precedence c b.
Proof.
  intros Hcore Hpre. rewrite !compare_precedence_spec.
  unfold version_eq. rewrite compare_precedence_spec, Hcore, Hpre.
  rewrite tuple_lt_irrefl. split; [|done].
  destruct (prerelease b); [|done].
  by rewrite (cmp_refl _ compare_ids_laws).
Qed.

Lemma compare_precedence_ignores_metadata_witness :
  version_eq (mkSemanticVersion 1 0 0 None (Some "a") "v")
             (mkSemanticVersion 1 0 0 None (Some "b") EmptyString) = true.
Proof.
  apply (compare_precedence_ignores_metadata
           (mkSemanticVersion 1 0 0 None (Some "a") "v")
           (mkSemanticVersion 1 0 0 None (Some "b") EmptyString)
           (mkSemanticVersion 0 0 0 None None EmptyString)); reflexivity.
Defined.

(** ** The cache of the oracle *)

(** After [update_existing_tags] the oracle answers about the new tags,
    whatever the cache held before, and the answer of a second look-up is the
    same: the cache it has built is the one of the new tags. *)
Theorem update_existing_tags_invalidates self new_tags version :
  let self1 := snd (update_existing_tags new_tags self) in
  let '(r1, self2) := _version_exists version self1 in
  let '(r2, self3) := _version_exists version self2 in
  existing_tags self1 = new_tags /\
  _normalized_tags_cache self1 = None /\
  r1 = Return (used new_tags version) /\
  r2 = Return (used new_tags version) /\
  (new_tags <> ∅ ->
   _normalized_tags_cache self3 = Some (normalized_tags new_tags)).
Proof.
  set (self1 := snd (update_existing_tags new_tags self)). cbv zeta.
  assert (cache_ok self1) as Hc1 by (by right; left).
  destruct (runs_version_exists new_tags (preserve_metadata self) version self1 Hc1
              eq_refl eq_refl) as (self2 & E1 & Hc2 & HT2 & Hpm2).
  rewrite E1.
  destruct (runs_version_exists new_tags (preserve_metadata self) version self2 Hc2
              HT2 Hpm2) as (self3 & E2 & Hc3 & HT3 & Hpm3).
  rewrite E2. repeat split; try done.
  intros Hne. unfold _version_exists in E2. rewrite HT2 in E2.
  destruct (decide (new_tags = ∅)); [done|]. injection E2 as _ <-. simpl.
  unfold _version_exists in E1. simpl in E1.
  destruct (decide (new_tags = ∅)); [done|]. by injection E1 as _ <-.
Qed.

(** ** What advancement keeps and what it raises *)

Lemma first_some_on {X A} (P : A -> Prop) (f : X -> option A) xs a :
  (forall x y, f x = Some y -> P y) -> first_some f xs = Some a -> P a.
Proof. intros Hf (x & _ & Hx)%first_some_Some. by eapply Hf. Qed.

Section Invariant.
(** A property of versions that holds of every candidate the engine builds
    from [version] holds of what [increment] returns. *)
Context (T : gset string) (pm : bool) (version : SemanticVersion).
Context (P : SemanticVersion -> Prop).

Lemma find_available_result_on ma mi pa label start n meta pre v :
  (forall c, P (prerelease_candidate ma mi pa label c meta pre)) ->
  find_available_result T ma mi pa label start n meta pre = Some v -> P v.
Proof.
  intros HP. unfold find_available_result. apply first_some_on.
  intros c y. cbv zeta. destruct (used T _); [done|]. intros [= <-]. apply HP.
Qed.

Lemma next_available_loop_result_on fuel base identifiers index original_id counter :
  (forall c, P {| major := major base; minor := minor base; patch := patch base;
                  prerelease :=
                    Some (Py.join "." (with_counter identifiers index original_id c));
                  metadata := metadata base; prefix := prefix base |}) ->
  on_return P
    (next_available_loop_result T fuel base identifiers index original_id counter).
Proof.
  intros HP. revert counter. induction fuel as [|fuel IH]; intros counter;
    cbn [next_available_loop_result];
    destruct (negb (used T _)); try apply HP;
    destruct (counter + 1 >? MAX_PRERELEASE_ATTEMPTS); try done; apply IH.
Qed.

Lemma conflict_result_on base label :
  (forall pa p, P {| major := major base; minor := minor base; patch := pa;
                     prerelease := Some p;
                     metadata := metadata base; prefix := prefix base |}) ->
  on_return P (conflict_result T pm base label).
Proof.
  intros HP. unfold conflict_result.
  destruct (find_available_result _ _ _ _ _ _ _ _ _) as [v|] eqn:E.
  - cbn [on_return]. eapply find_available_result_on; [|exact E]. intros c. apply HP.
  - cbv zeta. destruct (negb (used T _)); [apply HP|].
    unfold find_next_available_version_result. cbn [is_prerelease prerelease negb].
    destruct (last_component_dot_one label
                {| major := major base; minor := minor base; patch := patch base + 1;
                   prerelease := Some (label +:+ ".1");
                   metadata := metadata base; prefix := prefix base |}
                eq_refl) as [index ->].
    apply next_available_loop_result_on. intros c. apply HP.
Qed.

Lemma bump_result_on ma mi :
  (forall pa p, P {| major := ma; minor := mi; patch := pa; prerelease := p;
                     metadata := if pm then metadata version else None;
                     prefix := prefix version |}) ->
  on_return P (bump_result T pm version (release pm version ma mi 0)).
Proof.
  intros HP. unfold bump_result. destruct (used T _); [|apply HP].
  destruct (patch_scan_result _ _ _ _) as [v|] eqn:E.
  - unfold patch_scan_result in E. cbn [on_return]. revert E. apply first_some_on.
    intros p y. cbv zeta. destruct (negb (used T _)); [|done].
    intros [= <-]. apply HP.
  - apply conflict_result_on. intros pa p. apply HP.
Qed.

Lemma increment_patch_result_on label :
  (forall pa p, patch version < pa ->
     P {| major := major version; minor := minor version; patch := pa;
          prerelease := p;
          metadata := if pm then metadata version else None;
          prefix := prefix version |}) ->
  on_return P (increment_patch_result T pm version label).
Proof.
  intros HP. unfold increment_patch_result. cbv zeta.
  destruct (negb (used T _)); [apply HP; lia|].
  destruct (find_next_available_patch_result _ _ _) as [v|] eqn:E.
  - unfold find_next_available_patch_result in E.
    apply first_some_range_Some_inv in E as (q & Hq & E & _).
    destruct (negb (bool_decide _)); [|done]. cbv zeta in E.
    destruct (negb (used T _)); [|done]. injection E as <-. apply HP. lia.
  - unfold create_conflict_prerelease_result. cbv zeta.
    destruct (negb (used T _)).
    + assert ((if pm
               then metadata (release pm version (major version) (minor version)
                                (patch version + 1))
               else None) = if pm then metadata version else None) as ->
        by by destruct pm.
      apply HP. lia.
    + unfold conflict_result.
      destruct (find_available_result _ _ _ _ _ _ _ _ _) as [v|] eqn:E'.
      * cbn [on_return]. eapply find_available_result_on; [|exact E']. intros c.
        apply HP. simpl. lia.
      * cbv zeta. destruct (negb (used T _)); [apply HP; simpl; lia|].
        unfold find_next_available_version_result. cbn [is_prerelease prerelease negb].
        match goal with
        | |- context [last_component (find_numeric_prerelease_components ?b)] =>
            destruct (last_component_dot_one label b eq_refl) as [index ->]
        end.
        apply next_available_loop_result_on. intros c. apply HP. simpl. lia.
Qed.

End Invariant.

Lemma increment_Return self version increment_type prerelease_type r self' :
  cache_ok self ->
  increment version increment_type prerelease_type self = (Return r, self') ->
  increment_result (existing_tags self) (preserve_metadata self) version
    increment_type prerelease_type = Return r.
Proof.
  intros Hc E.
  destruct (increment_run self version increment_type prerelease_type Hc)
    as (self'' & E' & _). congruence.
Qed.

Lemma increment_prerelease_result_on T (pm : bool) version prerelease_type
    (P : SemanticVersion -> Prop) :
  (forall (pa : Z) (p : option string), P {| major := major version; minor := minor version; patch := pa;
                     prerelease := p; metadata := metadata version;
                     prefix := prefix version |}) ->
  (forall (pa : Z) (p : option string), P {| major := major version; minor := minor version; patch := pa;
                     prerelease := p;
                     metadata := if pm then metadata version else None;
                     prefix := prefix version |}) ->
  on_return P (increment_prerelease_result T pm version prerelease_type).
Proof.
  intros HP1 HP2. unfold increment_prerelease_result.
  destruct (negb (is_prerelease version)).
  - cbn [on_return]. unfold create_first_prerelease_result.
    destruct (first_some _ _) as [v|] eqn:E; [|apply HP2].
    revert E. apply first_some_on. intros q y.
    apply find_available_result_on. intros c. apply HP1.
  - destruct (switches_label version prerelease_type); [apply HP2|].
    unfold increment_existing_prerelease_result. cbv zeta.
    destruct (used T _); [|apply HP2].
    destruct (find_available_result _ _ _ _ _ _ _ _ _) as [v|] eqn:E; [|done].
    cbn [on_return]. eapply find_available_result_on; [|exact E].
    intros c. apply HP1.
Qed.

(** Whatever the existing tags, the version [increment] returns has the
    prefix of the input, and its metadata is that of the input or none; it is
    that of the input when the engine preserves metadata. *)
Theorem increment_keeps_prefix_and_metadata
    self version increment_type prerelease_type r self' :
  cache_ok self ->
  increment version increment_type prerelease_type self = (Return r, self') ->
  prefix r = prefix version /\
  (metadata r = metadata version \/ metadata r = None) /\
  (preserve_metadata self = true -> metadata r = metadata version).
Proof.
  intros Hc E. apply increment_Return in E; [|done].
  set (T := existing_tags self) in *. set (pm := preserve_metadata self) in *.
  assert (on_return (keeps_decor pm version)
            (increment_result T pm version increment_type prerelease_type)) as H.
  { assert (forall ma mi pa p,
              keeps_decor pm version
                {| major := ma; minor := mi; patch := pa; prerelease := p;
                   metadata := if pm then metadata version else None;
                   prefix := prefix version |}) as HP.
    { intros. split; [done|]. destruct pm; simpl; auto. }
    destruct increment_type; cbn [increment_result].
    - apply bump_result_on. intros. apply HP.
    - apply bump_result_on. intros. apply HP.
    - apply increment_patch_result_on. intros. apply HP.
    - apply increment_prerelease_result_on; [|intros; apply HP].
      intros. split; [done|by left].
    - apply increment_prerelease_result_on; [|intros; apply HP].
      intros. split; [done|by left]. }
  rewrite E in H. destruct H as [Hpre [Hm|[Hpm Hm]]]; repeat split; auto.
  - intros Hpm'. congruence.
Qed.

Lemma increment_keeps_prefix_and_metadata_witness :
  let r := mkSemanticVersion 1 3 1 None None "v" in
  prefix r = "v" /\ (metadata r = Some "build" \/ metadata r = None) /\
  (false = true -> metadata r = Some "build").
Proof.
  assert (exists self',
            increment (mkSemanticVersion 1 2 0 None (Some "build") "v") MINOR None
              (__init__ (Some {[ "v1.3.0" ]}) false) =
            (Return (mkSemanticVersion 1 3 1 None None "v"), self')) as [self' E]
    by (eexists; vm_compute; reflexivity).
  exact (increment_keeps_prefix_and_metadata _ _ _ _ _ _ (cache_ok_init _ _) E).
Defined.

(** Whatever the existing tags, a Major, Minor or Patch advancement returns a
    version with a greater major.minor.patch, hence strictly greater than the
    input: Major gives [major+1.0.x], Minor [major.minor+1.x], and Patch the
    same major.minor with a greater patch. *)
Theorem increment_core_grows self version increment_type prerelease_type r self' :
  cache_ok self ->
  is_prerelease_kind increment_type = false ->
  increment version increment_type prerelease_type self = (Return r, self') ->
  compare_precedence r version = 1 /\
  match increment_type with
  | MAJOR => major r = major version + 1 /\ minor r = 0
  | MINOR => major r = major version /\ minor r = minor version + 1
  | _ => major r = major version /\ minor r = minor version /\
         patch version < patch r
  end.
Proof.
  intros Hc Hk E. apply increment_Return in E; [|done].
  set (T := existing_tags self) in *. set (pm := preserve_metadata self) in *.
  set (P := fun r : SemanticVersion =>
              match increment_type with
              | MAJOR => major r = major version + 1 /\ minor r = 0
              | MINOR => major r = major version /\ minor r = minor version + 1
              | _ => major r = major version /\ minor r = minor version /\
                     patch version < patch r
              end).
  assert (on_return P (increment_result T pm version increment_type prerelease_type))
    as H.
  { subst P. destruct increment_type; try done; cbn [increment_result].
    - by apply bump_result_on.
    - by apply bump_result_on.
    - by apply increment_patch_result_on. }
  rewrite E in H. cbn [on_return] in H. split; [|exact H].
  apply compare_precedence_core_gt. unfold core_version. apply tuple_lt_spec.
  subst P. destruct increment_type; try done; cbv beta in H; lia.
Qed.

Lemma increment_core_grows_witness :
  compare_precedence (mkSemanticVersion 1 3 1 None None "v")
                     (mkSemanticVersion 1 2 0 None None "v") = 1 /\
  (1 = 1 /\ 3 = 2 + 1).
Proof.
  assert (exists self',
            increment (mkSemanticVersion 1 2 0 None None "v") MINOR None
              (__init__ (Some {[ "v1.3.0" ]}) false) =
            (Return (mkSemanticVersion 1 3 1 None None "v"), self')) as [self' E]
    by (eexists; vm_compute; reflexivity).
  exact (increment_core_grows _ _ MINOR _ _ _ (cache_ok_init _ _) eq_refl E).
Defined.

(** ** Major and minor advancement *)

(** A Major or Minor advancement returns its default candidate
    ([major+1.0.0], or [major.minor+1.0]) when the oracle does not know it.
    When it does, the patches 1 to 99 at the candidate's major.minor are
    probed in order and the first unused release is returned; when all 99 are
    used, the result is that of the pre-release search for conflicts with the
    label [dev]. *)
Theorem major_minor_increment self version increment_type prerelease_type :
  let T := existing_tags self in
  let pm := preserve_metadata self in
  let ma := match increment_type with MAJOR => major version + 1 | _ => major version end in
  let mi := match increment_type with MAJOR => 0 | _ => minor version + 1 end in
  cache_ok self ->
  increment_type = MAJOR \/ increment_type = MINOR ->
  exists r self',
    increment version increment_type prerelease_type self = (r, self') /\
    cache_ok self' /\ existing_tags self' = T /\
    (used T (release pm version ma mi 0) = false ->
     r = Return (release pm version ma mi 0)) /\
    (used T (release pm version ma mi 0) = true ->
       (forall q,
          1 <= q <= 99 -> used T (release pm version ma mi q) = false ->
          (forall q', 1 <= q' < q -> used T (release pm version ma mi q') = true) ->
          r = Return (release pm version ma mi q)) /\
       ((forall q, 1 <= q <= 99 -> used T (release pm version ma mi q) = true) ->
        r = fst (_find_next_available_prerelease_for_conflict
                   (release pm version ma mi 0) "dev" self'))).
Proof.
  intros T pm ma mi Hc Hk.
  destruct (increment_run self version increment_type prerelease_type Hc)
    as (self' & E & Hc' & HT' & Hpm').
  eexists _, self'. split; [exact E|]. split; [done|]. split; [done|].
  fold T pm.
  assert (increment_result T pm version increment_type prerelease_type =
          bump_result T pm version (release pm version ma mi 0)) as ->
    by (by destruct Hk as [-> | ->]).
  unfold bump_result. split; [by intros ->|]. intros ->. split.
  - intros q Hq Hfree Hbefore. unfold patch_scan_result.
    rewrite (first_some_range_Some _ _ _ q (release pm version ma mi q));
      [done|unfold MAX_PATCH_ATTEMPTS; lia| |].
    + cbn [major minor release]. fold (release pm version ma mi q). by rewrite Hfree.
    + intros q' Hq'. cbn [major minor release]. fold (release pm version ma mi q').
      by rewrite Hbefore by lia.
  - intros Hall.
    assert (patch_scan_result T pm (release pm version ma mi 0) version = None) as ->.
    { apply first_some_range_None. intros q Hq. cbn [major minor release].
      fold (release pm version ma mi q).
      rewrite Hall; [done|]. unfold MAX_PATCH_ATTEMPTS in Hq. lia. }
    destruct (runs_conflict T pm (release pm version ma mi 0) "dev" self' Hc' HT' Hpm')
      as (self'' & -> & _). done.
Qed.

Lemma major_minor_increment_witness :
  let T : gset string := {[ "v1.3.0" ]} in
  exists self',
    increment (mkSemanticVersion 1 2 0 None None "v") MINOR None
      (__init__ (Some T) false) =
      (Return (mkSemanticVersion 1 3 1 None None "v"), self').
Proof.
  intros T.
  destruct (major_minor_increment (__init__ (Some T) false)
              (mkSemanticVersion 1 2 0 None None "v") MINOR None
              (cache_ok_init _ _) (or_intror eq_refl))
    as (r & self' & E & _ & _ & _ & H).
  exists self'. rewrite E. f_equal.
  destruct (H eq_refl) as [H1 _]. apply (H1 1); [lia|reflexivity|intros; lia].
Defined.

(** ** Advancing a pre-release in place *)

Lemma find_char_None_all c s :
  Py.find_char c s = None ->
  Py.all_chars (fun d => negb (Ascii.eqb d c)) s = true.
Proof.
  induction s as [|d s IH]; simpl; [done|].
  destruct (Ascii.eqb d c); [done|]. destruct (Py.find_char c s); [done|]. auto.
Qed.

(** The label of the search that follows a collision: the leading identifier
    of the proposed chain. *)
Lemma prerelease_base_first_field s :
  (if Py.contains_char "." s then first_field "." s else s) = first_field "." s.
Proof.
  unfold Py.contains_char. destruct (Py.find_char "." s) eqn:E; [done|].
  symmetry. apply first_field_no_sep. by apply find_char_None_all.
Qed.

(** With no label switch, a Prerelease advancement of a pre-release proposes
    the chain with its rightmost numeric component incremented ([.1] appended
    when there is none) and returns it when unused.  When it is used, the
    counters 1 to 1000 are probed in order at the next patch, under the
    leading identifier of the proposed chain, and the first unused
    [label.counter] is returned; when all 1000 are used the call raises a
    [RuntimeError]. *)
Theorem existing_prerelease_increment self version prerelease_type :
  let T := existing_tags self in
  let pm := preserve_metadata self in
  let candidate :=
    {| major := major version; minor := minor version; patch := patch version;
       prerelease := Some (incremented_prerelease version);
       metadata := if pm then metadata version else None;
       prefix := prefix version |} in
  let next c :=
    prerelease_candidate (major version) (minor version) (patch version + 1)
      (first_field "." (incremented_prerelease version)) c
      (metadata version) (prefix version) in
  cache_ok self ->
  is_prerelease version = true ->
  switches_label version prerelease_type = false ->
  exists r self',
    increment version PRERELEASE prerelease_type self = (r, self') /\
    cache_ok self' /\ existing_tags self' = T /\
    (used T candidate = false -> r = Return candidate) /\
    (used T candidate = true ->
       (forall c,
          1 <= c <= 1000 -> used T (next c) = false ->
          (forall c', 1 <= c' < c -> used T (next c') = true) ->
          r = Return (next c)) /\
       ((forall c, 1 <= c <= 1000 -> used T (next c) = true) ->
        r = Raise (RuntimeError "Could not find available prerelease version"))).
Proof.
  intros T pm candidate next Hc Hpre Hsw.
  destruct (increment_run self version PRERELEASE prerelease_type Hc)
    as (self' & E & Hc' & HT' & Hpm').
  eexists _, self'. split; [exact E|]. split; [done|]. split; [done|].
  fold T pm. cbn [increment_result]. unfold increment_prerelease_result.
  rewrite Hpre, Hsw. cbn [negb]. unfold increment_existing_prerelease_result.
  cbv zeta. fold candidate. rewrite prerelease_base_first_field.
  split; [by intros ->|]. intros ->. unfold find_available_result.
  change (or_default None) with 1000. split.
  - intros c Hcc Hfree Hbefore.
    rewrite (first_some_range_Some _ _ _ c (next c)); [done|lia| |].
    + fold (next c). by rewrite Hfree.
    + intros c' Hlt. fold (next c'). by rewrite Hbefore by lia.
  - intros Hall.
    match goal with
    | |- context [first_some ?f ?xs] => assert (first_some f xs = None) as ->; [|done]
    end.
    apply first_some_range_None. intros c Hcc. cbv zeta. fold (next c).
    by rewrite Hall by lia.
Qed.

Lemma existing_prerelease_increment_witness :
  let T : gset string := {[ "1.0.0-alpha.2" ]} in
  exists self',
    increment (mkSemanticVersion 1 0 0 (Some "alpha.1") None EmptyString)
      PRERELEASE None (__init__ (Some T) false) =
      (Return (mkSemanticVersion 1 0 1 (Some "alpha.1") None EmptyString), self').
Proof.
  intros T.
  destruct (existing_prerelease_increment (__init__ (Some T) false)
              (mkSemanticVersion 1 0 0 (Some "alpha.1") None EmptyString) None
              (cache_ok_init _ _) eq_refl eq_refl)
    as (r & self' & E & _ & _ & _ & H).
  exists self'. rewrite E. f_equal.
  destruct (H eq_refl) as [H1 _]. apply (H1 1); [lia|reflexivity|intros; lia].
Defined.

(** ** The loop of [_find_next_available_version] ends *)

(** The loop needs no more than [MAX_PRERELEASE_ATTEMPTS - counter] further
    rounds: from that number on, allowing it more rounds changes nothing, so
    it always ends, with a version or with its [RuntimeError]. *)
Theorem next_available_loop_bounded
    fuel base identifiers index original_id counter self :
  (Z.to_nat (MAX_PRERELEASE_ATTEMPTS - counter) <= fuel)%nat ->
  next_available_loop fuel base identifiers index original_id counter self =
  next_available_loop (Z.to_nat (MAX_PRERELEASE_ATTEMPTS - counter))
    base identifiers index original_id counter self.
Proof.
  revert counter self.
  assert (forall fuel fuel' counter self,
            (Z.to_nat (MAX_PRERELEASE_ATTEMPTS - counter) <= fuel)%nat ->
            (Z.to_nat (MAX_PRERELEASE_ATTEMPTS - counter) <= fuel')%nat ->
            next_available_loop fuel base identifiers index original_id counter self =
            next_available_loop fuel' base identifiers index original_id counter self)
    as Hgen.
  { clear fuel. induction fuel as [|fuel IH]; intros [|fuel'] counter self Hf Hf';
      cbn [next_available_loop]; unfold bind;
      destruct (_version_exists _ self) as [[[|]|e] self1]; try done; cbn [negb];
      destruct (Z.gtb_spec (counter + 1) MAX_PRERELEASE_ATTEMPTS) as [|Hle];
      try done; try lia.
    apply IH; lia. }
  intros counter self Hf. by apply Hgen.
Qed.

Lemma next_available_loop_bounded_witness :
  let base := mkSemanticVersion 1 0 1 (Some "dev.1") None EmptyString in
  let self := __init__ (Some {[ "1.0.1-dev.1" ]}) false in
  next_available_loop 5000 base ["dev"; "1"] 1 "1" 2 self =
  next_available_loop 998 base ["dev"; "1"] 1 "1" 2 self.
Proof.
  apply (next_available_loop_bounded 5000). vm_compute. lia.
Defined.

(** ** The pre-release search for conflicts *)

Lemma join_snoc sep l x :
  l <> [] -> Py.join sep (l ++ [x]) = Py.join sep l +:+ sep +:+ x.
Proof.
  induction l as [|w l IH]; [done|]. intros _. destruct l as [|w' l].
  - done.
  - change (Py.join sep ((w :: w' :: l) ++ [x]))
      with (w +:+ sep +:+ Py.join sep ((w' :: l) ++ [x])).
    rewrite IH by done. cbn [Py.join]. by rewrite !app_assoc_s.
Qed.

Lemma split_not_nil sep s : Py.split sep s <> [].
Proof.
  destruct s as [|c s]; simpl; [done|]. destruct (Ascii.eqb c sep); [done|].
  by destruct (Py.split sep s).
Qed.

(** Joining what [split] gave returns the text. *)
Lemma join_split sep s : Py.join (String sep EmptyString) (Py.split sep s) = s.
Proof.
  induction s as [|c s IH]; [done|]. cbn [Py.split].
  destruct (Ascii.eqb_spec c sep) as [->|Hc].
  - pose proof (split_not_nil sep s) as Hne.
    destruct (Py.split sep s) as [|w ws] eqn:E; [done|].
    rewrite join_cons2, IH. by rewrite app_nil_s.
  - pose proof (split_not_nil sep s) as Hne.
    destruct (Py.split sep s) as [|w ws] eqn:E; [done|].
    destruct ws as [|w' ws].
    + simpl in *. by rewrite IH.
    + rewrite join_cons2, app_cons_s. rewrite join_cons2 in IH. by rewrite IH.
Qed.

Lemma fallback_components label v :
  prerelease v = Some (label +:+ ".1") ->
  get_prerelease_identifiers v = Py.split "." label ++ ["1"] /\
  last_component (find_numeric_prerelease_components v) =
    Some (length (Py.split "." label), "1", 1).
Proof.
  intros Hp. unfold find_numeric_prerelease_components, get_prerelease_identifiers.
  rewrite Hp. assert (nonempty (label +:+ ".1") = true) as -> by by destruct label.
  rewrite split_app_sep. change (Py.split "." "1") with ["1"]. split; [done|].
  rewrite numeric_components_from_app. simpl.
  unfold last_component. by rewrite last_snoc.
Qed.

Lemma fallback_with_counter label c :
  Py.join "." (with_counter (Py.split "." label ++ ["1"])
                 (length (Py.split "." label)) "1" c) =
  label +:+ "." +:+ Py.str c.
Proof.
  unfold with_counter. change (Py.isdigit "1") with true. cbv iota.
  rewrite insert_app_r_alt by lia. rewrite Nat.sub_diag.
  change (<[0%nat := Py.str c]> ["1"]) with [Py.str c].
  rewrite join_snoc by apply split_not_nil. by rewrite (join_split "." label).
Qed.

(** The loop of [_find_next_available_version], for a counter within the
    bound: the first unused candidate from [counter] to
    [MAX_PRERELEASE_ATTEMPTS], else the [RuntimeError]. *)
Lemma next_available_loop_result_spec T base identifiers index original_id
    (cand : Z -> SemanticVersion) fuel counter :
  (forall c, cand c =
     {| major := major base; minor := minor base; patch := patch base;
        prerelease :=
          Some (Py.join "." (with_counter identifiers index original_id c));
        metadata := metadata base; prefix := prefix base |}) ->
  fuel = Z.to_nat (MAX_PRERELEASE_ATTEMPTS - counter) ->
  counter <= MAX_PRERELEASE_ATTEMPTS ->
  let r := next_available_loop_result T fuel base identifiers index original_id counter in
  (forall c,
     counter <= c <= MAX_PRERELEASE_ATTEMPTS -> used T (cand c) = false ->
     (forall c', counter <= c' < c -> used T (cand c') = true) ->
     r = Return (cand c)) /\
  ((forall c, counter <= c <= MAX_PRERELEASE_ATTEMPTS -> used T (cand c) = true) ->
   r = Raise (RuntimeError "Could not find available version")).
Proof.
  intros Hcand. revert counter. induction fuel as [|fuel IH]; intros counter Hf Hle;
    cbv zeta; cbn [next_available_loop_result]; rewrite <- (Hcand counter);
    destruct (used T (cand counter)) eqn:Eu; cbn [negb].
  - destruct (Z.gtb_spec (counter + 1) MAX_PRERELEASE_ATTEMPTS); [|lia]. split.
    + intros c Hc Hfree Hbefore. assert (c = counter) as -> by lia. congruence.
    + done.
  - split.
    + intros c Hc Hfree Hbefore. destruct (Z.eq_dec c counter) as [->|]; [done|].
      rewrite Hbefore in Eu by lia. done.
    + intros Hall. rewrite Hall in Eu by lia. done.
  - destruct (Z.gtb_spec (counter + 1) MAX_PRERELEASE_ATTEMPTS); [lia|].
    destruct (IH (counter + 1) ltac:(lia) ltac:(lia)) as [IH1 IH2]. split.
    + intros c Hc Hfree Hbefore. destruct (Z.eq_dec c counter) as [->|]; [congruence|].
      apply IH1; [lia|done|]. intros c' Hc'. apply Hbefore. lia.
    + intros Hall. apply IH2. intros c Hc. apply Hall. lia.
  - split.
    + intros c Hc Hfree Hbefore. destruct (Z.eq_dec c counter) as [->|]; [done|].
      rewrite Hbefore in Eu by lia. done.
    + intros Hall. rewrite Hall in Eu by lia. done.
Qed.

(** [_find_next_available_prerelease_for_conflict] probes [label.1] to
    [label.1000] at the base version and returns the first unused one; when
    all are used it probes [label.1] to [label.1000] at the next patch and
    returns the first unused one; when these are used too it raises a
    [RuntimeError].  All versions returned carry the metadata and prefix of
    the base. *)
Theorem conflict_search self base label :
  let T := existing_tags self in
  let here c :=
    prerelease_candidate (major base) (minor base) (patch base) label c
      (metadata base) (prefix base) in
  let next c :=
    prerelease_candidate (major base) (minor base) (patch base + 1) label c
      (metadata base) (prefix base) in
  cache_ok self ->
  exists r self',
    _find_next_available_prerelease_for_conflict base label self = (r, self') /\
    cache_ok self' /\ existing_tags self' = T /\
    (forall c,
       1 <= c <= 1000 -> used T (here c) = false ->
       (forall c', 1 <= c' < c -> used T (here c') = true) ->
       r = Return (here c)) /\
    ((forall c, 1 <= c <= 1000 -> used T (here c) = true) ->
       (forall c,
          1 <= c <= 1000 -> used T (next c) = false ->
          (forall c', 1 <= c' < c -> used T (next c') = true) ->
          r = Return (next c)) /\
       ((forall c, 1 <= c <= 1000 -> used T (next c) = true) ->
        r = Raise (RuntimeError "Could not find available version"))).
Proof.
  intros T here next Hc.
  destruct (runs_conflict T (preserve_metadata self) base label self Hc eq_refl eq_refl)
    as (self' & E & Hc' & HT' & _).
  eexists _, self'. split; [exact E|]. split; [done|]. split; [done|].
  unfold conflict_result, find_available_result. change (or_default None) with 1000.
  split.
  - intros c Hcc Hfree Hbefore.
    rewrite (first_some_range_Some _ _ _ c (here c)); [done|lia| |].
    + fold (here c). by rewrite Hfree.
    + intros c' Hlt. fold (here c'). by rewrite Hbefore by lia.
  - intros Hall.
    match goal with
    | |- context [first_some ?f ?xs] => assert (first_some f xs = None) as ->
    end.
    { apply first_some_range_None. intros c Hcc. cbv zeta. fold (here c).
      by rewrite Hall by lia. }
    cbv zeta.
    assert (forall c, next c =
              {| major := major base; minor := minor base; patch := patch base + 1;
                 prerelease := Some (label +:+ "." +:+ Py.str c);
                 metadata := metadata base; prefix := prefix base |}) as Hnext by done.
    assert ({| major := major base; minor := minor base; patch := patch base + 1;
               prerelease := Some (label +:+ ".1");
               metadata := metadata base; prefix := prefix base |} = next 1) as ->
      by done.
    destruct (used T (next 1)) eqn:E1; cbn [negb].
    + unfold find_next_available_version_result. cbn [is_prerelease negb].
      destruct (fallback_components label (next 1) eq_refl) as [-> ->].
      destruct (next_available_loop_result_spec T (next 1)
                  (Py.split "." label ++ ["1"]) (length (Py.split "." label)) "1"
                  next (Z.to_nat (MAX_PRERELEASE_ATTEMPTS - (1 + 1))) (1 + 1))
        as [H1 H2]; [|done|done|].
      { intros c. rewrite Hnext, fallback_with_counter. done. }
      split.
      * intros c Hcc Hfree Hbefore. apply H1; [|done|].
        -- destruct (Z.eq_dec c 1) as [->|]; [congruence|].
           unfold MAX_PRERELEASE_ATTEMPTS. lia.
        -- intros c' Hlt. apply Hbefore. lia.
      * intros Hall'. apply H2. intros c Hcc. apply Hall'.
        unfold MAX_PRERELEASE_ATTEMPTS in Hcc. lia.
    + split.
      * intros c Hcc Hfree Hbefore. destruct (Z.eq_dec c 1) as [->|]; [done|].
        rewrite Hbefore in E1 by lia. done.
      * intros Hall'. rewrite Hall' in E1 by lia. done.
Qed.

Lemma conflict_search_witness :
  let T : gset string := {[ "2.0.0-dev.1" ]} in
  exists self',
    _find_next_available_prerelease_for_conflict
      (mkSemanticVersion 2 0 0 None None EmptyString) "dev"
      (__init__ (Some T) false) =
      (Return (mkSemanticVersion 2 0 0 (Some "dev.2") None EmptyString), self').
Proof.
  intros T.
  destruct (conflict_search (__init__ (Some T) false)
              (mkSemanticVersion 2 0 0 None None EmptyString) "dev"
              (cache_ok_init _ _))
    as (r & self' & E & _ & _ & H & _).
  exists self'. rewrite E. f_equal. apply (H 2); [lia|reflexivity|].
  intros c' Hc'. assert (c' = 1) as -> by lia. reflexivity.
Defined.

(** ** The last resort of the first pre-release *)

(** When every candidate of the window of a release is in use, the Prerelease
    advancement returns its last resort without asking the oracle: [label.1]
    at the patch of the input itself, with the text [None] in place of a
    missing label, and with the metadata the flag keeps. *)
Theorem first_prerelease_last_resort self version prerelease_type :
  let T := existing_tags self in
  cache_ok self ->
  is_prerelease version = false ->
  (forall q c,
     in_first_window version q c ->
     used T (prerelease_candidate (major version) (minor version) q
               (or_dev prerelease_type) c (metadata version) (prefix version))
       = true) ->
  exists self',
    increment version PRERELEASE prerelease_type self =
      (Return {| major := major version; minor := minor version;
                 patch := patch version;
                 prerelease := Some (fmt prerelease_type +:+ ".1");
                 metadata :=
                   if preserve_metadata self then metadata version else None;
                 prefix := prefix version |}, self') /\
    cache_ok self' /\ existing_tags self' = T.
Proof.
  intros T Hc Hpre Hused.
  destruct (increment_run self version PRERELEASE prerelease_type Hc)
    as (self' & E & Hc' & HT' & _).
  exists self'. split; [|done]. rewrite E. f_equal.
  cbn [increment_result]. unfold increment_prerelease_result. rewrite Hpre.
  cbn [negb]. f_equal. unfold create_first_prerelease_result.
  match goal with
  | |- context [first_some ?f ?xs] => assert (first_some f xs = None) as ->; [|done]
  end.
  apply first_some_range_None. intros q Hq.
  apply find_available_result_None; [done|]. intros c Hcc. apply Hused.
  change (Z.min MAX_PRERELEASE_ATTEMPTS MAX_PATCH_ATTEMPTS) with 100 in Hcc.
  split; lia.
Qed.

(** Every candidate of the window of [1.0.0] is among [window_tags]. *)
Lemma window_tags_used q c :
  1 <= q <= 5 -> 1 <= c <= 100 ->
  used window_tags
    (prerelease_candidate 1 0 q "dev" c None EmptyString) = true.
Proof.
  intros Hq Hc. apply used_true.
  exists ("1.0." +:+ Py.str q +:+ "-dev." +:+ Py.str c). split.
  - unfold window_tags. rewrite elem_of_list_to_set, elem_of_cons. right.
    apply list_elem_of_bind. exists q. split; [|apply elem_of_range; lia].
    apply list_elem_of_fmap. exists c. split; [done|apply elem_of_range; lia].
  - reflexivity.
Qed.

Lemma first_prerelease_last_resort_witness :
  exists self',
    increment (mkSemanticVersion 1 0 0 None None EmptyString) PRERELEASE None
      (__init__ (Some window_tags) false) =
      (Return (mkSemanticVersion 1 0 0 (Some "None.1") None EmptyString), self') /\
    cache_ok self' /\ existing_tags self' = window_tags.
Proof.
  apply (first_prerelease_last_resort (__init__ (Some window_tags) false)
           (mkSemanticVersion 1 0 0 None None EmptyString) None
           (cache_ok_init _ _) eq_refl).
  intros q c [Hq Hc]. cbn [patch major minor metadata prefix or_dev] in *.
  apply window_tags_used; lia.
Defined.

(** ** The numeric components of a pre-release chain *)

Lemma numeric_components_from_complete k l j id n :
  l !! j = Some id -> component_value id = Some n ->
  ((k + j)%nat, id, n) ∈ numeric_components_from k l.
Proof.
  revert k j. induction l as [|x l IH]; intros k j Hj Hv; [done|].
  destruct j as [|j]; cbn in Hj.
  - injection Hj as ->. rewrite Nat.add_0_r. unfold component_value in Hv.
    cbn [numeric_components_from].
    destruct (Py.isdigit id).
    + injection Hv as <-. apply elem_of_cons. by left.
    + destruct (search_trailing_digits id) as [[[h d] t]|]; [|done].
      injection Hv as <-. apply elem_of_cons. by left.
  - specialize (IH (S k) j Hj Hv).
    replace (k + S j)%nat with (S k + j)%nat by lia.
    cbn [numeric_components_from].
    destruct (Py.isdigit x); [apply elem_of_cons; by right|].
    destruct (search_trailing_digits x) as [[[h d] t]|]; [|done].
    apply elem_of_cons. by right.
Qed.

Lemma numeric_components_from_sorted k l :
  StronglySorted lt ((fun c => c.1.1) <$> numeric_components_from k l).
Proof.
  revert k. induction l as [|x l IH]; intros k; [constructor|].
  assert (Forall (lt k) ((fun c => c.1.1) <$> numeric_components_from (S k) l))
    as Hall.
  { apply Forall_forall. intros i Hi.
    apply list_elem_of_fmap in Hi as ([[i' id] n] & -> & Hin).
    apply numeric_components_from_elem in Hin as (j & -> & _). cbn. lia. }
  cbn [numeric_components_from].
  destruct (Py.isdigit x); [by constructor|].
  destruct (search_trailing_digits x) as [[[h d] t]|]; [by constructor|done].
Qed.

(** X13.  [find_numeric_prerelease_components] lists, in the order of the
    chain, exactly the identifiers that hold a number: an entry
    [(i, id, n)] is in the list if and only if [id] is the identifier at
    position [i] and [n] is the number read in it; the positions listed grow
    strictly; and the number read in an identifier is the value of a
    non-empty run of digits that ends it (before a final line feed, if it
    has one). *)
Theorem find_numeric_prerelease_components_spec version :
  (forall i id n,
     (i, id, n) ∈ find_numeric_prerelease_components version <->
     get_prerelease_identifiers version !! i = Some id /\
     component_value id = Some n) /\
  StronglySorted lt
    ((fun c => c.1.1) <$> find_numeric_prerelease_components version) /\
  (forall id n,
     component_value id = Some n ->
     exists h d t,
       id = h +:+ d +:+ t /\ Py.isdigit d = true /\ n = Py.int d /\
       (t = EmptyString \/ t = String "010" EmptyString)).
Proof.
  split; [|split].
  - intros i id n. unfold find_numeric_prerelease_components. split.
    + intros H. apply numeric_components_from_elem in H as (j & -> & Hj & Hv).
      by rewrite Nat.add_0_l.
    + intros [Hi Hv].
      by apply (numeric_components_from_complete 0 _ i).
  - apply numeric_components_from_sorted.
  - intros id n. unfold component_value.
    destruct (Py.isdigit id) eqn:Ed.
    + intros [= <-]. exists EmptyString, id, EmptyString.
      rewrite app_nil_s, app_empty_r. auto.
    + destruct (search_trailing_digits id) as [[[h d] t]|] eqn:Es; [|done].
      intros [= <-].
      apply search_trailing_digits_spec in Es as (E & Hd & Hn & Ht).
      exists h, d, t. repeat split; try done.
      unfold Py.isdigit. by destruct d.
Qed.
(** ** The availability oracle *)

Lemma before_plus_cons c s :
  before_plus (String c s) =
  if Ascii.eqb c "+" then EmptyString else String c (before_plus s).
Proof.
  unfold before_plus. cbn [Py.find_char].
  destruct (Ascii.eqb c "+"); [done|].
  by destruct (Py.find_char "+" s).
Qed.

Lemma before_plus_app y m : before_plus (y +:+ String "+" m) = before_plus y.
Proof.
  induction y as [|c y IH].
  - by rewrite app_nil_s.
  - rewrite app_cons_s, !before_plus_cons, IH. done.
Qed.

(** Normalizing a text: one leading [v] or [V] goes, then all from the first
    [+] on, and the rest is put in lower case. *)
Lemma normalize_before_plus s :
  _normalize_version_string s =
  match s with
  | EmptyString => EmptyString
  | String c s' =>
      Py.lower (before_plus (if Ascii.eqb c "v" || Ascii.eqb c "V" then s' else s))
  end.
Proof.
  destruct s as [|c s']; [done|].
  unfold _normalize_version_string, find_from, slice, before_plus.
  destruct (Ascii.eqb c "v" || Ascii.eqb c "V"); cbn [Py.drop_chars].
  - destruct (Py.find_char "+" s') as [k|]; cbn; [|done].
    by rewrite Nat.sub_0_r.
  - destruct (Py.find_char "+" (String c s')) as [k|]; cbn; [|done].
    by rewrite Nat.sub_0_r.
Qed.

Lemma normalize_cut x m :
  _normalize_version_string (x +:+ String "+" m) = _normalize_version_string x.
Proof.
  rewrite !normalize_before_plus. destruct x as [|c x].
  - rewrite app_nil_s. done.
  - rewrite app_cons_s.
    destruct (Ascii.eqb c "v" || Ascii.eqb c "V").
    + by rewrite before_plus_app.
    + by rewrite <- app_cons_s, before_plus_app.
Qed.

Lemma normalize_to_string_bare version :
  _normalize_version_string (to_string version false) =
  _normalize_version_string (to_string (bare version) false).
Proof.
  rewrite !to_string_false. cbn [bare major minor patch prerelease metadata].
  replace (opt_part "+" None) with EmptyString by done. rewrite app_empty_r.
  unfold opt_part at 2. destruct (truthy (metadata version)).
  - change ("+" +:+ default EmptyString (metadata version))
      with (String "+" (default EmptyString (metadata version))).
    rewrite <- !app_assoc_s. apply normalize_cut.
  - by rewrite app_empty_r.
Qed.

(** X14.  The oracle [_version_exists], asked from an instance whose cache
    is sound, returns a truth value and never raises, leaves the existing
    tags as they are and the cache sound, and answers [True] exactly when
    some existing tag normalizes to the same text as the version; the prefix
    and the metadata of the version play no part in the answer. *)
Theorem version_exists_spec self version :
  cache_ok self ->
  exists b self',
    _version_exists version self = (Return b, self') /\
    cache_ok self' /\
    existing_tags self' = existing_tags self /\
    preserve_metadata self' = preserve_metadata self /\
    (b = true <->
     exists tag,
       tag ∈ existing_tags self /\
       _normalize_version_string tag =
       _normalize_version_string (to_string (bare version) false)).
Proof.
  intros Hc.
  destruct (runs_version_exists _ _ version self Hc eq_refl eq_refl)
    as (self' & E & Hc' & HT & Hpm).
  exists (used (existing_tags self) version), self'.
  repeat split; try done.
  - intros (tag & Htag & Et)%used_true. exists tag.
    by rewrite <- normalize_to_string_bare.
  - intros (tag & Htag & Et). apply used_true. exists tag.
    by rewrite normalize_to_string_bare.
Qed.

Lemma version_exists_spec_witness :
  let self := __init__ (Some {["V1.2.3-RC.1+build.7"]}) false in
  let version :=
    mkSemanticVersion 1 2 3 (Some "rc.1") (Some "exp") "v" in
  exists b self',
    _version_exists version self = (Return b, self') /\
    cache_ok self' /\
    existing_tags self' = existing_tags self /\
    preserve_metadata self' = preserve_metadata self /\
    (b = true <->
     exists tag,
       tag ∈ existing_tags self /\
       _normalize_version_string tag =
       _normalize_version_string (to_string (bare version) false)).
Proof.
  exact (version_exists_spec
           (__init__ (Some {["V1.2.3-RC.1+build.7"]}) false)
           (mkSemanticVersion 1 2 3 (Some "rc.1") (Some "exp") "v")
           (cache_ok_init _ _)).
Defined.
(** ** Suggestions *)

Lemma runs_try_except_Return {A} T pm (m : Eng A) (h : exn -> Eng A) a :
  runs T pm m (Return a) -> runs T pm (try_except m h) (Return a).
Proof.
  intros Hm self Hc HT Hpm.
  destruct (Hm self Hc HT Hpm) as (self' & E & H).
  exists self'. unfold try_except. by rewrite E.
Qed.

Lemma runs_suggest_strategies T pm types version suggestions :
  runs T pm (suggest_strategies types version suggestions)
    (Return (suggest_strategies_result T pm types version suggestions)).
Proof.
  revert suggestions. induction types as [|ty types IH]; intros suggestions.
  - apply runs_ret.
  - cbn [suggest_strategies suggest_strategies_result].
    eapply runs_bind; [|apply IH].
    apply runs_try_except_Return.
    eapply runs_bind; [apply runs_create_first_prerelease|]. apply runs_ret.
Qed.

Lemma version_eq_sym a b : version_eq a b = version_eq b a.
Proof.
  unfold version_eq.
  rewrite (cmp_antisym _ compare_precedence_laws a b).
  destruct (compare_precedence a b); reflexivity.
Qed.

Lemma not_in_spec s l :
  not_in s l = true <-> forall a, a ∈ l -> version_eq a s = false.
Proof.
  unfold not_in. rewrite negb_true_iff. split.
  - intros H a Ha. destruct (version_eq a s) eqn:E; [|done].
    rewrite <- H. symmetry. apply existsb_exists. exists a.
    split; [by apply list_elem_of_In|done].
  - intros H. destruct (existsb _ l) eqn:E; [|done].
    apply existsb_exists in E as (a & Ha%list_elem_of_In & E).
    by rewrite (H a Ha) in E.
Qed.

Lemma pairwise_distinct_snoc l s :
  pairwise_distinct l -> not_in s l = true -> pairwise_distinct (l ++ [s]).
Proof.
  intros Hl Hs i j a b Hi Hj Hij.
  pose proof (proj1 (not_in_spec s l) Hs) as Hn.
  apply lookup_snoc_Some in Hi as [[Hi Ha]|[Hi <-]];
    apply lookup_snoc_Some in Hj as [[Hj Hb]|[Hj <-]].
  - by apply (Hl i j).
  - apply Hn. by eapply list_elem_of_lookup_2.
  - rewrite version_eq_sym. apply Hn. by eapply list_elem_of_lookup_2.
  - lia.
Qed.

Lemma pairwise_distinct_short l : (length l <= 1)%nat -> pairwise_distinct l.
Proof.
  intros Hl i j a b Hi Hj Hij.
  apply lookup_lt_Some in Hi, Hj. lia.
Qed.

Lemma suggest_strategies_result_spec T pm types version suggestions :
  let l := suggest_strategies_result T pm types version suggestions in
  (length suggestions <= length l <= length suggestions + length types)%nat /\
  (types <> [] -> (1 <= length l)%nat) /\
  (pairwise_distinct suggestions -> pairwise_distinct l) /\
  (forall a, a ∈ suggestions -> a ∈ l) /\
  (forall label, label ∈ types ->
     exists s, s ∈ l /\
       version_eq s (create_first_prerelease_result T pm version (Some label))
         = true).
Proof.
  revert suggestions. induction types as [|ty types IH]; intros suggestions.
  - cbn. repeat split; try done; try lia. by intros label ?%elem_of_nil.
  - cbn [suggest_strategies_result].
    set (s := create_first_prerelease_result T pm version (Some ty)).
    set (l1 := if not_in s suggestions then suggestions ++ [s] else suggestions).
    destruct (IH l1) as (Hlen & _ & Hpd & Hin & Hall). cbn zeta in *.
    assert (length suggestions <= length l1 <= length suggestions + 1)%nat as H1.
    { unfold l1. destruct (not_in s suggestions); [|lia].
      rewrite length_app. cbn. lia. }
    assert (exists a, a ∈ l1 /\ version_eq a s = true) as (a0 & Ha0 & Ea0).
    { unfold l1. destruct (not_in s suggestions) eqn:En.
      - exists s. split; [apply elem_of_app; right; by apply list_elem_of_singleton|].
        unfold version_eq.
        by rewrite (cmp_refl _ compare_precedence_laws).
      - unfold not_in in En. apply negb_false_iff, existsb_exists in En
          as (a & Ha%list_elem_of_In & E). by exists a. }
    repeat split.
    + lia.
    + cbn [length]. lia.
    + intros _. pose proof (Hin a0 Ha0) as Hm.
      apply list_elem_of_lookup_1 in Hm as [i Hi].
      apply lookup_lt_Some in Hi. lia.
    + intros Hs. apply Hpd. unfold l1.
      destruct (not_in s suggestions) eqn:En; [|done].
      by apply pairwise_distinct_snoc.
    + intros a Ha. apply Hin. unfold l1.
      destruct (not_in s suggestions); [|done]. apply elem_of_app. by left.
    + intros label [->|Hl]%elem_of_cons.
      * exists a0. split; [by apply Hin|done].
      * by apply Hall.
Qed.

(** X15.  [suggest_next_version], asked from an instance whose cache is
    sound, leaves the cache sound and the existing tags as they are.  For
    the Prerelease kind it never raises: it returns between one and five
    suggestions, no two of them equal for [__eq__], and for each of the
    labels [dev], [alpha], [beta] and [rc] one of them equals the first
    pre-release [_create_first_prerelease] gives for that label.  For any
    other kind it is the advancement [increment] gives for that kind with no
    label, alone in a list, or the error [increment] raises. *)
Theorem suggest_next_version_spec self current_version increment_type :
  cache_ok self ->
  exists r self',
    suggest_next_version current_version increment_type self = (r, self') /\
    cache_ok self' /\
    existing_tags self' = existing_tags self /\
    match increment_type with
    | PRERELEASE =>
        exists l,
          r = Return l /\ (1 <= length l <= 5)%nat /\ pairwise_distinct l /\
          forall label, label ∈ ["dev"; "alpha"; "beta"; "rc"] ->
            exists s first self1,
              s ∈ l /\
              _create_first_prerelease current_version (Some label) self =
                (Return first, self1) /\
              version_eq s first = true
    | _ =>
        increment current_version increment_type None self =
          (match r with
           | Return l => Return (default current_version (head l))
           | Raise e => Raise e
           end, self') /\
        on_return (fun l => length l = 1%nat) r
    end.
Proof.
  intros Hc.
  assert (increment_type <> PRERELEASE ->
          exists r self',
            suggest_next_version current_version increment_type self = (r, self') /\
            cache_ok self' /\ existing_tags self' = existing_tags self /\
            increment current_version increment_type None self =
              (match r with
               | Return l => Return (default current_version (head l))
               | Raise e => Raise e
               end, self') /\
            on_return (fun l => length l = 1%nat) r) as Hother.
  { intros Hne.
    destruct (increment_run self current_version increment_type None Hc)
      as (self' & E & Hc' & HT & _).
    unfold suggest_next_version.
    replace (IncrementType_eqb increment_type PRERELEASE) with false
      by by destruct increment_type.
    unfold bind. rewrite E.
    destruct (increment_result _ _ _ _ _) as [v|e].
    - exists (Return [v]), self'. by repeat split.
    - exists (Raise e), self'. by repeat split. }
  destruct increment_type; try (apply Hother; discriminate).
  clear Hother. unfold suggest_next_version. cbn [IncrementType_eqb].
  match goal with
  | |- context [suggest_strategies ?tys _ ?l0] =>
      set (l0' := l0);
      destruct (runs_suggest_strategies (existing_tags self)
                  (preserve_metadata self) tys current_version l0' self Hc
                  eq_refl eq_refl) as (self' & E & Hc' & HT & _);
      destruct (suggest_strategies_result_spec (existing_tags self)
                  (preserve_metadata self) tys current_version l0')
        as (Hlen & Hone & Hpd & _ & Hall)
  end.
  assert (length l0' <= 1)%nat as H0.
  { unfold l0'. destruct (is_prerelease current_version); [|cbn; lia].
    match goal with |- context [match ?x with Some _ => _ | None => _ end] =>
      destruct x end; cbn; lia. }
  eexists _, self'. split; [exact E|]. split; [done|]. split; [done|].
  eexists. split; [reflexivity|]. split; [|split].
  - split; [by apply Hone|]. cbn [length] in Hlen. lia.
  - by apply Hpd, pairwise_distinct_short.
  - intros label Hl. destruct (Hall label Hl) as (s & Hs & Es).
    destruct (runs_create_first_prerelease (existing_tags self)
                (preserve_metadata self) current_version (Some label) self Hc
                eq_refl eq_refl) as (self1 & E1 & _).
    exists s, (create_first_prerelease_result (existing_tags self)
                 (preserve_metadata self) current_version (Some label)), self1.
    done.
Qed.

Lemma suggest_next_version_spec_witness :
  let self := __init__ (Some {["1.0.1-beta.1"]}) false in
  let current_version := mkSemanticVersion 1 0 0 (Some "alpha.2") None "v" in
  exists r self',
    suggest_next_version current_version PRERELEASE self = (r, self') /\
    cache_ok self' /\
    existing_tags self' = existing_tags self /\
    exists l,
      r = Return l /\ (1 <= length l <= 5)%nat /\ pairwise_distinct l /\
      forall label, label ∈ ["dev"; "alpha"; "beta"; "rc"] ->
        exists s first self1,
          s ∈ l /\
          _create_first_prerelease current_version (Some label) self =
            (Return first, self1) /\
          version_eq s first = true.
Proof.
  exact (suggest_next_version_spec
           (__init__ (Some {["1.0.1-beta.1"]}) false)
           (mkSemanticVersion 1 0 0 (Some "alpha.2") None "v") PRERELEASE
           (cache_ok_init _ _)).
Defined.
(** ** Parsing a formatted version *)

Lemma span_app p a b :
  Py.all_chars p a = true ->
  match b with EmptyString => True | String c _ => p c = false end ->
  span p (a +:+ b) = (a, b).
Proof.
  intros Ha Hb. induction a as [|c a IH].
  - rewrite app_nil_s. destruct b as [|c b]; [done|]. cbn. by rewrite Hb.
  - cbn in Ha. apply andb_true_iff in Ha as [Hc Ha].
    rewrite app_cons_s. cbn [span]. by rewrite Hc, (IH Ha).
Qed.

Lemma match_number_app d rest :
  canonical d = true ->
  match rest with
  | EmptyString => True
  | String c _ => Py.isdigit_char c = false
  end ->
  match_number (d +:+ rest) = Some (d, rest).
Proof.
  intros Hd Hrest. apply canonical_iff in Hd as [Hall Hz].
  unfold match_number. rewrite (span_app _ _ _ Hall Hrest).
  destruct d as [|c d]; [done|].
  destruct d as [|c' d]; [by destruct c as [[] [] [] [] [] [] [] []]|].
  destruct (Ascii.eqb_spec c "0") as [->|Hc]; [by specialize (Hz eq_refl)|].
  by destruct c as [[] [] [] [] [] [] [] []].
Qed.

Lemma match_chain_app x rest :
  chain_ok x = true ->
  match rest with
  | EmptyString => True
  | String c _ => is_chain_char c = false
  end ->
  match_chain (x +:+ rest) = Some (x, rest).
Proof.
  unfold chain_ok. intros [[Hn Hall]%andb_true_iff Hs]%andb_true_iff Hrest.
  unfold match_chain. by rewrite (span_app _ _ _ Hall Hrest), Hs.
Qed.

Lemma match_metadata_text m :
  match m with Some x => chain_ok x = true | None => True end ->
  match_metadata
    match m with Some x => "+" +:+ x | None => EmptyString end = Some m.
Proof.
  destruct m as [x|]; [|done]. intros Hx.
  change ("+" +:+ x) with (String "+" x). cbn [match_metadata].
  rewrite <- (app_empty_r x) at 1. by rewrite (match_chain_app x EmptyString Hx I).
Qed.

Lemma match_prerelease_text p m :
  match p with Some x => chain_ok x = true | None => True end ->
  match m with Some x => chain_ok x = true | None => True end ->
  match_prerelease
    (match p with Some x => "-" +:+ x | None => EmptyString end +:+
     match m with Some x => "+" +:+ x | None => EmptyString end) = Some (p, m).
Proof.
  intros Hp Hm. destruct p as [x|].
  - change ("-" +:+ x) with (String "-" x). rewrite app_cons_s.
    cbn [match_prerelease].
    rewrite (match_chain_app x _ Hp); [by rewrite (match_metadata_text m Hm)|].
    by destruct m.
  - rewrite app_nil_s. pose proof (match_metadata_text m Hm) as E.
    destruct m as [y|]; [|done].
    change ("+" +:+ y) with (String "+" y) in *.
    unfold match_prerelease. by rewrite E.
Qed.

Lemma canonical_head d :
  canonical d = true ->
  exists c r, d = String c r /\ Py.isdigit_char c = true.
Proof.
  intros [Hall Hz]%canonical_iff. destruct d as [|c r]; [done|].
  cbn in Hall. apply andb_true_iff in Hall as [Hc _]. eauto.
Qed.

(** The version pattern matches the text of well-formed groups, and
    captures them. *)
Lemma SEMVER_PATTERN_match_complete g :
  groups_ok g -> SEMVER_PATTERN_match (groups_text g) = Some g.
Proof.
  destruct g as [pre ma mi pa p m].
  intros (Hpre & Hma & Hmi & Hpa & Hp & Hm). cbn in *.
  unfold groups_text, SEMVER_PATTERN_match. cbn [g_prefix g_major g_minor g_patch g_prerelease g_metadata].
  set (tail := match p with Some x => "-" +:+ x | None => EmptyString end +:+
               match m with Some x => "+" +:+ x | None => EmptyString end).
  assert (match_prefix
            (default EmptyString pre +:+ ma +:+ "." +:+ mi +:+ "." +:+ pa +:+ tail)
          = (pre, ma +:+ "." +:+ mi +:+ "." +:+ pa +:+ tail)) as ->.
  { destruct (canonical_head ma Hma) as (c & r & -> & Hc).
    destruct Hpre as [->|[->| ->]]; cbn [default];
      rewrite ?app_nil_s, ?app_cons_s; [|done|done].
    cbn [match_prefix].
    by destruct c as [[] [] [] [] [] [] [] []]. }
  change ("." +:+ mi +:+ "." +:+ pa +:+ tail)
    with (String "." (mi +:+ String "." (pa +:+ tail))).
  rewrite (match_number_app ma (String "." _) Hma eq_refl).
  cbn [mbind option_bind match_char Ascii.eqb Bool.eqb].
  rewrite (match_number_app mi (String "." _) Hmi eq_refl).
  cbn [mbind option_bind match_char Ascii.eqb Bool.eqb].
  rewrite (match_number_app pa tail Hpa).
  - cbn [mbind option_bind]. unfold tail.
    by rewrite (match_prerelease_text p m Hp Hm).
  - unfold tail. destruct p; [by rewrite app_cons_s|].
    rewrite app_nil_s. by destruct m.
Qed.




Lemma chain_ok_text x :
  chain_ok x = true -> Py.all_chars is_text_char x = true.
Proof.
  unfold chain_ok. intros [[_ Hall]%andb_true_iff _]%andb_true_iff.
  revert Hall. apply all_chars_impl. intros c Hc. unfold is_text_char.
  by rewrite Hc.
Qed.

Lemma canonical_text d :
  canonical d = true -> Py.all_chars is_text_char d = true.
Proof.
  intros [Hall _]%canonical_iff. revert Hall. apply all_chars_impl.
  intros c Hc. unfold is_text_char, is_chain_char, is_ident_char. by rewrite Hc.
Qed.

Lemma groups_text_chars g :
  groups_ok g -> Py.all_chars is_text_char (groups_text g) = true.
Proof.
  destruct g as [pre ma mi pa p m].
  intros (Hpre & Hma%canonical_text & Hmi%canonical_text & Hpa%canonical_text
          & Hp & Hm). cbn in *.
  unfold groups_text. cbn [g_prefix g_major g_minor g_patch g_prerelease g_metadata].
  rewrite !all_chars_app, Hma, Hmi, Hpa.
  assert (Py.all_chars is_text_char (default EmptyString pre) = true) as ->
    by by destruct Hpre as [->|[->| ->]].
  assert (Py.all_chars is_text_char
            match p with Some x => "-" +:+ x | None => EmptyString end = true) as ->.
  { destruct p as [x|]; [|done]. by rewrite all_chars_app, (chain_ok_text x Hp). }
  assert (Py.all_chars is_text_char
            match m with Some x => "+" +:+ x | None => EmptyString end = true) as ->.
  { destruct m as [x|]; [|done]. by rewrite all_chars_app, (chain_ok_text x Hm). }
  done.
Qed.

Lemma groups_of_version_ok v : well_formed v -> groups_ok (groups_of_version v).
Proof.
  intros (Hma & Hmi & Hpa & Hpre & Hp & Hm).
  assert (forall z, 0 <= z -> canonical (Py.str z) = true) as Hcan.
  { intros z Hz. unfold Py.str. destruct (Z.ltb_spec z 0); [lia|].
    apply str_of_N_canonical. }
  unfold groups_ok, groups_of_version. cbn.
  repeat split; try (by apply Hcan); try done.
  destruct Hpre as [->|[->| ->]]; cbn; auto.
Qed.

Lemma version_of_groups_of_version v :
  well_formed v -> version_of_groups (groups_of_version v) = v.
Proof.
  intros (Hma & Hmi & Hpa & Hpre & Hp & Hm). destruct v as [ma mi pa p m pre].
  unfold version_of_groups, groups_of_version. cbn in *.
  rewrite !int_str by done. f_equal. by destruct pre.
Qed.

Lemma text_char_not_space c :
  is_text_char c = true ->
  is_ascii c && negb (Py.isspace (String c EmptyString)) = true.
Proof.
  destruct c as [[] [] [] [] [] [] [] []]; intros H; try discriminate H;
    vm_compute; reflexivity.
Qed.

Lemma parse_groups_text g :
  groups_ok g ->
  Py.len (groups_text g) <= MAX_VERSION_LENGTH ->
  parse (groups_text g) = Return (version_of_groups g).
Proof.
  intros Hg Hlen. apply parse_match; [done|].
  rewrite strip_ascii; [by apply SEMVER_PATTERN_match_complete|].
  eapply all_chars_impl; [|by apply groups_text_chars].
  apply text_char_not_space.
Qed.

Lemma to_string_groups_of_version v :
  well_formed v -> to_string v true = groups_text (groups_of_version v).
Proof.
  intros Hv.
  pose proof (to_string_version_of_groups _ (groups_of_version_ok v Hv)) as Et.
  by rewrite (version_of_groups_of_version v Hv) in Et.
Qed.

(** X16.  Parsing inverts formatting on the versions [parse] can produce: a
    well-formed version whose text, formatted with its prefix, has at most
    [MAX_VERSION_LENGTH] characters is parsed back from that text, field for
    field. *)
Theorem parse_to_string_inverse v :
  well_formed v ->
  Py.len (to_string v true) <= MAX_VERSION_LENGTH ->
  parse (to_string v true) = Return v.
Proof.
  intros Hv Hlen. rewrite (to_string_groups_of_version v Hv) in *.
  rewrite <- (version_of_groups_of_version v Hv) at 2.
  apply parse_groups_text; [by apply groups_of_version_ok|done].
Qed.

Lemma parse_to_string_inverse_witness :
  parse (to_string
           (mkSemanticVersion 1 20 3 (Some "rc.1") (Some "build.5") "v") true) =
  Return (mkSemanticVersion 1 20 3 (Some "rc.1") (Some "build.5") "v").
Proof.
  apply (parse_to_string_inverse
           (mkSemanticVersion 1 20 3 (Some "rc.1") (Some "build.5") "v")).
  - unfold well_formed. cbn. repeat split; try lia; auto.
  - vm_compute. discriminate.
Defined.

(** ** The engine keeps versions well formed *)

Lemma all_chars_split p sep s :
  Py.all_chars p s = true ->
  Forall (fun w => Py.all_chars p w = true) (Py.split sep s).
Proof.
  induction s as [|c s IH]; cbn [Py.all_chars Py.split].
  - intros _. by repeat constructor.
  - intros [Hc Hs]%andb_true_iff. specialize (IH Hs).
    destruct (Ascii.eqb c sep); [by constructor|].
    destruct (Py.split sep s) as [|w ws].
    + repeat constructor. cbn. by rewrite Hc.
    + inversion IH; subst. constructor; [|done]. cbn. by rewrite Hc.
Qed.

Lemma ident_char_cases c :
  is_ident_char c = is_chain_char c && negb (Ascii.eqb c ".").
Proof. by destruct c as [[] [] [] [] [] [] [] []]. Qed.

Lemma chain_ok_split x :
  chain_ok x = true -> Forall (fun w => ident_ok w = true) (Py.split "." x).
Proof.
  unfold chain_ok. intros [[_ Hall]%andb_true_iff Hne]%andb_true_iff.
  apply Forall_forall. intros w Hw. unfold ident_ok.
  rewrite forallb_forall in Hne. rewrite (Hne w) by by apply list_elem_of_In.
  pose proof (all_chars_split _ "." x Hall) as H1.
  pose proof (split_no_dots "." x) as H2.
  rewrite Forall_forall in H1, H2. specialize (H1 w Hw). specialize (H2 w Hw).
  cbn [andb]. clear -H1 H2. induction w as [|c w IH]; [done|].
  cbn in *. apply andb_true_iff in H1 as [Hc H1], H2 as [Hd H2].
  by rewrite ident_char_cases, Hc, Hd, IH.
Qed.

Lemma ident_ok_no_dot w : ident_ok w = true -> no_dot w = true.
Proof.
  unfold ident_ok, no_dot. intros [_ H]%andb_true_iff. revert H.
  apply all_chars_impl. intros c. rewrite ident_char_cases.
  by intros [_ ?]%andb_true_iff.
Qed.

Lemma ident_ok_chain_chars w :
  ident_ok w = true -> Py.all_chars is_chain_char w = true.
Proof.
  unfold ident_ok. intros [_ H]%andb_true_iff. revert H.
  apply all_chars_impl. intros c. rewrite ident_char_cases.
  by intros [? _]%andb_true_iff.
Qed.

Lemma chain_ok_join l :
  l <> [] -> Forall (fun w => ident_ok w = true) l ->
  chain_ok (Py.join "." l) = true.
Proof.
  intros Hl Hall. unfold chain_ok.
  rewrite split_join;
    [|done|by eapply Forall_impl; [exact Hall|apply ident_ok_no_dot]].
  assert (forallb nonempty l = true) as ->.
  { apply forallb_forall. intros w Hw%list_elem_of_In.
    rewrite Forall_forall in Hall. specialize (Hall w Hw).
    unfold ident_ok in Hall. by apply andb_true_iff in Hall as [? _]. }
  assert (Py.all_chars is_chain_char (Py.join "." l) = true) as ->.
  { clear Hl. induction Hall as [|w l Hw Hall IH]; [done|].
    destruct l as [|w' l]; [by apply ident_ok_chain_chars|].
    rewrite (join_cons2 "." w w' l), all_chars_app.
    rewrite (ident_ok_chain_chars w Hw). cbn [andb Py.all_chars].
    by rewrite IH. }
  destruct l as [|w l]; [done|]. inversion Hall as [|? ? Hw _]; subst.
  unfold ident_ok in Hw. apply andb_true_iff in Hw as [Hw _].
  destruct w; [done|]. destruct l; [done|]. cbn [Py.join].
  by rewrite app_cons_s.
Qed.

Lemma str_ident c : ident_ok (Py.str c) = true.
Proof.
  assert (forall n, ident_ok (Py.str_of_N n) = true) as HN.
  { intros n. destruct (str_of_N_spec n) as (Hall & _ & Hne).
    unfold ident_ok. apply andb_true_iff. split.
    - by destruct (Py.str_of_N n).
    - revert Hall. apply all_chars_impl. intros d Hd.
      unfold is_ident_char. by rewrite Hd. }
  unfold Py.str. destruct (c <? 0); [|apply HN].
  specialize (HN (Z.to_N (- c))). unfold ident_ok in *.
  apply andb_true_iff in HN as [_ HN]. cbn [nonempty andb Py.all_chars].
  by rewrite HN.
Qed.

Lemma chain_ok_label_counter label c :
  chain_ok label = true -> chain_ok (label +:+ "." +:+ Py.str c) = true.
Proof.
  intros Hl.
  rewrite <- (join_split "." label) at 1.
  rewrite <- (join_snoc "." _ (Py.str c)) by apply split_not_nil.
  apply chain_ok_join.
  - by destruct (Py.split "." label).
  - apply Forall_app. split; [by apply chain_ok_split|].
    repeat constructor. apply str_ident.
Qed.

Lemma chain_ok_dot_one label :
  chain_ok label = true -> chain_ok (label +:+ ".1") = true.
Proof. apply (chain_ok_label_counter label 1). Qed.

Lemma sub_trailing_ident r oid :
  ident_ok r = true -> ident_ok oid = true ->
  ident_ok (sub_trailing_digits r oid) = true.
Proof.
  intros Hr Ho. unfold sub_trailing_digits.
  destruct (search_trailing_digits oid) as [[[h d] t]|] eqn:E; [|done].
  apply search_trailing_digits_spec in E as (-> & _ & _ & _).
  unfold ident_ok in *.
  apply andb_true_iff in Hr as [Hn Hr], Ho as [_ Ho].
  rewrite !all_chars_app in Ho.
  apply andb_true_iff in Ho as [Hh [_ Ht]%andb_true_iff].
  rewrite !all_chars_app, Hh, Hr, Ht.
  apply andb_true_iff. split; [|done].
  destruct h; [|done]. rewrite app_nil_s. destruct r; [done|].
  by rewrite app_cons_s.
Qed.

Lemma with_counter_ok identifiers index original_id c :
  Forall (fun w => ident_ok w = true) identifiers ->
  ident_ok original_id = true ->
  Forall (fun w => ident_ok w = true)
    (with_counter identifiers index original_id c).
Proof.
  intros Hall Ho. unfold with_counter.
  destruct (Py.isdigit original_id); apply Forall_insert; try done.
  - apply str_ident.
  - apply sub_trailing_ident; [apply str_ident|done].
Qed.

Lemma with_counter_not_nil identifiers index original_id c :
  identifiers <> [] -> with_counter identifiers index original_id c <> [].
Proof.
  intros Hne H. apply (f_equal length) in H. revert H. unfold with_counter.
  destruct (Py.isdigit original_id); rewrite length_insert;
    by destruct identifiers.
Qed.

(** A version built from a well-formed one, with its prefix, with its
    metadata or none, and with numbers and a chain that are in order. *)
Lemma well_formed_with v ma mi pa p m :
  well_formed v ->
  0 <= ma -> 0 <= mi -> 0 <= pa ->
  match p with Some x => chain_ok x = true | None => True end ->
  m = metadata v \/ m = None ->
  well_formed {| major := ma; minor := mi; patch := pa; prerelease := p;
                 metadata := m; prefix := prefix v |}.
Proof.
  intros (_ & _ & _ & Hpre & _ & Hm) Hma Hmi Hpa Hp Hm'.
  unfold well_formed. cbn. repeat split; try done.
  by destruct Hm' as [-> | ->].
Qed.

Lemma metadata_flag (pm : bool) (v : SemanticVersion) :
  (if pm then metadata v else None) = metadata v \/
  (if pm then metadata v else None) = None.
Proof. destruct pm; auto. Qed.

Lemma find_available_result_wf T v ma mi pa label start n r :
  well_formed v -> 0 <= ma -> 0 <= mi -> 0 <= pa -> chain_ok label = true ->
  find_available_result T ma mi pa label start n (metadata v) (prefix v) = Some r ->
  well_formed r.
Proof.
  intros Hv Hma Hmi Hpa Hl. apply find_available_result_on. intros c.
  apply well_formed_with; try done; [|by left].
  by apply chain_ok_label_counter.
Qed.

Lemma conflict_result_wf T pm base label :
  well_formed base -> chain_ok label = true ->
  on_return well_formed (conflict_result T pm base label).
Proof.
  intros Hb Hl. pose proof Hb as (Hma & Hmi & Hpa & _).
  unfold conflict_result.
  destruct (find_available_result _ _ _ _ _ _ _ _ _) as [v|] eqn:E.
  - exact (find_available_result_wf _ _ _ _ _ _ _ _ _ Hb Hma Hmi Hpa Hl E).
  - cbv zeta. destruct (negb (used T _)).
    + cbn [on_return]. apply well_formed_with; try done; try lia; [|by left].
      by apply chain_ok_dot_one.
    + unfold find_next_available_version_result. cbn [is_prerelease prerelease negb].
      match goal with
      | |- context [last_component (find_numeric_prerelease_components ?b)] =>
          destruct (fallback_components label b eq_refl) as [-> ->]
      end.
      apply next_available_loop_result_on. intros c.
      rewrite fallback_with_counter. cbn [major minor patch metadata prefix].
      apply well_formed_with; try done; try lia; [|by left].
      by apply chain_ok_label_counter.
Qed.

Lemma release_wf pm v ma mi pa :
  well_formed v -> 0 <= ma -> 0 <= mi -> 0 <= pa ->
  well_formed (release pm v ma mi pa).
Proof.
  intros Hv Hma Hmi Hpa. unfold release.
  apply well_formed_with; try done. apply metadata_flag.
Qed.

Lemma bump_result_wf T pm version ma mi :
  well_formed version -> 0 <= ma -> 0 <= mi ->
  on_return well_formed (bump_result T pm version (release pm version ma mi 0)).
Proof.
  intros Hv Hma Hmi. unfold bump_result.
  destruct (used T _); [|by apply release_wf].
  destruct (patch_scan_result _ _ _ _) as [v|] eqn:E.
  - unfold patch_scan_result in E. cbn [on_return].
    apply first_some_range_Some_inv in E as (p & Hp & E & _). cbv zeta in E.
    destruct (negb (used T _)); [|done]. injection E as <-.
    apply release_wf; try done. lia.
  - apply conflict_result_wf; [|done]. by apply release_wf.
Qed.

Lemma increment_patch_result_wf T pm version label :
  well_formed version -> chain_ok label = true ->
  on_return well_formed (increment_patch_result T pm version label).
Proof.
  intros Hv Hl. pose proof Hv as (Hma & Hmi & Hpa & _).
  unfold increment_patch_result. cbv zeta.
  destruct (negb (used T _)); [apply release_wf; try done; lia|].
  destruct (find_next_available_patch_result _ _ _) as [v|] eqn:E.
  - unfold find_next_available_patch_result in E.
    apply first_some_range_Some_inv in E as (q & Hq & E & _).
    destruct (negb (bool_decide _)); [|done]. cbv zeta in E.
    destruct (negb (used T _)); [|done]. injection E as <-.
    apply release_wf; try done. lia.
  - unfold create_conflict_prerelease_result. cbv zeta.
    destruct (negb (used T _)).
    + cbn [on_return]. apply well_formed_with; try done; try lia.
      * by apply chain_ok_dot_one.
      * destruct pm; cbn; auto.
    + apply conflict_result_wf; [|done]. apply release_wf; try done. lia.
Qed.

Lemma chain_ok_first_field x :
  chain_ok x = true -> chain_ok (first_field "." x) = true.
Proof.
  intros Hx. pose proof (chain_ok_split x Hx) as Hall.
  pose proof (split_not_nil "." x) as Hne.
  unfold first_field. destruct (Py.split "." x) as [|w ws]; [done|].
  inversion Hall; subst.
  apply (chain_ok_join [w]); [done|]. by repeat constructor.
Qed.

Lemma incremented_prerelease_ok version p :
  prerelease version = Some p -> chain_ok p = true ->
  chain_ok (incremented_prerelease version) = true.
Proof.
  intros Hp Hc. unfold incremented_prerelease.
  destruct (last_component _) as [[[index original_id] numeric_value]|] eqn:E.
  - apply last_component_spec in E as [Hi _].
    assert (get_prerelease_identifiers version = Py.split "." p) as Eids.
    { unfold get_prerelease_identifiers. rewrite Hp.
      by rewrite (chain_ok_nonempty p Hc). }
    rewrite Eids in *. pose proof (chain_ok_split p Hc) as Hall.
    assert (ident_ok original_id = true) as Ho.
    { rewrite Forall_forall in Hall. apply Hall.
      by eapply list_elem_of_lookup_2. }
    match goal with
    | |- context [Py.join _ ?l] =>
        assert (l = with_counter (Py.split "." p) index original_id
                      (numeric_value + 1)) as ->
          by (unfold with_counter; by destruct (Py.isdigit original_id))
    end.
    apply chain_ok_join.
    + apply with_counter_not_nil, split_not_nil.
    + by apply with_counter_ok.
  - rewrite Hp. cbn [fmt default]. by apply chain_ok_dot_one.
Qed.

Lemma increment_prerelease_result_wf T pm version prerelease_type :
  well_formed version -> label_ok prerelease_type ->
  on_return well_formed (increment_prerelease_result T pm version prerelease_type).
Proof.
  intros Hv Hl. pose proof Hv as (Hma & Hmi & Hpa & _ & Hp & _).
  assert (chain_ok (or_dev prerelease_type) = true) as Hdev.
  { destruct prerelease_type as [l|]; [|done]. cbn in *.
    by rewrite (chain_ok_nonempty l Hl). }
  assert (chain_ok (fmt prerelease_type +:+ ".1") = true) as Hfmt.
  { destruct prerelease_type as [l|]; [|done]. by apply chain_ok_dot_one. }
  unfold increment_prerelease_result.
  destruct (prerelease version) as [p|] eqn:Ep.
  - unfold is_prerelease. rewrite Ep. cbn [negb].
    destruct (switches_label version prerelease_type).
    + cbn [on_return]. apply well_formed_with; try done. apply metadata_flag.
    + unfold increment_existing_prerelease_result. cbv zeta.
      pose proof (incremented_prerelease_ok version p Ep Hp) as Hn.
      destruct (used T _).
      * rewrite prerelease_base_first_field.
        destruct (find_available_result _ _ _ _ _ _ _ _ _) as [v|] eqn:E; [|done].
        refine (find_available_result_wf _ _ _ _ _ _ _ _ _ Hv Hma Hmi _ _ E);
          [lia|by apply chain_ok_first_field].
      * cbn [on_return]. apply well_formed_with; try done. apply metadata_flag.
  - unfold is_prerelease. rewrite Ep. cbn [negb on_return].
    unfold create_first_prerelease_result.
    destruct (first_some _ _) as [v|] eqn:E.
    + apply first_some_range_Some_inv in E as (q & Hq & E & _).
      refine (find_available_result_wf _ _ _ _ _ _ _ _ _ Hv Hma Hmi _ Hdev E).
      lia.
    + apply well_formed_with; try done. apply metadata_flag.
Qed.

Lemma increment_result_wf T pm version increment_type prerelease_type :
  well_formed version -> label_ok prerelease_type ->
  on_return well_formed
    (increment_result T pm version increment_type prerelease_type).
Proof.
  intros Hv Hl. pose proof Hv as (Hma & Hmi & Hpa & _).
  destruct increment_type; cbn [increment_result].
  - apply bump_result_wf; try done. lia.
  - apply bump_result_wf; try done. lia.
  - apply increment_patch_result_wf; [done|].
    destruct prerelease_type as [l|]; [|done]. cbn in *.
    by rewrite (chain_ok_nonempty l Hl).
  - by apply increment_prerelease_result_wf.
  - by apply increment_prerelease_result_wf.
Qed.

(** X17.  [increment] keeps versions well formed: from a well-formed version
    and a label that is absent or a well-formed chain, whatever the existing
    tags and for every kind of advancement, the version returned is well
    formed; so when its text has at most [MAX_VERSION_LENGTH] characters,
    [parse] reads that text back as the version returned. *)
Theorem increment_well_formed
    self version increment_type prerelease_type r self' :
  cache_ok self ->
  well_formed version -> label_ok prerelease_type ->
  increment version increment_type prerelease_type self = (Return r, self') ->
  well_formed r /\
  (Py.len (to_str r) <= MAX_VERSION_LENGTH -> parse (to_str r) = Return r).
Proof.
  intros Hc Hv Hl E. apply increment_Return in E; [|done].
  pose proof (increment_result_wf (existing_tags self) (preserve_metadata self)
                version increment_type prerelease_type Hv Hl) as H.
  rewrite E in H. cbn [on_return] in H. split; [done|].
  unfold to_str. intros Hlen. rewrite (to_string_groups_of_version r H) in *.
  rewrite <- (version_of_groups_of_version r H) at 2.
  apply parse_groups_text; [by apply groups_of_version_ok|done].
Qed.

Lemma increment_well_formed_witness :
  let r := mkSemanticVersion 1 2 3 (Some "rc.10") None "v" in
  well_formed r /\
  (Py.len (to_str r) <= MAX_VERSION_LENGTH -> parse (to_str r) = Return r).
Proof.
  assert (exists self',
            increment (mkSemanticVersion 1 2 3 (Some "rc.9") (Some "b7") "v")
              PRERELEASE (Some "rc")
              (__init__ (Some {[ "v1.2.3-rc.9" ]}) false) =
            (Return (mkSemanticVersion 1 2 3 (Some "rc.10") None "v"), self'))
    as [self' E] by (eexists; vm_compute; reflexivity).
  refine (increment_well_formed _ _ _ _ _ _ (cache_ok_init _ _) _ _ E).
  - unfold well_formed. cbn. repeat split; try lia; auto.
  - reflexivity.
Defined.

(** ** The patches in use *)

Lemma prefix_drop p s :
  String.prefix p s = true -> s = p +:+ Py.drop_chars (String.length p) s.
Proof.
  revert s. induction p as [|c p IH]; intros s;
    [rewrite app_nil_s; intros _; cbn; reflexivity|].
  destruct s as [|d s]; [done|]. cbn [String.prefix].
  destruct (ascii_dec c d) as [->|]; [|done].
  intros H. rewrite app_cons_s. cbn [String.length Py.drop_chars].
  by rewrite <- (IH s H).
Qed.

Lemma first_field_spec sep s :
  Py.all_chars (fun c => negb (Ascii.eqb c sep)) (first_field sep s) = true /\
  (s = first_field sep s \/
   exists r, s = first_field sep s +:+ String sep r).
Proof.
  unfold first_field. induction s as [|c s IH]; [by split; [|left]|].
  cbn [Py.split]. destruct (Ascii.eqb_spec c sep) as [->|Hc].
  - split; [done|]. right. exists s. by rewrite app_nil_s.
  - destruct (Py.split sep s) as [|w ws].
    + destruct IH as [_ [->|[r ->]]].
      * split; [|by left]. cbn. by destruct (Ascii.eqb_spec c sep).
      * split; [|by right; exists r]. cbn. by destruct (Ascii.eqb_spec c sep).
    + destruct IH as [Hw IH]. split.
      * cbn. rewrite Hw. by destruct (Ascii.eqb_spec c sep).
      * destruct IH as [->|[r ->]]; [by left|].
        right. exists r. by rewrite app_cons_s.
Qed.

Lemma first_field_app sep w r :
  Py.all_chars (fun c => negb (Ascii.eqb c sep)) w = true ->
  first_field sep (w +:+ String sep r) = w.
Proof.
  intros Hw. unfold first_field. rewrite split_app_sep.
  by rewrite (split_no_sep sep w Hw).
Qed.

Lemma before_plus_no_plus s :
  Py.all_chars (fun c => negb (Ascii.eqb c "+")) (before_plus s) = true.
Proof.
  induction s as [|c s IH]; [done|]. rewrite before_plus_cons.
  destruct (Ascii.eqb c "+") eqn:E; [done|]. cbn. by rewrite E, IH.
Qed.


(** A normalized text holds no plus sign. *)
Lemma normalize_no_plus s :
  Py.all_chars (fun c => negb (Ascii.eqb c "+")) (_normalize_version_string s)
  = true.
Proof.
  rewrite normalize_before_plus. destruct s as [|c s]; [done|].
  apply lower_no_plus, before_plus_no_plus.
Qed.

Lemma digits_no_char (sep : ascii) d :
  Py.isdigit_char sep = false ->
  Py.all_chars Py.isdigit_char d = true ->
  Py.all_chars (fun c => negb (Ascii.eqb c sep)) d = true.
Proof.
  intros Hsep. apply all_chars_impl. intros c Hc.
  destruct (Ascii.eqb_spec c sep) as [->|]; [congruence|done].
Qed.

Lemma text_digits_no_char (sep : ascii) d :
  is_ascii sep = true -> Py.isdigit_char sep = false ->
  Py.text_isdigit d = true ->
  Py.all_chars (fun c => negb (Ascii.eqb c sep)) d = true.
Proof.
  intros Ha Hsep [_ Hd]%text_isdigit_bytes. revert Hd.
  apply all_chars_impl. intros c Hc.
  destruct (Ascii.eqb_spec c sep) as [->|]; [|done].
  by rewrite Ha, Hsep in Hc.
Qed.

Lemma tag_patch_spec prefix_pattern tag p :
  tag_patch prefix_pattern tag = Some p <->
  exists d rest,
    _normalize_version_string tag = prefix_pattern +:+ d +:+ rest /\
    Py.text_isdigit d = true /\ Py.text_int d = Some p /\
    (rest = EmptyString \/ exists r, rest = String "-" r).
Proof.
  unfold tag_patch, Py.startswith.
  pose proof (normalize_no_plus tag) as Hplus.
  set (normalized := _normalize_version_string tag) in *. split.
  - destruct (String.prefix prefix_pattern normalized) eqn:Ep; [|done].
    apply prefix_drop in Ep.
    set (remainder := Py.drop_chars _ normalized) in *.
    destruct (first_field_spec "-" remainder) as [_ Hrem].
    destruct (first_field_spec "+" (first_field "-" remainder)) as [_ Hw].
    set (w := first_field "-" remainder) in *.
    set (d := first_field "+" w) in *.
    destruct (Py.text_isdigit d) eqn:Ed; [|done]. intros Ei.
    assert (w = d) as Ewd.
    { destruct Hw as [Hw|[r Hw]]; [done|]. exfalso.
      rewrite Ep in Hplus. rewrite all_chars_app in Hplus.
      apply andb_true_iff in Hplus as [_ Hplus].
      assert (exists r', remainder = d +:+ String "+" r') as [r' Er].
      { destruct Hrem as [Hrem|[r1 Hrem]].
        - exists r. by rewrite Hrem at 1.
        - exists (r +:+ String "-" r1). rewrite Hrem at 1. rewrite Hw.
          by rewrite app_assoc_s, app_cons_s. }
      rewrite Er, all_chars_app in Hplus.
      apply andb_true_iff in Hplus as [_ Hplus]. done. }
    assert (exists rest, remainder = d +:+ rest /\
              (rest = EmptyString \/ exists r, rest = String "-" r))
      as (rest & Er & Hrest).
    { rewrite <- Ewd. destruct Hrem as [Hrem|[r1 Hrem]].
      - exists EmptyString. rewrite app_empty_r. auto.
      - exists (String "-" r1). eauto. }
    exists d, rest. rewrite <- Er. by repeat split.
  - intros (d & rest & E & Hd & Ei & Hrest). rewrite E.
    rewrite prefix_app, drop_chars_app.
    assert (first_field "-" (d +:+ rest) = d) as ->.
    { destruct Hrest as [->|[r ->]].
      - rewrite app_empty_r. apply first_field_no_sep.
        by apply text_digits_no_char.
      - apply first_field_app. by apply text_digits_no_char. }
    rewrite (first_field_no_sep "+") by by apply text_digits_no_char.
    by rewrite Hd.
Qed.

(** X18.  [_get_existing_patches] never raises and leaves the instance as it
    is; a number is in the set it returns exactly when some existing tag,
    once normalized, reads [major.minor.] followed by decimal digits of that
    value, of any script, and then ends or goes on with a hyphen.  Tags of
    pre-releases count, and so do patches written with leading zeros; a run
    of digits that [int] refuses (superscripts and the like) counts for
    nothing. *)
Theorem get_existing_patches_spec self ma mi :
  exists patches,
    _get_existing_patches ma mi self = (Return patches, self) /\
    forall p,
      p ∈ patches <->
      exists tag d rest,
        tag ∈ existing_tags self /\
        _normalize_version_string tag =
          (Py.str ma +:+ "." +:+ Py.str mi +:+ ".") +:+ d +:+ rest /\
        Py.text_isdigit d = true /\ Py.text_int d = Some p /\
        (rest = EmptyString \/ exists r, rest = String "-" r).
Proof.
  eexists. split; [reflexivity|]. intros p.
  rewrite elem_of_set_omap. split.
  - intros (tag & Htag & E). apply tag_patch_spec in E as (d & rest & E).
    by exists tag, d, rest.
  - intros (tag & d & rest & Htag & E). exists tag. split; [done|].
    apply tag_patch_spec. by exists d, rest.
Qed.

(** ** The precedence of pre-release chains *)

Lemma compare_ids_single a b : compare_ids [a] [b] = compare_id a b.
Proof. cbn [compare_ids]. by destruct (compare_id a b =? 0) eqn:E; [apply Z.eqb_eq in E|]. Qed.

Lemma split_digits d :
  Py.isdigit d = true -> Py.split "." d = [d].
Proof.
  intros [_ Hall]%isdigit_all. apply split_no_sep.
  by apply digits_no_char.
Qed.

(** X19.  [_compare_prerelease_identifiers] follows the precedence rules of
    pre-release chains: a chain is lower than any chain that extends it by
    further identifiers; two numerals compare by value, not by their text;
    a numeric identifier is lower than an identifier that is not numeric;
    and two identifiers that are not numeric compare as strings. *)
Theorem prerelease_precedence_rules :
  (forall p x,
     _compare_prerelease_identifiers (Some p) (Some (p +:+ "." +:+ x)) = -1) /\
  (forall m n,
     0 <= m -> 0 <= n ->
     _compare_prerelease_identifiers (Some (Py.str m)) (Some (Py.str n)) =
       Z.sgn (m - n)) /\
  (forall a b,
     Py.isdigit a = true -> Py.isdigit b = false -> no_dot b = true ->
     _compare_prerelease_identifiers (Some a) (Some b) = -1) /\
  (forall a b,
     Py.isdigit a = false -> Py.isdigit b = false ->
     no_dot a = true -> no_dot b = true ->
     _compare_prerelease_identifiers (Some a) (Some b) =
       match String.compare a b with Lt => -1 | Eq => 0 | Gt => 1 end).
Proof.
  repeat split.
  - intros p x. rewrite _compare_prerelease_identifiers_spec.
    change ("." +:+ x) with (String "." x). rewrite split_app_sep.
    pose proof (split_not_nil "." x) as Hne.
    destruct (Py.split "." x) as [|x0 r]; [done|].
    rewrite (cmp_antisym _ compare_ids_laws (Py.split "." p ++ x0 :: r)).
    by rewrite compare_ids_app.
  - intros m n Hm Hn. rewrite _compare_prerelease_identifiers_spec.
    rewrite !split_digits by by apply isdigit_str.
    rewrite compare_ids_single. unfold compare_id.
    rewrite !isdigit_str, !int_str by done. cbn [andb].
    destruct (Z.eqb_spec (m - n) 0) as [E|E]; cbn [negb]; [by rewrite E|].
    destruct (Z.ltb_spec (m - n) 0); lia.
  - intros a b Ha Hb Hdot. rewrite _compare_prerelease_identifiers_spec.
    rewrite (split_digits a Ha), (split_no_sep "." b Hdot), compare_ids_single.
    unfold compare_id. by rewrite Ha, Hb.
  - intros a b Ha Hb Hda Hdb. rewrite _compare_prerelease_identifiers_spec.
    rewrite (split_no_sep "." a Hda), (split_no_sep "." b Hdb), compare_ids_single.
    unfold compare_id, Py.str_lt, Py.str_gt. rewrite Ha, Hb. cbn [andb negb].
    by destruct (String.compare a b).
Qed.

(** ** What [increment] may do *)

Lemma increment_result_empty_Return pm version increment_type prerelease_type :
  is_Return (increment_result ∅ pm version increment_type prerelease_type) = true.
Proof.
  destruct increment_type; cbn [increment_result];
    unfold increment_major_result, increment_minor_result, bump_result,
      increment_patch_result, increment_prerelease_result,
      increment_existing_prerelease_result; cbv zeta;
    rewrite ?used_empty; try done.
  all: destruct (negb (is_prerelease version)); [done|];
    destruct (switches_label version prerelease_type); [done|];
    by rewrite ?used_empty.
Qed.

Lemma increment_result_raises T pm version increment_type prerelease_type e :
  increment_result T pm version increment_type prerelease_type = Raise e ->
  (exists msg, e = RuntimeError msg) /\
  T <> ∅ /\
  (is_prerelease_kind increment_type = true ->
   is_prerelease version = true /\
   switches_label version prerelease_type = false).
Proof.
  intros E. split; [|split].
  - assert (collision_free T (Raise e) \/
            is_Return (increment_result T pm version increment_type
                         prerelease_type) = true) as [H|H];
      [|done|by rewrite E in H].
    rewrite <- E. destruct increment_type; cbn [increment_result].
    + left. apply bump_result_free.
    + left. apply bump_result_free.
    + left. apply increment_patch_result_free.
    + unfold increment_prerelease_result.
      destruct (negb (is_prerelease version)); [by right|].
      destruct (switches_label version prerelease_type); [by right|].
      left. apply increment_existing_prerelease_result_free.
    + unfold increment_prerelease_result.
      destruct (negb (is_prerelease version)); [by right|].
      destruct (switches_label version prerelease_type); [by right|].
      left. apply increment_existing_prerelease_result_free.
  - intros ->.
    pose proof (increment_result_empty_Return pm version increment_type
                  prerelease_type) as H.
    by rewrite E in H.
  - intros Hk. destruct increment_type; try done;
      cbn [increment_result] in E; unfold increment_prerelease_result in E;
      destruct (is_prerelease version); try done;
      by destruct (switches_label version prerelease_type).
Qed.

(** X20.  [increment], called on an instance whose cache is sound, leaves
    the cache sound and the settings of the instance as they are, and its
    outcome is the one a fresh instance with the same tags and flag gives:
    the cache never shows in the result.  When it raises, the error is a
    [RuntimeError], there are existing tags, and for a Prerelease or Dev
    advancement the input is a pre-release whose label is kept. *)
Theorem increment_outcome self version increment_type prerelease_type :
  cache_ok self ->
  exists r self',
    increment version increment_type prerelease_type self = (r, self') /\
    cache_ok self' /\
    existing_tags self' = existing_tags self /\
    preserve_metadata self' = preserve_metadata self /\
    (increment version increment_type prerelease_type
       (__init__ (Some (existing_tags self)) (preserve_metadata self))).1 = r /\
    match r with
    | Return _ => True
    | Raise e =>
        (exists msg, e = RuntimeError msg) /\
        existing_tags self <> ∅ /\
        (is_prerelease_kind increment_type = true ->
         is_prerelease version = true /\
         switches_label version prerelease_type = false)
    end.
Proof.
  intros Hc.
  destruct (increment_run self version increment_type prerelease_type Hc)
    as (self' & E & Hc' & HT & Hpm).
  destruct (increment_run
              (__init__ (Some (existing_tags self)) (preserve_metadata self))
              version increment_type prerelease_type (cache_ok_init _ _))
    as (self0 & E0 & _).
  eexists _, self'. split; [exact E|]. repeat split; try done.
  - by rewrite E0.
  - destruct (increment_result _ _ _ _ _) as [v|e] eqn:Er; [done|].
    by apply increment_result_raises in Er.
Qed.

Lemma increment_outcome_witness :
  let self := __init__ (Some {["2.0.0"; "2.0.1"]}) true in
  let version := mkSemanticVersion 1 4 2 None (Some "b1") "v" in
  exists r self',
    increment version MAJOR None self = (r, self') /\
    cache_ok self' /\
    existing_tags self' = existing_tags self /\
    preserve_metadata self' = preserve_metadata self /\
    (increment version MAJOR None
       (__init__ (Some (existing_tags self)) (preserve_metadata self))).1 = r /\
    match r with
    | Return _ => True
    | Raise e =>
        (exists msg, e = RuntimeError msg) /\
        existing_tags self <> ∅ /\
        (is_prerelease_kind MAJOR = true ->
         is_prerelease version = true /\
         switches_label version None = false)
    end.
Proof.
  exact (increment_outcome (__init__ (Some {["2.0.0"; "2.0.1"]}) true)
           (mkSemanticVersion 1 4 2 None (Some "b1") "v") MAJOR None
           (cache_ok_init _ _)).
Defined.
